(** * Threshold-based flow funding: the solvers of post-app-website-new

    A shallow embedding of

    - [src/lib/tbff/algorithms.ts], which holds tbff's [algorithms.ts] and
      [utils.ts]: account status, the initial distribution, its summary and
      the normalization of allocations;
    - [src/lib/tbff/sample-networks.ts]: [createAccount] and the sample
      network [statesDemo];
    - [src/unnamed/part_001], the page [app/tbff/page.tsx]: the handlers
      that add funding and create, change and delete allocations;
    - [src/lib/flow-funding/engine.ts] and [src/lib/flow-funding/targeted.ts]:
      the discrete engine (validation, initial distribution, overflow rounds);
    - [src/lib/flow-v2/engine-v2.ts]: the continuous engine (zone function,
      validation, fixed-point iteration, overflow sink).

    Numbers.  The TypeScript code computes with IEEE doubles.  The
    embedding reads a [number] in two ways.

    - In [Tbff], [FlowFunding] and [FlowV2] a [number] is an exact rational
      ([Q]): comparisons, [Math.max], [Math.abs] and the four operations are
      the exact ones, and two numbers are the same when they are [Qeq]
      ([==]).  Rounding, [NaN] and the infinities are outside this reading;
      every division the code performs is guarded by the code itself against
      a zero divisor, so the convention [x / 0 == 0] of [Q] is never relied
      upon.
    - In [FlowFunding64] the discrete engine is written a second time with
      the numbers the code has: a [number] is a primitive binary64 [float],
      every operation rounds as the code's does, and a decimal literal is
      the nearest double.  What this module computes on an input is what the
      code computes on it, digit for digit.

    The properties that depend on exact shares (that the recorded overflow
    never goes up, that scaled weights give the same results) are proved
    for the exact reading, and the binary64 reading shows that rounding
    breaks them in the last digits.

    Objects and mutation.  The engines mutate the account objects of the
    caller's array.  An array of objects is a [list] of records holding the
    current field values; a function that mutates takes the list and returns
    the new list.  A JavaScript [Map] is an association list in insertion
    order; [set] on a key already present replaces the value in place.
    An object held by reference (the entries of [accountMap] and [nodeMap])
    is the position of the object in its array.

    Loops.  [maxIterations] is a natural number, and a [for] loop bounded by
    it is a recursion on the number of turns left.

    Left out.  The [console.log] calls and the [verbose] flag that guards
    them change no result.  The text of an error message is kept as a
    constructor with the values the message interpolates. *)

From Stdlib Require Import QArith Qabs Qminmax Lqa.
From Stdlib Require Import List String Bool Arith Lia.
From Stdlib Require Floats.
Import ListNotations.

Local Open Scope Q_scope.

(** ** Numbers *)

(** A JavaScript [number]. *)
Abbreviation number := Q (only parsing).

(** [x < y], [x > y], [x >= y], [x <= y] and [x === y] on numbers. *)
Definition Qltb (x y : number) : bool := negb (Qle_bool y x).
Definition Qgtb (x y : number) : bool := Qltb y x.
Definition Qgeb (x y : number) : bool := Qle_bool y x.
Definition Qleb (x y : number) : bool := Qle_bool x y.
Definition Qeqb (x y : number) : bool := Qeq_bool x y.

(** [xs.reduce((sum, x) => sum + x, 0)] *)
Definition sum (xs : list number) : number :=
  fold_left Qplus xs 0.

(** ** JavaScript [Map] with string keys *)

Module JsMap.

Definition t (V : Type) := list (string * V).

Definition empty {V} : t V := [].

Fixpoint get {V} (m : t V) (k : string) : option V :=
  match m with
  | [] => None
  | (k', v) :: m' => if String.eqb k k' then Some v else get m' k
  end.

(** [m.set(k, v)]: a present key keeps its place, a new key goes last. *)
Fixpoint set {V} (m : t V) (k : string) (v : V) : t V :=
  match m with
  | [] => [(k, v)]
  | (k', v') :: m' =>
      if String.eqb k k' then (k', v) :: m' else (k', v') :: set m' k v
  end.

Definition keys {V} (m : t V) : list string := map fst m.
Definition values {V} (m : t V) : list V := map snd m.
Definition entries {V} (m : t V) : list (string * V) := m.
Definition size {V} (m : t V) : nat := List.length m.

(** [new Map(entries)] *)
Definition of_entries {V} (es : list (string * V)) : t V :=
  fold_left (fun m e => set m (fst e) (snd e)) es empty.

End JsMap.

(** ** tbff: account status and initial distribution
    ([tbff/types.ts], [tbff/utils.ts], [tbff/algorithms.ts]) *)

Module Tbff.

Inductive AccountStatus := deficit | minimum | healthy | overflow.

Record FlowFundingAccount := {
  id : string;
  name : string;
  balance : number;
  minThreshold : number;
  maxThreshold : number;
  x : number;
  y : number;
  width : number;
  height : number;
  status : AccountStatus;
  shortfall : number;
  capacity : number;
  overflow_ : number   (* field [overflow]; the name is taken by the status *)
}.

Record Allocation := {
  alloc_id : string;
  sourceAccountId : string;
  targetAccountId : string;
  percentage : number
}.

Record FlowFundingNetwork := {
  net_name : string;
  accounts : list FlowFundingAccount;
  allocations : list Allocation;
  totalFunds : number;
  totalShortfall : number;
  totalCapacity : number;
  totalOverflow : number
}.

(** [{ ...acc, balance: b }] *)
Definition with_balance (acc : FlowFundingAccount) (b : number) :=
  {| id := id acc; name := name acc; balance := b;
     minThreshold := minThreshold acc; maxThreshold := maxThreshold acc;
     x := x acc; y := y acc; width := width acc; height := height acc;
     status := status acc; shortfall := shortfall acc;
     capacity := capacity acc; overflow_ := overflow_ acc |}.

Definition getAccountStatus (account : FlowFundingAccount) : AccountStatus :=
  if Qltb (balance account) (minThreshold account) then deficit
  else if Qgeb (balance account) (maxThreshold account) then overflow
  else if Qltb (Qabs (balance account - minThreshold account)) (1 # 100)
       then minimum
  else healthy.

Definition calculateShortfall (account : FlowFundingAccount) : number :=
  Qmax 0 (minThreshold account - balance account).

Definition calculateCapacity (account : FlowFundingAccount) : number :=
  Qmax 0 (maxThreshold account - balance account).

Definition calculateOverflow (account : FlowFundingAccount) : number :=
  Qmax 0 (balance account - maxThreshold account).

Definition updateAccountComputedProperties (account : FlowFundingAccount)
  : FlowFundingAccount :=
  {| id := id account; name := name account; balance := balance account;
     minThreshold := minThreshold account;
     maxThreshold := maxThreshold account;
     x := x account; y := y account;
     width := width account; height := height account;
     status := getAccountStatus account;
     shortfall := calculateShortfall account;
     capacity := calculateCapacity account;
     overflow_ := calculateOverflow account |}.

(** [{ ...network, accounts: accs }] *)
Definition with_accounts (network : FlowFundingNetwork)
  (accs : list FlowFundingAccount) :=
  {| net_name := net_name network; accounts := accs;
     allocations := allocations network;
     totalFunds := totalFunds network;
     totalShortfall := totalShortfall network;
     totalCapacity := totalCapacity network;
     totalOverflow := totalOverflow network |}.

Definition calculateNetworkTotals (network : FlowFundingNetwork)
  : FlowFundingNetwork :=
  {| net_name := net_name network; accounts := accounts network;
     allocations := allocations network;
     totalFunds := sum (map balance (accounts network));
     totalShortfall := sum (map shortfall (accounts network));
     totalCapacity := sum (map capacity (accounts network));
     totalOverflow := sum (map overflow_ (accounts network)) |}.

Definition distributeProportionallyByShortfall
  (network : FlowFundingNetwork) (funding totalShortfall : number) :=
  let updatedAccounts :=
    map (fun acc =>
           let shortfall := Qmax 0 (minThreshold acc - balance acc) in
           if Qeqb shortfall 0 then acc
           else
             let share := (shortfall / totalShortfall) * funding in
             let newBalance := balance acc + share in
             updateAccountComputedProperties (with_balance acc newBalance))
        (accounts network) in
  calculateNetworkTotals (with_accounts network updatedAccounts).

Definition fillAllMinimums (network : FlowFundingNetwork) :=
  let updatedAccounts :=
    map (fun acc =>
           let shortfall := Qmax 0 (minThreshold acc - balance acc) in
           if Qeqb shortfall 0 then acc
           else
             let newBalance := minThreshold acc in
             updateAccountComputedProperties (with_balance acc newBalance))
        (accounts network) in
  calculateNetworkTotals (with_accounts network updatedAccounts).

Definition distributeEvenly (network : FlowFundingNetwork) (funding : number) :=
  let perAccount := funding / inject_Z (Z.of_nat (List.length (accounts network))) in
  let updatedAccounts :=
    map (fun acc =>
           let newBalance := balance acc + perAccount in
           updateAccountComputedProperties (with_balance acc newBalance))
        (accounts network) in
  calculateNetworkTotals (with_accounts network updatedAccounts).

Definition distributeByCapacity (network : FlowFundingNetwork)
  (funding : number) : FlowFundingNetwork :=
  if Qleb funding 0 then network
  else
    let totalCapacity :=
      fold_left (fun sum acc => sum + Qmax 0 (maxThreshold acc - balance acc))
                (accounts network) 0 in
    if Qeqb totalCapacity 0 then distributeEvenly network funding
    else
      let updatedAccounts :=
        map (fun acc =>
               let capacity := Qmax 0 (maxThreshold acc - balance acc) in
               if Qeqb capacity 0 then acc
               else
                 let share := (capacity / totalCapacity) * funding in
                 let newBalance := balance acc + share in
                 updateAccountComputedProperties (with_balance acc newBalance))
            (accounts network) in
      calculateNetworkTotals (with_accounts network updatedAccounts).

Definition initialDistribution (network : FlowFundingNetwork)
  (externalFunding : number) : FlowFundingNetwork :=
  if Qleb externalFunding 0 then network
  else
    let totalShortfall :=
      fold_left (fun sum acc => sum + Qmax 0 (minThreshold acc - balance acc))
                (accounts network) 0 in
    if Qltb externalFunding totalShortfall then
      distributeProportionallyByShortfall network externalFunding totalShortfall
    else
      let afterMinimums := fillAllMinimums network in
      let remainingFunds := externalFunding - totalShortfall in
      distributeByCapacity afterMinimums remainingFunds.

End Tbff.

(** ** Failures

    The engines raise [new Error(`Invalid network:\n${errors.join('\n')}`)].
    A call either returns a value or throws that error; the message is kept
    as the list of validation errors it joins. *)

Inductive Outcome (E A : Type) : Type :=
| Returned (a : A)
| Thrown (e : E).
Arguments Returned {E A} a.
Arguments Thrown {E A} e.

(** [if (cond) { errors.push(e) }], as the list that the push appends. *)
Definition push_if {E} (cond : bool) (e : E) : list E :=
  if cond then [e] else [].

(** The element [i] of an array of objects, updated in place. *)
Fixpoint update_at {A} (i : nat) (f : A -> A) (l : list A) : list A :=
  match l, i with
  | [], _ => []
  | a :: l', O => f a :: l'
  | a :: l', S i' => a :: update_at i' f l'
  end.

(** [new Map(objects.map(o => [o.id, o]))]: the map holds references, here
    the positions of the objects in the array; a repeated id keeps the
    position of its first entry in the map and refers to the last object. *)
Definition ref_map (ids : list string) : JsMap.t nat :=
  JsMap.of_entries (combine ids (seq 0 (List.length ids))).

(** ** The discrete engine ([flow-funding/types.ts], [flow-funding/engine.ts]) *)

Module FlowFunding.

Record Account := {
  id : string;
  name : string;
  balance : number;
  minThreshold : number;
  maxThreshold : number;
  allocations : JsMap.t number
}.

(** [account.balance = b] *)
Definition set_balance (account : Account) (b : number) : Account :=
  {| id := id account; name := name account; balance := b;
     minThreshold := minThreshold account;
     maxThreshold := maxThreshold account;
     allocations := allocations account |}.

(** The messages of [validateNetwork], one constructor per template. *)
Inductive ValidationError :=
| EmptyNetwork
    (* 'Network must contain at least one account' *)
| NegativeMinThreshold (account : string)
    (* `Account ${id}: minimum threshold must be non-negative` *)
| NegativeMaxThreshold (account : string)
    (* `Account ${id}: maximum threshold must be non-negative` *)
| MinExceedsMax (account : string) (min max : number)
    (* `Account ${id}: minimum threshold (${min}) exceeds maximum threshold (${max})` *)
| NegativeBalance (account : string)
    (* `Account ${id}: balance must be non-negative` *)
| AllocationOutOfRange (account target : string)
    (* `Account ${id}: allocation to ${targetId} must be between 0 and 100` *)
| TargetDoesNotExist (account target : string)
    (* `Account ${id}: allocation target ${targetId} does not exist` *)
| SelfAllocation (account : string)
    (* `Account ${id}: cannot allocate to itself` *)
| TotalAllocationsExceed (account : string) (total : number).
    (* `Account ${id}: total allocations (${total}%) exceed 100%` *)

Inductive ValidationWarning :=
| NoOutgoingAllocations (account : string)
    (* `Account ${id}: has no outgoing allocations (overflow will be lost)` *)
| NeverReceivesFunds (account : string).
    (* `Account ${id}: has no incoming allocations and zero balance ...` *)

Record ValidationResult := {
  valid : bool;
  errors : list ValidationError;
  warnings : list ValidationWarning
}.

(** The body of [for (const [targetId, percentage] of account.allocations.entries())]. *)
Definition allocation_errors (accountIds : list string) (account : Account)
  (entry : string * number) : list ValidationError :=
  let '(targetId, percentage) := entry in
  push_if (Qltb percentage 0 || Qgtb percentage 100)
          (AllocationOutOfRange (id account) targetId)
  ++ push_if (negb (existsb (String.eqb targetId) accountIds))
             (TargetDoesNotExist (id account) targetId)
  ++ push_if (String.eqb targetId (id account))
             (SelfAllocation (id account)).

(** [let totalAllocation = 0; for (...) totalAllocation += percentage] *)
Definition totalAllocation (account : Account) : number :=
  sum (JsMap.values (allocations account)).

(** The errors pushed by one turn of [for (const account of accounts)]. *)
Definition account_errors (accountIds : list string) (account : Account)
  : list ValidationError :=
  push_if (Qltb (minThreshold account) 0) (NegativeMinThreshold (id account))
  ++ push_if (Qltb (maxThreshold account) 0) (NegativeMaxThreshold (id account))
  ++ push_if (Qgtb (minThreshold account) (maxThreshold account))
             (MinExceedsMax (id account) (minThreshold account) (maxThreshold account))
  ++ push_if (Qltb (balance account) 0) (NegativeBalance (id account))
  ++ flat_map (allocation_errors accountIds account)
              (JsMap.entries (allocations account))
  ++ push_if (Qgtb (totalAllocation account) (10001 # 100))
             (TotalAllocationsExceed (id account) (totalAllocation account)).

(** The warnings pushed by one turn of the same loop. *)
Definition account_warnings (accounts : list Account) (account : Account)
  : list ValidationWarning :=
  let hasIncoming :=
    existsb (fun a => existsb (String.eqb (id account))
                              (JsMap.keys (allocations a))) accounts in
  push_if ((JsMap.size (allocations account) =? 0)%nat
           && (1 <? List.length accounts)%nat)
          (NoOutgoingAllocations (id account))
  ++ push_if (negb hasIncoming && Qeqb (balance account) 0)
             (NeverReceivesFunds (id account)).

(** The loop over the accounts pushes, turn by turn, the errors and the
    warnings of each account. *)
Definition validateNetwork (accounts : list Account) : ValidationResult :=
  if (List.length accounts =? 0)%nat then
    {| valid := false; errors := [EmptyNetwork]; warnings := [] |}
  else
    let accountIds := map id accounts in
    let errors := flat_map (account_errors accountIds) accounts in
    let warnings := flat_map (account_warnings accounts) accounts in
    {| valid := (List.length errors =? 0)%nat;
       errors := errors;
       warnings := warnings |}.

(** [map.get(key) || 0] *)
Definition get_or_0 (m : JsMap.t number) (k : string) : number :=
  match JsMap.get m k with Some v => v | None => 0 end.

(** The first loop of [distributeInitial]: [totalMinRequired] and
    [minShortfalls]. *)
Definition min_shortfalls (accounts : list Account)
  : number * JsMap.t number :=
  fold_left
    (fun (st : number * JsMap.t number) account =>
       let shortfall := Qmax 0 (minThreshold account - balance account) in
       if Qgtb shortfall 0
       then (fst st + shortfall, JsMap.set (snd st) (id account) shortfall)
       else st)
    accounts (0, JsMap.empty).

(** The loop that computes [totalCapacity] and [capacities]. *)
Definition capacities (accounts : list Account) : number * JsMap.t number :=
  fold_left
    (fun (st : number * JsMap.t number) account =>
       let capacity := Qmax 0 (maxThreshold account - balance account) in
       if Qgtb capacity 0
       then (fst st + capacity, JsMap.set (snd st) (id account) capacity)
       else st)
    accounts (0, JsMap.empty).

(** Phase 1.  The array after the call; the function returns nothing. *)
Definition distributeInitial (accounts : list Account) (funding : number)
  : list Account :=
  let '(totalMinRequired, minShortfalls) := min_shortfalls accounts in
  if Qltb funding totalMinRequired then
    (* Case 1: insufficient funds to meet all minimums *)
    map (fun account =>
           let shortfall := get_or_0 minShortfalls (id account) in
           if Qgtb shortfall 0 then
             let allocation := (shortfall / totalMinRequired) * funding in
             set_balance account (balance account + allocation)
           else account)
        accounts
  else
    (* Step 1: fill all minimums *)
    let accounts1 :=
      map (fun account =>
             let shortfall := get_or_0 minShortfalls (id account) in
             if Qgtb shortfall 0
             then set_balance account (minThreshold account)
             else account)
          accounts in
    (* Step 2: distribute remaining funds based on capacity *)
    let remaining := funding - totalMinRequired in
    if Qleb remaining 0 then accounts1
    else
      let '(totalCapacity, capacities) := capacities accounts1 in
      if Qeqb totalCapacity 0 then accounts1
      else
        map (fun account =>
               let capacity := get_or_0 capacities (id account) in
               if Qgtb capacity 0 then
                 let allocation := (capacity / totalCapacity) * remaining in
                 set_balance account (balance account + allocation)
               else account)
            accounts1.

(** Phase 2.  The array after the call and the returned [overflows]. *)
Fixpoint calculateOverflow_from (accounts : list Account)
  (overflows : JsMap.t number) : list Account * JsMap.t number :=
  match accounts with
  | [] => ([], overflows)
  | account :: rest =>
      let overflow := Qmax 0 (balance account - maxThreshold account) in
      if Qgtb overflow 0 then
        let r := calculateOverflow_from rest
                   (JsMap.set overflows (id account) overflow) in
        (set_balance account (maxThreshold account) :: fst r, snd r)
      else
        let r := calculateOverflow_from rest overflows in
        (account :: fst r, snd r)
  end.

Definition calculateOverflow (accounts : list Account)
  : list Account * JsMap.t number :=
  calculateOverflow_from accounts JsMap.empty.

(** [target.balance += amount] for the object at position [t]. *)
Definition add_balance (t : nat) (amount : number) (accounts : list Account)
  : list Account :=
  update_at t (fun target => set_balance target (balance target + amount))
            accounts.

(** One turn of [for (const [targetId, percentage] of source.allocations.entries())].
    The quotient and the product are the exact ones here;
    [FlowFunding64.transfer] has them rounded as the code computes them. *)
Definition transfer (accountMap : JsMap.t nat) (sourceId : string)
  (overflow totalAllocation : number)
  (st : list Account * JsMap.t number) (entry : string * number)
  : list Account * JsMap.t number :=
  let '(targetId, percentage) := entry in
  match JsMap.get accountMap targetId with
  | None => st
  | Some target =>
      let normalizedPercentage := percentage / totalAllocation in
      let amount := overflow * normalizedPercentage in
      (add_balance target amount (fst st),
       JsMap.set (snd st) (sourceId ++ "->" ++ targetId)%string amount)
  end.

(** One turn of [for (const [sourceId, overflow] of overflows.entries())].
    [accountMap.get(sourceId)] is a position [s] of the array, and [source]
    is the object there. *)
Definition redistribute_from (accountMap : JsMap.t nat)
  (st : list Account * JsMap.t number) (entry : string * number)
  : list Account * JsMap.t number :=
  let '(sourceId, overflow) := entry in
  match JsMap.get accountMap sourceId with
  | None => st
  | Some s =>
      match nth_error (fst st) s with
      | None => st
      | Some source =>
          let totalAllocation := totalAllocation source in
          if Qeqb totalAllocation 0 then st
          else fold_left (transfer accountMap sourceId overflow totalAllocation)
                         (JsMap.entries (allocations source)) st
      end
  end.

(** Phase 3.  The array after the call and the returned [flows]. *)
Definition redistributeOverflow (accounts : list Account)
  (overflows : JsMap.t number) : list Account * JsMap.t number :=
  let accountMap := ref_map (map id accounts) in
  fold_left (redistribute_from accountMap)
            (JsMap.entries overflows) (accounts, JsMap.empty).

Record IterationResult := {
  iteration : nat;
  balances : JsMap.t number;
  overflows : JsMap.t number;
  totalOverflow : number;
  flows : JsMap.t number;
  converged : bool
}.

Record DistributionResult := {
  initialBalances : JsMap.t number;
  finalBalances : JsMap.t number;
  iterations : list IterationResult;
  result_converged : bool;
  totalFunding : number;
  iterationCount : nat
}.

Record DistributionConfig := {
  maxIterations : option nat;
  epsilon : option number;
  verbose : option bool
}.

(** [config = {}] *)
Definition no_config : DistributionConfig :=
  {| maxIterations := None; epsilon := None; verbose := None |}.

(** [{ ...DEFAULT_CONFIG, ...config }] *)
Definition cfg_maxIterations (config : DistributionConfig) : nat :=
  match maxIterations config with Some n => n | None => 100%nat end.
Definition cfg_epsilon (config : DistributionConfig) : number :=
  match epsilon config with Some e => e | None => 1 # 100 end.

(** [new Map(accounts.map(a => [a.id, a.balance]))] *)
Definition balance_map (accounts : list Account) : JsMap.t number :=
  JsMap.of_entries (map (fun a => (id a, balance a)) accounts).

(** [iteration.flows = flows] *)
Definition set_flows (it : IterationResult) (fl : JsMap.t number) :=
  {| iteration := iteration it; balances := balances it;
     overflows := overflows it; totalOverflow := totalOverflow it;
     flows := fl; converged := converged it |}.

(** [for (let i = 0; i < maxIterations; i++)], entered with [left] turns
    to go at index [i]: the array, [iterations] and [converged] at exit. *)
Fixpoint rounds (left i : nat) (epsilon : number) (accounts : list Account)
  (iterations : list IterationResult)
  : list Account * list IterationResult * bool :=
  match left with
  | O => (accounts, iterations, false)
  | S left' =>
      let '(accounts1, overflows) := calculateOverflow accounts in
      let totalOverflow := sum (JsMap.values overflows) in
      let iteration :=
        {| iteration := i;
           balances := balance_map accounts1;
           overflows := overflows;
           totalOverflow := totalOverflow;
           flows := JsMap.empty;
           converged := Qltb totalOverflow epsilon |} in
      if Qltb totalOverflow epsilon then
        (accounts1, iterations ++ [iteration], true)
      else
        let '(accounts2, flows) := redistributeOverflow accounts1 overflows in
        rounds left' (S i) epsilon accounts2
               (iterations ++ [set_flows iteration flows])
  end.

(** The caller's array after the call, and what the call returns or throws. *)
Definition runDistribution (accounts : list Account) (funding : number)
  (config : DistributionConfig)
  : list Account * Outcome (list ValidationError) DistributionResult :=
  let validation := validateNetwork accounts in
  if negb (valid validation) then (accounts, Thrown (errors validation))
  else
    let initialBalances := balance_map accounts in
    let accounts1 := distributeInitial accounts funding in
    let '(accounts2, iterations, converged) :=
      rounds (cfg_maxIterations config) 0 (cfg_epsilon config) accounts1 [] in
    (accounts2,
     Returned {| initialBalances := initialBalances;
                 finalBalances := balance_map accounts2;
                 iterations := iterations;
                 result_converged := converged;
                 totalFunding := funding;
                 iterationCount := List.length iterations |}).

(** [flow-funding/targeted.ts].  The function has its own copy of the
    loop.  Its first statements walk the accounts and add every overflow to
    a running [totalOverflow] (an id that occurs twice is counted twice,
    where [runDistribution] sums the values of the [overflows] map, which
    holds one entry for it).  The statements that redistribute are, one for
    one, those of [redistributeOverflow], with the account map rebuilt every
    round.  There is no call of [validateNetwork] and no [throw] in the
    function. *)

(** [for (const account of accounts)] of a round: the array, [overflows]
    and [totalOverflow] after it. *)
Fixpoint targeted_overflow_from (accounts : list Account)
  (overflows : JsMap.t number) (totalOverflow : number)
  : list Account * JsMap.t number * number :=
  match accounts with
  | [] => ([], overflows, totalOverflow)
  | account :: rest =>
      let overflow := Qmax 0 (balance account - maxThreshold account) in
      if Qgtb overflow 0 then
        let r := targeted_overflow_from rest
                   (JsMap.set overflows (id account) overflow)
                   (totalOverflow + overflow) in
        (set_balance account (maxThreshold account) :: fst (fst r),
         snd (fst r), snd r)
      else
        let r := targeted_overflow_from rest overflows totalOverflow in
        (account :: fst (fst r), snd (fst r), snd r)
  end.

(** [for (let i = 0; i < maxIterations; i++)] of [runTargetedDistribution],
    entered with [left] turns to go at index [i]. *)
Fixpoint targeted_rounds (left i : nat) (epsilon : number)
  (accounts : list Account) (iterations : list IterationResult)
  : list Account * list IterationResult * bool :=
  match left with
  | O => (accounts, iterations, false)
  | S left' =>
      let '(accounts1, overflows, totalOverflow) :=
        targeted_overflow_from accounts JsMap.empty 0 in
      let iteration :=
        {| iteration := i;
           balances := balance_map accounts1;
           overflows := overflows;
           totalOverflow := totalOverflow;
           flows := JsMap.empty;
           converged := Qltb totalOverflow epsilon |} in
      if Qltb totalOverflow epsilon then
        (accounts1, iterations ++ [iteration], true)
      else
        let accountMap := ref_map (map id accounts1) in
        let '(accounts2, flows) :=
          fold_left (redistribute_from accountMap)
                    (JsMap.entries overflows) (accounts1, JsMap.empty) in
        targeted_rounds left' (S i) epsilon accounts2
                        (iterations ++ [set_flows iteration flows])
  end.

(** The caller's array after the call, and the result. *)
Definition runTargetedDistribution (accounts : list Account)
  (config : DistributionConfig) : list Account * DistributionResult :=
  let initialBalances := balance_map accounts in
  let '(accounts2, iterations, converged) :=
    targeted_rounds (cfg_maxIterations config) 0 (cfg_epsilon config)
                    accounts [] in
  (accounts2,
   {| initialBalances := initialBalances;
      finalBalances := balance_map accounts2;
      iterations := iterations;
      result_converged := converged;
      totalFunding := 0;
      iterationCount := List.length iterations |}).

End FlowFunding.

(** ** The discrete engine in binary64
    ([flow-funding/types.ts], [flow-funding/engine.ts])

    The same functions with the numbers the code computes with: a [number]
    is a [float], every operation rounds to the nearest double, and the
    comparisons are the IEEE ones. *)

Module FlowFunding64.
Import Floats.PrimFloat.
#[local] Set Warnings "-inexact-float".
Local Open Scope float_scope.

(** [Math.max(a, b)] *)
Definition Math_max (a b : float) : float :=
  if is_nan a || is_nan b then nan
  else if a <? b then b
  else if b <? a then a
  else if is_zero a && get_sign a then b else a.

(** [xs.reduce((sum, x) => sum + x, 0)] *)
Definition sum (xs : list float) : float :=
  fold_left add xs 0.

(** [map.get(key) || 0]: a missing key, [0] and [NaN] give [0]. *)
Definition get_or_0 (m : JsMap.t float) (k : string) : float :=
  match JsMap.get m k with
  | Some v => if is_nan v || is_zero v then 0 else v
  | None => 0
  end.

Record Account := {
  id : string;
  name : string;
  balance : float;
  minThreshold : float;
  maxThreshold : float;
  allocations : JsMap.t float
}.

(** [account.balance = b] *)
Definition set_balance (account : Account) (b : float) : Account :=
  {| id := id account; name := name account; balance := b;
     minThreshold := minThreshold account;
     maxThreshold := maxThreshold account;
     allocations := allocations account |}.

Inductive ValidationError :=
| EmptyNetwork
| NegativeMinThreshold (account : string)
| NegativeMaxThreshold (account : string)
| MinExceedsMax (account : string) (min max : float)
| NegativeBalance (account : string)
| AllocationOutOfRange (account target : string)
| TargetDoesNotExist (account target : string)
| SelfAllocation (account : string)
| TotalAllocationsExceed (account : string) (total : float).

Inductive ValidationWarning :=
| NoOutgoingAllocations (account : string)
| NeverReceivesFunds (account : string).

Record ValidationResult := {
  valid : bool;
  errors : list ValidationError;
  warnings : list ValidationWarning
}.

Definition allocation_errors (accountIds : list string) (account : Account)
  (entry : string * float) : list ValidationError :=
  let '(targetId, percentage) := entry in
  push_if ((percentage <? 0) || (100 <? percentage))
          (AllocationOutOfRange (id account) targetId)
  ++ push_if (negb (existsb (String.eqb targetId) accountIds))
             (TargetDoesNotExist (id account) targetId)
  ++ push_if (String.eqb targetId (id account))
             (SelfAllocation (id account)).

Definition totalAllocation (account : Account) : float :=
  sum (JsMap.values (allocations account)).

Definition account_errors (accountIds : list string) (account : Account)
  : list ValidationError :=
  push_if (minThreshold account <? 0) (NegativeMinThreshold (id account))
  ++ push_if (maxThreshold account <? 0) (NegativeMaxThreshold (id account))
  ++ push_if (maxThreshold account <? minThreshold account)
             (MinExceedsMax (id account) (minThreshold account) (maxThreshold account))
  ++ push_if (balance account <? 0) (NegativeBalance (id account))
  ++ flat_map (allocation_errors accountIds account)
              (JsMap.entries (allocations account))
  ++ push_if (100.01 <? totalAllocation account)
             (TotalAllocationsExceed (id account) (totalAllocation account)).

Definition account_warnings (accounts : list Account) (account : Account)
  : list ValidationWarning :=
  let hasIncoming :=
    existsb (fun a => existsb (String.eqb (id account))
                              (JsMap.keys (allocations a))) accounts in
  push_if ((JsMap.size (allocations account) =? 0)%nat
           && (1 <? List.length accounts)%nat)
          (NoOutgoingAllocations (id account))
  ++ push_if (negb hasIncoming && (balance account =? 0))
             (NeverReceivesFunds (id account)).

Definition validateNetwork (accounts : list Account) : ValidationResult :=
  if (List.length accounts =? 0)%nat then
    {| valid := false; errors := [EmptyNetwork]; warnings := [] |}
  else
    let accountIds := map id accounts in
    let errors := flat_map (account_errors accountIds) accounts in
    let warnings := flat_map (account_warnings accounts) accounts in
    {| valid := (List.length errors =? 0)%nat;
       errors := errors;
       warnings := warnings |}.

(** The first loop of [distributeInitial]. *)
Definition min_shortfalls (accounts : list Account)
  : float * JsMap.t float :=
  fold_left
    (fun (st : float * JsMap.t float) account =>
       let shortfall := Math_max 0 (minThreshold account - balance account) in
       if 0 <? shortfall
       then (fst st + shortfall, JsMap.set (snd st) (id account) shortfall)
       else st)
    accounts (0, JsMap.empty).

Definition capacities (accounts : list Account) : float * JsMap.t float :=
  fold_left
    (fun (st : float * JsMap.t float) account =>
       let capacity := Math_max 0 (maxThreshold account - balance account) in
       if 0 <? capacity
       then (fst st + capacity, JsMap.set (snd st) (id account) capacity)
       else st)
    accounts (0, JsMap.empty).

Definition distributeInitial (accounts : list Account) (funding : float)
  : list Account :=
  let '(totalMinRequired, minShortfalls) := min_shortfalls accounts in
  if funding <? totalMinRequired then
    map (fun account =>
           let shortfall := get_or_0 minShortfalls (id account) in
           if 0 <? shortfall then
             let allocation := (shortfall / totalMinRequired) * funding in
             set_balance account (balance account + allocation)
           else account)
        accounts
  else
    let accounts1 :=
      map (fun account =>
             let shortfall := get_or_0 minShortfalls (id account) in
             if 0 <? shortfall
             then set_balance account (minThreshold account)
             else account)
          accounts in
    let remaining := funding - totalMinRequired in
    if remaining <=? 0 then accounts1
    else
      let '(totalCapacity, capacities) := capacities accounts1 in
      if totalCapacity =? 0 then accounts1
      else
        map (fun account =>
               let capacity := get_or_0 capacities (id account) in
               if 0 <? capacity then
                 let allocation := (capacity / totalCapacity) * remaining in
                 set_balance account (balance account + allocation)
               else account)
            accounts1.

Fixpoint calculateOverflow_from (accounts : list Account)
  (overflows : JsMap.t float) : list Account * JsMap.t float :=
  match accounts with
  | [] => ([], overflows)
  | account :: rest =>
      let overflow := Math_max 0 (balance account - maxThreshold account) in
      if 0 <? overflow then
        let r := calculateOverflow_from rest
                   (JsMap.set overflows (id account) overflow) in
        (set_balance account (maxThreshold account) :: fst r, snd r)
      else
        let r := calculateOverflow_from rest overflows in
        (account :: fst r, snd r)
  end.

Definition calculateOverflow (accounts : list Account)
  : list Account * JsMap.t float :=
  calculateOverflow_from accounts JsMap.empty.

Definition add_balance (t : nat) (amount : float) (accounts : list Account)
  : list Account :=
  update_at t (fun target => set_balance target (balance target + amount))
            accounts.

Definition transfer (accountMap : JsMap.t nat) (sourceId : string)
  (overflow totalAllocation : float)
  (st : list Account * JsMap.t float) (entry : string * float)
  : list Account * JsMap.t float :=
  let '(targetId, percentage) := entry in
  match JsMap.get accountMap targetId with
  | None => st
  | Some target =>
      let normalizedPercentage := percentage / totalAllocation in
      let amount := overflow * normalizedPercentage in
      (add_balance target amount (fst st),
       JsMap.set (snd st) (sourceId ++ "->" ++ targetId)%string amount)
  end.

Definition redistribute_from (accountMap : JsMap.t nat)
  (st : list Account * JsMap.t float) (entry : string * float)
  : list Account * JsMap.t float :=
  let '(sourceId, overflow) := entry in
  match JsMap.get accountMap sourceId with
  | None => st
  | Some s =>
      match nth_error (fst st) s with
      | None => st
      | Some source =>
          let totalAllocation := totalAllocation source in
          if totalAllocation =? 0 then st
          else fold_left (transfer accountMap sourceId overflow totalAllocation)
                         (JsMap.entries (allocations source)) st
      end
  end.

Definition redistributeOverflow (accounts : list Account)
  (overflows : JsMap.t float) : list Account * JsMap.t float :=
  let accountMap := ref_map (map id accounts) in
  fold_left (redistribute_from accountMap)
            (JsMap.entries overflows) (accounts, JsMap.empty).

Record IterationResult := {
  iteration : nat;
  balances : JsMap.t float;
  overflows : JsMap.t float;
  totalOverflow : float;
  flows : JsMap.t float;
  converged : bool
}.

Record DistributionResult := {
  initialBalances : JsMap.t float;
  finalBalances : JsMap.t float;
  iterations : list IterationResult;
  result_converged : bool;
  totalFunding : float;
  iterationCount : nat
}.

Record DistributionConfig := {
  maxIterations : option nat;
  epsilon : option float;
  verbose : option bool
}.

Definition no_config : DistributionConfig :=
  {| maxIterations := None; epsilon := None; verbose := None |}.

Definition cfg_maxIterations (config : DistributionConfig) : nat :=
  match maxIterations config with Some n => n | None => 100%nat end.
Definition cfg_epsilon (config : DistributionConfig) : float :=
  match epsilon config with Some e => e | None => 0.01 end.

Definition balance_map (accounts : list Account) : JsMap.t float :=
  JsMap.of_entries (map (fun a => (id a, balance a)) accounts).

Definition set_flows (it : IterationResult) (fl : JsMap.t float) :=
  {| iteration := iteration it; balances := balances it;
     overflows := overflows it; totalOverflow := totalOverflow it;
     flows := fl; converged := converged it |}.

Fixpoint rounds (left i : nat) (epsilon : float) (accounts : list Account)
  (iterations : list IterationResult)
  : list Account * list IterationResult * bool :=
  match left with
  | O => (accounts, iterations, false)
  | S left' =>
      let '(accounts1, overflows) := calculateOverflow accounts in
      let totalOverflow := sum (JsMap.values overflows) in
      let iteration :=
        {| iteration := i;
           balances := balance_map accounts1;
           overflows := overflows;
           totalOverflow := totalOverflow;
           flows := JsMap.empty;
           converged := totalOverflow <? epsilon |} in
      if totalOverflow <? epsilon then
        (accounts1, iterations ++ [iteration], true)
      else
        let '(accounts2, flows) := redistributeOverflow accounts1 overflows in
        rounds left' (S i) epsilon accounts2
               (iterations ++ [set_flows iteration flows])
  end.

Definition runDistribution (accounts : list Account) (funding : float)
  (config : DistributionConfig)
  : list Account * Outcome (list ValidationError) DistributionResult :=
  let validation := validateNetwork accounts in
  if negb (valid validation) then (accounts, Thrown (errors validation))
  else
    let initialBalances := balance_map accounts in
    let accounts1 := distributeInitial accounts funding in
    let '(accounts2, iterations, converged) :=
      rounds (cfg_maxIterations config) 0 (cfg_epsilon config) accounts1 [] in
    (accounts2,
     Returned {| initialBalances := initialBalances;
                 finalBalances := balance_map accounts2;
                 iterations := iterations;
                 result_converged := converged;
                 totalFunding := funding;
                 iterationCount := List.length iterations |}).

End FlowFunding64.

(** ** The continuous engine ([flow-v2/types.ts], [flow-v2/engine-v2.ts]) *)

Module FlowV2.

Record FlowNode := {
  id : string;
  name : string;
  externalInflow : number;
  minThreshold : number;
  maxThreshold : number;
  allocations : JsMap.t number;
  totalInflow : option number;     (* totalInflow?: number *)
  totalOutflow : option number;    (* totalOutflow?: number *)
  balance : option number          (* balance?: number *)
}.

Inductive FlowZone := deficit | building | capacity.

Record FlowEdge := {
  source : string;
  target : string;
  flowRate : number;
  percentage : number
}.

Record OverflowNode := {
  overflow_id : string;            (* always 'overflow' *)
  overflow_totalInflow : number
}.

Record FlowNetwork := {
  nodes : JsMap.t FlowNode;
  edges : list FlowEdge;
  overflowNode : option OverflowNode;
  totalExternalInflow : number;
  totalNetworkCapacity : number;
  totalNetworkNeeds : number;
  converged : bool;
  iterations : nat
}.

Record FlowConfig := {
  maxIterations : option nat;
  epsilon : option number;
  verbose : option bool
}.

Definition no_config : FlowConfig :=
  {| maxIterations := None; epsilon := None; verbose := None |}.

Definition cfg_maxIterations (config : FlowConfig) : nat :=
  match maxIterations config with Some n => n | None => 1000%nat end.
Definition cfg_epsilon (config : FlowConfig) : number :=
  match epsilon config with Some e => e | None => 1 # 1000 end.

(** [x || 0] on an optional number *)
Definition or0 (x : option number) : number :=
  match x with Some v => v | None => 0 end.

Definition set_totalInflow (node : FlowNode) (v : number) : FlowNode :=
  {| id := id node; name := name node;
     externalInflow := externalInflow node;
     minThreshold := minThreshold node; maxThreshold := maxThreshold node;
     allocations := allocations node;
     totalInflow := Some v; totalOutflow := totalOutflow node;
     balance := balance node |}.

Definition set_totalOutflow (node : FlowNode) (v : number) : FlowNode :=
  {| id := id node; name := name node;
     externalInflow := externalInflow node;
     minThreshold := minThreshold node; maxThreshold := maxThreshold node;
     allocations := allocations node;
     totalInflow := totalInflow node; totalOutflow := Some v;
     balance := balance node |}.

(** [node.totalInflow = node.externalInflow; node.totalOutflow = 0;
     node.balance = 0] *)
Definition initialize (node : FlowNode) : FlowNode :=
  {| id := id node; name := name node;
     externalInflow := externalInflow node;
     minThreshold := minThreshold node; maxThreshold := maxThreshold node;
     allocations := allocations node;
     totalInflow := Some (externalInflow node); totalOutflow := Some 0;
     balance := Some 0 |}.

Definition getFlowZone (node : FlowNode) : FlowZone :=
  let totalInflow := or0 (totalInflow node) in
  let capacityThreshold := (15 # 10) * maxThreshold node in
  if Qltb totalInflow (minThreshold node) then deficit
  else if Qltb totalInflow capacityThreshold then building
  else capacity.

Definition calculateOutflow (node : FlowNode) : number :=
  let totalInflow := or0 (totalInflow node) in
  let minThreshold := minThreshold node in
  let maxThreshold := maxThreshold node in
  let capacityThreshold := (15 # 10) * maxThreshold in
  if Qltb totalInflow minThreshold then 0
  else if Qgeb totalInflow capacityThreshold then totalInflow - maxThreshold
  else
    let buildingRange := capacityThreshold - minThreshold in
    if Qeqb buildingRange 0 then totalInflow - maxThreshold
    else
      let excess := totalInflow - minThreshold in
      let targetOutflow := (5 # 10) * maxThreshold in
      (excess / buildingRange) * targetOutflow.

Inductive ValidationError :=
| EmptyNetwork
    (* 'Network must contain at least one node' *)
| NegativeMinThreshold (node : string)
    (* `Node ${id}: min threshold must be non-negative` *)
| NegativeMaxThreshold (node : string)
    (* `Node ${id}: max threshold must be non-negative` *)
| MinExceedsMax (node : string) (min max : number)
    (* `Node ${id}: min threshold (${min}) exceeds max threshold (${max})` *)
| NegativeExternalInflow (node : string)
    (* `Node ${id}: external inflow must be non-negative` *)
| AllocationOutOfRange (node target : string)
    (* `Node ${id}: allocation to ${targetId} must be 0-100` *)
| TargetDoesNotExist (node target : string)
    (* `Node ${id}: allocation target ${targetId} does not exist` *)
| SelfAllocation (node : string)
    (* `Node ${id}: cannot allocate to itself` *)
| TotalAllocationsExceed (node : string) (total : number).
    (* `Node ${id}: total allocations (${total}%) exceed 100%` *)

Inductive ValidationWarning :=
| NoOutgoingAllocations (node : string).
    (* `Node ${id}: no outgoing allocations (overflow will be lost)` *)

Record ValidationResult := {
  valid : bool;
  errors : list ValidationError;
  warnings : list ValidationWarning
}.

Definition allocation_errors (nodeIds : list string) (node : FlowNode)
  (entry : string * number) : list ValidationError :=
  let '(targetId, percentage) := entry in
  push_if (Qltb percentage 0 || Qgtb percentage 100)
          (AllocationOutOfRange (id node) targetId)
  ++ push_if (negb (existsb (String.eqb targetId) nodeIds))
             (TargetDoesNotExist (id node) targetId)
  ++ push_if (String.eqb targetId (id node))
             (SelfAllocation (id node)).

(** [let totalAllocation = 0; for (...) totalAllocation += percentage] *)
Definition totalAllocation (node : FlowNode) : number :=
  sum (JsMap.values (allocations node)).

Definition node_errors (nodeIds : list string) (node : FlowNode)
  : list ValidationError :=
  push_if (Qltb (minThreshold node) 0) (NegativeMinThreshold (id node))
  ++ push_if (Qltb (maxThreshold node) 0) (NegativeMaxThreshold (id node))
  ++ push_if (Qgtb (minThreshold node) (maxThreshold node))
             (MinExceedsMax (id node) (minThreshold node) (maxThreshold node))
  ++ push_if (Qltb (externalInflow node) 0) (NegativeExternalInflow (id node))
  ++ flat_map (allocation_errors nodeIds node)
              (JsMap.entries (allocations node))
  ++ push_if (Qgtb (totalAllocation node) (10001 # 100))
             (TotalAllocationsExceed (id node) (totalAllocation node)).

Definition node_warnings (nodes : list FlowNode) (node : FlowNode)
  : list ValidationWarning :=
  push_if ((JsMap.size (allocations node) =? 0)%nat
           && (1 <? List.length nodes)%nat)
          (NoOutgoingAllocations (id node)).

(** The loop over the nodes pushes, turn by turn, the errors and the
    warnings of each node. *)
Definition validateNetwork (nodes : list FlowNode) : ValidationResult :=
  if (List.length nodes =? 0)%nat then
    {| valid := false; errors := [EmptyNetwork]; warnings := [] |}
  else
    let nodeIds := map id nodes in
    let errors := flat_map (node_errors nodeIds) nodes in
    let warnings := flat_map (node_warnings nodes) nodes in
    {| valid := (List.length errors =? 0)%nat;
       errors := errors;
       warnings := warnings |}.

(** One turn of [for (const [targetId, percentage] of source.allocations.entries())]
    in the loop that adds the allocated flows. *)
Definition add_flow (nodeMap : JsMap.t nat) (outflow totalAllocation : number)
  (newInflows : JsMap.t number) (entry : string * number) : JsMap.t number :=
  let '(targetId, percentage) := entry in
  match JsMap.get nodeMap targetId with
  | None => newInflows
  | Some _ =>
      let normalizedPercentage := percentage / totalAllocation in
      let flowAmount := outflow * normalizedPercentage in
      let currentInflow := or0 (JsMap.get newInflows targetId) in
      JsMap.set newInflows targetId (currentInflow + flowAmount)
  end.

(** One turn of [for (const source of nodes)] in that loop. *)
Definition add_flows_of (nodeMap : JsMap.t nat) (newInflows : JsMap.t number)
  (source : FlowNode) : JsMap.t number :=
  let outflow := or0 (totalOutflow source) in
  if Qgtb outflow 0 then
    let totalAllocation := totalAllocation source in
    if Qgtb totalAllocation 0 then
      fold_left (add_flow nodeMap outflow totalAllocation)
                (JsMap.entries (allocations source)) newInflows
    else newInflows
  else newInflows.

(** [newInflows] at the end of the two loops that fill it. *)
Definition new_inflows (nodeMap : JsMap.t nat) (nodes : list FlowNode)
  : JsMap.t number :=
  let start :=
    fold_left (fun m node => JsMap.set m (id node) (externalInflow node))
              nodes JsMap.empty in
  fold_left (add_flows_of nodeMap) nodes start.

(** The convergence loop: [maxChange] and the nodes with their new
    [totalInflow]. *)
Fixpoint apply_inflows (newInflows : JsMap.t number) (nodes : list FlowNode)
  (maxChange : number) : list FlowNode * number :=
  match nodes with
  | [] => ([], maxChange)
  | node :: rest =>
      let newInflow := or0 (JsMap.get newInflows (id node)) in
      let oldInflow := or0 (totalInflow node) in
      let change := Qabs (newInflow - oldInflow) in
      let r := apply_inflows newInflows rest (Qmax maxChange change) in
      (set_totalInflow node newInflow :: fst r, snd r)
  end.

(** [for (let i = 0; i < maxIterations; i++)] with [left] turns to go:
    the nodes, [converged] and [iterations] at exit. *)
Fixpoint iterate (left : nat) (epsilon : number) (nodeMap : JsMap.t nat)
  (nodes : list FlowNode) (iterations : nat) : list FlowNode * bool * nat :=
  match left with
  | O => (nodes, false, iterations)
  | S left' =>
      let iterations := S iterations in
      let nodes1 :=
        map (fun node => set_totalOutflow node (calculateOutflow node)) nodes in
      let newInflows := new_inflows nodeMap nodes1 in
      let '(nodes2, maxChange) := apply_inflows newInflows nodes1 0 in
      if Qltb maxChange epsilon then (nodes2, true, iterations)
      else iterate left' epsilon nodeMap nodes2 iterations
  end.

(** The edges pushed for one source. *)
Definition edges_of (source : FlowNode) : list FlowEdge :=
  let outflow := or0 (totalOutflow source) in
  if Qgtb outflow 0 then
    let totalAllocation := totalAllocation source in
    if Qgtb totalAllocation 0 then
      flat_map
        (fun entry : string * number =>
           let '(targetId, percentage) := entry in
           let normalizedPercentage := percentage / totalAllocation in
           let flowRate := outflow * normalizedPercentage in
           if Qgtb flowRate 0 then
             [ {| source := id source; target := targetId;
                  flowRate := flowRate; percentage := percentage |} ]
           else [])
        (JsMap.entries (allocations source))
    else []
  else [].

(** What one node adds to [totalUnallocatedOverflow]. *)
Definition unallocated (node : FlowNode) : number :=
  let outflow := or0 (totalOutflow node) in
  let totalAllocation := totalAllocation node in
  let unallocatedPercentage := Qmax 0 (100 - totalAllocation) in
  (outflow * unallocatedPercentage) / 100.

Definition totalUnallocatedOverflow (nodes : list FlowNode) : number :=
  fold_left (fun total node => total + unallocated node) nodes 0.

(** The caller's array after the call, and what the call returns or throws.
    The returned [nodes] map refers to the objects of the array, so it
    shows them as they are at the end. *)
Definition calculateSteadyState (nodes : list FlowNode) (config : FlowConfig)
  : list FlowNode * Outcome (list ValidationError) FlowNetwork :=
  let validation := validateNetwork nodes in
  if negb (valid validation) then (nodes, Thrown (errors validation))
  else
    let nodeMap := ref_map (map id nodes) in
    let nodes0 := map initialize nodes in
    let '(nodes1, converged, iterations) :=
      iterate (cfg_maxIterations config) (cfg_epsilon config) nodeMap nodes0 0 in
    let edges := flat_map edges_of nodes1 in
    let totalExternalInflow :=
      fold_left (fun sum n => sum + externalInflow n) nodes1 0 in
    let totalNetworkCapacity :=
      fold_left (fun sum n => sum + maxThreshold n) nodes1 0 in
    let totalNetworkNeeds :=
      fold_left (fun sum n => sum + minThreshold n) nodes1 0 in
    let totalUnallocatedOverflow := totalUnallocatedOverflow nodes1 in
    let overflowNode :=
      if Qgtb totalUnallocatedOverflow (cfg_epsilon config)
      then Some {| overflow_id := "overflow";
                   overflow_totalInflow := totalUnallocatedOverflow |}
      else None in
    (nodes1,
     Returned {| nodes := JsMap.of_entries (map (fun n => (id n, n)) nodes1);
                 edges := edges;
                 overflowNode := overflowNode;
                 totalExternalInflow := totalExternalInflow;
                 totalNetworkCapacity := totalNetworkCapacity;
                 totalNetworkNeeds := totalNetworkNeeds;
                 converged := converged;
                 iterations := iterations |}).

End FlowV2.

(** ** tbff: the sample networks ([tbff/sample-networks.ts]) *)

Module TbffSamples.
Import Tbff.

(** The argument of [createAccount]; [width] and [height] are optional. *)
Record AccountData := {
  data_id : string;
  data_name : string;
  data_balance : number;
  data_minThreshold : number;
  data_maxThreshold : number;
  data_x : number;
  data_y : number;
  data_width : option number;
  data_height : option number
}.

(** [v || d] on an optional number: [undefined] and [0] give [d]. *)
Definition or_default (v : option number) (d : number) : number :=
  match v with
  | Some w => if Qeqb w 0 then d else w
  | None => d
  end.

Definition createAccount (data : AccountData) : FlowFundingAccount :=
  updateAccountComputedProperties
    {| id := data_id data; name := data_name data;
       balance := data_balance data;
       minThreshold := data_minThreshold data;
       maxThreshold := data_maxThreshold data;
       x := data_x data; y := data_y data;
       width := or_default (data_width data) 160;
       height := or_default (data_height data) 140;
       status := deficit; shortfall := 0; capacity := 0; overflow_ := 0 |}.

(** The call [createAccount({ id, name, balance, minThreshold, maxThreshold,
    x, y })] of the sample networks. *)
Definition account (id name : string) (balance minThreshold maxThreshold x y : number)
  : FlowFundingAccount :=
  createAccount
    {| data_id := id; data_name := name; data_balance := balance;
       data_minThreshold := minThreshold; data_maxThreshold := maxThreshold;
       data_x := x; data_y := y; data_width := None; data_height := None |}.

Definition statesDemo : FlowFundingNetwork :=
  calculateNetworkTotals
    {| net_name := "Account States Demo";
       accounts :=
         [ account "deficit" "Deficit" 30 100 200 100 100;
           account "minimum" "Minimum" 100 100 200 350 100;
           account "healthy" "Healthy" 150 100 200 600 100;
           account "overflow" "Overflow" 250 100 200 850 100 ];
       allocations :=
         [ {| alloc_id := "a1"; sourceAccountId := "overflow";
              targetAccountId := "deficit"; percentage := 1 |} ];
       totalFunds := 0; totalShortfall := 0;
       totalCapacity := 0; totalOverflow := 0 |}.

End TbffSamples.

(** ** tbff: normalized allocations, the distribution summary and the
    handlers of the page that call them
    ([tbff/utils.ts], [tbff/algorithms.ts], [app/tbff/page.tsx]) *)

Module TbffPage.
Import Tbff.

(** [{ ...a, percentage: p }] *)
Definition with_percentage (a : Allocation) (p : number) : Allocation :=
  {| alloc_id := alloc_id a; sourceAccountId := sourceAccountId a;
     targetAccountId := targetAccountId a; percentage := p |}.

(** On an empty array [equalShare] is [1 / 0], which no allocation
    receives. *)
Definition normalizeAllocations (allocations : list Allocation)
  : list Allocation :=
  if (List.length allocations =? 1)%nat then
    map (fun a => with_percentage a 1) allocations
  else
    let total := fold_left (fun sum a => sum + percentage a) allocations 0 in
    if Qeqb total 0 then
      let equalShare := 1 / inject_Z (Z.of_nat (List.length allocations)) in
      map (fun a => with_percentage a equalShare) allocations
    else if Qltb (Qabs (total - 1)) (1 # 10000) then allocations
    else map (fun a => with_percentage a (percentage a / total)) allocations.

(** One entry of [changes]. *)
Record Change := {
  accountId : string;
  change_name : string;
  before : number;
  after : number;
  delta : number
}.

Record DistributionSummary := {
  totalDistributed : number;
  accountsChanged : nat;
  changes : list Change
}.

(** [before.balance] on a [before] that [find] did not find. *)
Inductive TypeError :=
| BalanceOfUndefined.
    (* Cannot read properties of undefined (reading 'balance') *)

(** [afterNetwork.accounts.map((after) => ...)]: the callback throws on the
    first account whose id [beforeNetwork] does not have. *)
Fixpoint changes_of (beforeAccounts afterAccounts : list FlowFundingAccount)
  : Outcome TypeError (list Change) :=
  match afterAccounts with
  | [] => Returned []
  | after :: rest =>
      match find (fun a => String.eqb (id a) (id after)) beforeAccounts with
      | None => Thrown BalanceOfUndefined
      | Some before =>
          let delta := balance after - balance before in
          match changes_of beforeAccounts rest with
          | Thrown e => Thrown e
          | Returned cs =>
              Returned ({| accountId := id after; change_name := name after;
                           before := balance before; after := balance after;
                           delta := delta |} :: cs)
          end
      end
  end.

Definition getDistributionSummary (beforeNetwork afterNetwork : FlowFundingNetwork)
  : Outcome TypeError DistributionSummary :=
  match changes_of (accounts beforeNetwork) (accounts afterNetwork) with
  | Thrown e => Thrown e
  | Returned all =>
      let changes := filter (fun c => negb (Qeqb (delta c) 0)) all in
      Returned {| totalDistributed := sum (map delta changes);
                  accountsChanged := List.length changes;
                  changes := changes |}
  end.

(** The state of [TBFFPage] that the handlers below set; the other state
    variables (tool, drag, selected account) are not touched by them. *)
Record PageState := {
  network : FlowFundingNetwork;
  selectedAllocationId : option string;
  lastDistribution : option DistributionSummary
}.

(** [{ ...network, allocations: allocs }] *)
Definition with_allocations (network : FlowFundingNetwork)
  (allocs : list Allocation) :=
  {| net_name := net_name network; accounts := accounts network;
     allocations := allocs;
     totalFunds := totalFunds network;
     totalShortfall := totalShortfall network;
     totalCapacity := totalCapacity network;
     totalOverflow := totalOverflow network |}.

(** [updatedAllocations.map(a => normalized.find(n => n.id === a.id) || a)] *)
Definition replace_normalized (normalized updatedAllocations : list Allocation)
  : list Allocation :=
  map (fun a =>
         match find (fun n => String.eqb (alloc_id n) (alloc_id a)) normalized with
         | Some normalizedVersion => normalizedVersion
         | None => a
         end)
      updatedAllocations.

(** The allocations of a source normalized within the whole list. *)
Definition renormalize (sourceId : string) (updatedAllocations : list Allocation)
  : list Allocation :=
  let sourceAllocations :=
    filter (fun a => String.eqb (sourceAccountId a) sourceId)
           updatedAllocations in
  let normalized := normalizeAllocations sourceAllocations in
  replace_normalized normalized updatedAllocations.


Definition updateAllocationPercentage (st : PageState) (allocationId : string)
  (newPercentage : number) : PageState :=
  match find (fun a => String.eqb (alloc_id a) allocationId)
             (allocations (network st)) with
  | None => st
  | Some allocation =>
      let updatedAllocations :=
        map (fun a =>
               if String.eqb (alloc_id a) allocationId
               then with_percentage a (Qmax 0 (Qmin 1 newPercentage))
               else a)
            (allocations (network st)) in
      let finalAllocations :=
        renormalize (sourceAccountId allocation) updatedAllocations in
      let updatedNetwork :=
        calculateNetworkTotals (with_allocations (network st) finalAllocations) in
      {| network := updatedNetwork;
         selectedAllocationId := selectedAllocationId st;
         lastDistribution := lastDistribution st |}
  end.

Definition deleteAllocation (st : PageState) (allocationId : string)
  : PageState :=
  match find (fun a => String.eqb (alloc_id a) allocationId)
             (allocations (network st)) with
  | None => st
  | Some allocation =>
      let updatedAllocations :=
        filter (fun a => negb (String.eqb (alloc_id a) allocationId))
               (allocations (network st)) in
      let finalAllocations :=
        renormalize (sourceAccountId allocation) updatedAllocations in
      let updatedNetwork :=
        calculateNetworkTotals (with_allocations (network st) finalAllocations) in
      {| network := updatedNetwork;
         selectedAllocationId := None;
         lastDistribution := lastDistribution st |}
  end.

(** [handleAddFunding] with the [fundingAmount] of the input field: the
    state after the click, or the [TypeError] that escapes the handler. *)
Definition handleAddFunding (st : PageState) (fundingAmount : number)
  : Outcome TypeError PageState :=
  if Qleb fundingAmount 0 then Returned st
  else
    let beforeNetwork := network st in
    let afterNetwork := initialDistribution (network st) fundingAmount in
    match getDistributionSummary beforeNetwork afterNetwork with
    | Thrown e => Thrown e
    | Returned summary =>
        Returned {| network := afterNetwork;
                    selectedAllocationId := selectedAllocationId st;
                    lastDistribution := Some summary |}
    end.

End TbffPage.

(** * Vocabulary of the properties

    The predicates and sample inputs the theorems below are stated with. *)

(** ** Numbers that are equal as rationals *)

Module SameNumbers.




End SameNumbers.

(** ** tbff *)

Module TbffSpec.
Import Tbff.

(** The classification in the order the specification gives it. *)
Inductive classified (a : FlowFundingAccount) : AccountStatus -> Prop :=
| classified_deficit :
    balance a < minThreshold a ->
    classified a deficit
| classified_overflow :
    minThreshold a <= balance a ->
    maxThreshold a <= balance a ->
    classified a overflow
| classified_minimum :
    minThreshold a <= balance a ->
    balance a < maxThreshold a ->
    Qabs (balance a - minThreshold a) < 1 # 100 ->
    classified a minimum
| classified_healthy :
    minThreshold a <= balance a ->
    balance a < maxThreshold a ->
    1 # 100 <= Qabs (balance a - minThreshold a) ->
    classified a healthy.

Definition tbff_full_network : Tbff.FlowFundingNetwork :=
  {| Tbff.net_name := "full";
     Tbff.accounts :=
       [ {| Tbff.id := "a"; Tbff.name := "A"; Tbff.balance := 100;
            Tbff.minThreshold := 0; Tbff.maxThreshold := 100;
            Tbff.x := 0; Tbff.y := 0; Tbff.width := 0; Tbff.height := 0;
            Tbff.status := Tbff.overflow; Tbff.shortfall := 0;
            Tbff.capacity := 0; Tbff.overflow_ := 0 |} ];
     Tbff.allocations := [];
     Tbff.totalFunds := 100; Tbff.totalShortfall := 0;
     Tbff.totalCapacity := 0; Tbff.totalOverflow := 0 |}.

End TbffSpec.

(** ** The discrete engine *)

Module DiscreteSpec.
Import FlowFunding SameNumbers.

(** *** Validation *)

Definition self_allocation (a : Account) : Prop :=
  exists p, In (id a, p) (allocations a).

Definition missing_target (ids : list string) (a : Account) : Prop :=
  exists t p, In (t, p) (allocations a) /\ ~ In t ids.

Definition weight_out_of_range (a : Account) : Prop :=
  exists t p, In (t, p) (allocations a) /\ (p < 0 \/ 100 < p).

(** The fatal conditions the specification lists. *)
Definition listed_fatal (ids : list string) (a : Account) : Prop :=
  minThreshold a < 0
  \/ maxThreshold a < 0
  \/ maxThreshold a < minThreshold a
  \/ balance a < 0
  \/ self_allocation a
  \/ missing_target ids a
  \/ 100 + (1 # 100) < totalAllocation a.

(** C4 as the specification states it, for the discrete validator: a
    network is invalid exactly when some account meets a listed condition. *)
Definition invalid_exactly_when_listed : Prop :=
  forall accounts : list FlowFunding.Account,
    FlowFunding.valid (FlowFunding.validateNetwork accounts) = false
    <-> exists a, In a accounts
                  /\ listed_fatal (map FlowFunding.id accounts) a.

(** *** Rounds *)

(** What the first statement of a round does to one account. *)
Definition clamp (account : Account) : Account :=
  if Qgtb (Qmax 0 (balance account - maxThreshold account)) 0
  then set_balance account (maxThreshold account)
  else account.

(** The funds the accounts hold. *)
Definition total_balance (accounts : list Account) : number :=
  sum (map balance accounts).

(** The overflow the accounts hold: the sum of [max(0, balance - max)]. *)
Definition excess (accounts : list Account) : number :=
  sum (map (fun a => Qmax 0 (balance a - maxThreshold a)) accounts).



(** [a'] is [a] with some balance. *)
Definition same_account (a a' : Account) : Prop :=
  id a' = id a /\ minThreshold a' = minThreshold a
  /\ maxThreshold a' = maxThreshold a /\ allocations a' = allocations a.


Definition values_nonneg (m : JsMap.t number) : Prop :=
  Forall (fun v => 0 <= v) (JsMap.values m).

(** *** Conservation *)

(** Every allocation goes to an account of the network. *)
Definition targets_exist (accounts : list Account) : Prop :=
  forall a e, In a accounts -> In e (allocations a) ->
              In (fst e) (map id accounts).

(** The accounts named [k] allocate something. *)
Definition allocates (accounts : list Account) (k : string) : Prop :=
  forall a, In a accounts -> id a = k -> ~ totalAllocation a == 0.

(** A round that accounts for [total]: recorded balances plus the overflow
    in transit. *)
Definition conserved (total : number) (it : IterationResult) : Prop :=
  sum (JsMap.values (balances it)) + totalOverflow it == total.

(** Every account that overflows in one of the rounds has weights that sum
    to 100 or more. *)
Definition overflowing_allocate (accounts : list Account)
  (its : list IterationResult) : Prop :=
  forall it k a,
    In it its -> In k (JsMap.keys (overflows it)) ->
    In a accounts -> id a = k -> 100 <= totalAllocation a.

(** What the accounts lack to reach their minimums. *)
Definition total_shortfall (l : list Account) : number :=
  sum (map (fun a => Qmax 0 (minThreshold a - balance a)) l).

(** The capacity left once every account is at its minimum or above. *)
Definition capacity_after_fill (l : list Account) : number :=
  sum (map (fun a => Qmax 0 (maxThreshold a
                             - Qmax (balance a) (minThreshold a))) l).

(** The case in which [distributeInitial] returns before it has placed the
    remainder: funds are left after the minimums and no account has room. *)
Definition remainder_dropped (l : list Account) (funding : number) : Prop :=
  total_shortfall l < funding /\ capacity_after_fill l == 0.

(** The first loops of [distributeInitial], over any measured amount. *)
Definition collect (g : Account -> number) (accounts : list Account)
  (st : number * JsMap.t number) : number * JsMap.t number :=
  fold_left
    (fun (st : number * JsMap.t number) account =>
       if Qgtb (g account) 0
       then (fst st + g account, JsMap.set (snd st) (id account) (g account))
       else st)
    accounts st.

(** The entries that the first loops set, for distinct ids. *)
Definition entries_of (g : Account -> number) (l : list Account)
  : list (string * number) :=
  flat_map (fun a => if Qgtb (g a) 0 then [(id a, g a)] else []) l.

(** *** Scaled weights *)

(** Every outgoing weight of the account multiplied by [c]. *)
Definition scale_weights (c : number) (a : Account) : Account :=
  {| id := id a; name := name a; balance := balance a;
     minThreshold := minThreshold a; maxThreshold := maxThreshold a;
     allocations := map (fun e : string * number => (fst e, snd e * c))
                        (allocations a) |}.



Section Scaled.
Variable c : number.




End Scaled.


(** *** Sample networks *)

(** One account that is exactly at its maximum. *)
Definition full_account : FlowFunding.Account :=
  {| FlowFunding.id := "a"; FlowFunding.name := "A";
     FlowFunding.balance := 100;
     FlowFunding.minThreshold := 0; FlowFunding.maxThreshold := 100;
     FlowFunding.allocations := [] |}.

(** Two accounts that allocate everything to each other; a starts 50 over
    its maximum. *)
Definition pair_network : list Account :=
  [ {| id := "a"; name := "A"; balance := 150;
       minThreshold := 0; maxThreshold := 100;
       allocations := [("b"%string, 100)] |};
    {| id := "b"; name := "B"; balance := 0;
       minThreshold := 0; maxThreshold := 100;
       allocations := [("a"%string, 100)] |} ].

(** A network that [validateNetwork] rejects three times over: a negative
    balance, an allocation to an account that does not exist, and weights
    that sum to 150. *)
Definition rejected : list Account :=
  [ {| id := "a"; name := "A"; balance := 150;
       minThreshold := 0; maxThreshold := 100;
       allocations := [("ghost"%string, 90); ("b"%string, 60)] |};
    {| id := "b"; name := "B"; balance := -5;
       minThreshold := 0; maxThreshold := 100;
       allocations := [] |} ].

(** Two accounts that share the id a, each 0.75 over its maximum, and the
    account b they allocate to. *)
Definition repeated_id : list Account :=
  [ {| id := "a"; name := "A1"; balance := 10075 # 100;
       minThreshold := 0; maxThreshold := 100;
       allocations := [("b"%string, 100)] |};
    {| id := "a"; name := "A2"; balance := 10075 # 100;
       minThreshold := 0; maxThreshold := 100;
       allocations := [("b"%string, 100)] |};
    {| id := "b"; name := "B"; balance := 0;
       minThreshold := 0; maxThreshold := 100;
       allocations := [] |} ].

(** One round with an epsilon of 1. *)
Definition one_round : DistributionConfig :=
  {| maxIterations := Some 1%nat; epsilon := Some 1; verbose := None |}.

End DiscreteSpec.

(** ** The continuous engine *)

Module ContinuousSpec.
Import FlowV2 SameNumbers.

(** *** Validation *)

Definition node_self_allocation (n : FlowNode) : Prop :=
  exists p, In (id n, p) (allocations n).

Definition node_missing_target (ids : list string) (n : FlowNode) : Prop :=
  exists t p, In (t, p) (allocations n) /\ ~ In t ids.

Definition node_weight_out_of_range (n : FlowNode) : Prop :=
  exists t p, In (t, p) (allocations n) /\ (p < 0 \/ 100 < p).

Definition node_listed_fatal (ids : list string) (n : FlowNode) : Prop :=
  minThreshold n < 0
  \/ maxThreshold n < 0
  \/ maxThreshold n < minThreshold n
  \/ externalInflow n < 0
  \/ node_self_allocation n
  \/ node_missing_target ids n
  \/ 100 + (1 # 100) < totalAllocation n.

(** *** Rates *)

(** The sum, over the nodes, of the part of the outflow that the node's
    own weights leave uncovered. *)
Definition uncovered_outflow (nodes : list FlowNode) : number :=
  sum (map (fun n =>
              or0 (totalOutflow n)
              * Qmax 0 (100 - sum (JsMap.values (allocations n))) / 100)
           nodes).


(** *** Scaled weights *)

(** Every outgoing weight of the node multiplied by [c]. *)
Definition scale_weights (c : number) (n : FlowNode) : FlowNode :=
  {| id := id n; name := name n; externalInflow := externalInflow n;
     minThreshold := minThreshold n; maxThreshold := maxThreshold n;
     allocations := map (fun e : string * number => (fst e, snd e * c))
                        (allocations n);
     totalInflow := totalInflow n; totalOutflow := totalOutflow n;
     balance := balance n |}.

Section Scaled.
Variable c : number.


End Scaled.

(** *** Sample networks *)

Definition sample_node : FlowNode :=
  {| id := "a"; name := "A"; externalInflow := 0;
     minThreshold := 100; maxThreshold := 200; allocations := [];
     totalInflow := None; totalOutflow := None; balance := None |}.

(** A node that takes in 400 against a maximum of 200 and allocates only
    60% of its outflow. *)
Definition leaky : list FlowNode :=
  [ {| id := "a"; name := "A"; externalInflow := 400;
       minThreshold := 100; maxThreshold := 200;
       allocations := [("b"%string, 60)];
       totalInflow := None; totalOutflow := None; balance := None |};
    {| id := "b"; name := "B"; externalInflow := 0;
       minThreshold := 100; maxThreshold := 200;
       allocations := [];
       totalInflow := None; totalOutflow := None; balance := None |} ].

Definition two_rounds : FlowConfig :=
  {| maxIterations := Some 2%nat; epsilon := None; verbose := None |}.

End ContinuousSpec.

(** ** The discrete engine in binary64 *)

Module Binary64Spec.
Import Floats.PrimFloat FlowFunding64.
#[local] Set Warnings "-inexact-float".
Local Open Scope float_scope.


(** Every outgoing weight of the account multiplied by [c]. *)
Definition scale_weights (c : float) (a : Account) : Account :=
  {| id := id a; name := name a; balance := balance a;
     minThreshold := minThreshold a; maxThreshold := maxThreshold a;
     allocations := map (fun e : string * float => (fst e, snd e * c))
                        (allocations a) |}.


(** Three accounts at their maximum of 100 that pass their overflow on in
    a circle, half to each neighbour; a starts 0.1 over. *)
Definition circle : list Account :=
  [ {| id := "a"; name := "A"; balance := 100.1;
       minThreshold := 0; maxThreshold := 100;
       allocations := [("b"%string, 50); ("c"%string, 50)] |};
    {| id := "b"; name := "B"; balance := 100;
       minThreshold := 0; maxThreshold := 100;
       allocations := [("c"%string, 50); ("a"%string, 50)] |};
    {| id := "c"; name := "C"; balance := 100;
       minThreshold := 0; maxThreshold := 100;
       allocations := [("a"%string, 50); ("b"%string, 50)] |} ].

Definition three_rounds : DistributionConfig :=
  {| maxIterations := Some 3%nat; epsilon := None; verbose := None |}.

(** An account 50 over its maximum that allocates 10 to b and 90 to c. *)
Definition fan : list Account :=
  [ {| id := "a"; name := "A"; balance := 150;
       minThreshold := 0; maxThreshold := 100;
       allocations := [("b"%string, 10); ("c"%string, 90)] |};
    {| id := "b"; name := "B"; balance := 0;
       minThreshold := 0; maxThreshold := 100;
       allocations := [] |};
    {| id := "c"; name := "C"; balance := 0;
       minThreshold := 0; maxThreshold := 100;
       allocations := [] |} ].

(** The flow recorded under [key] in the first round of a result. *)
Definition first_flow (result : DistributionResult) (key : string)
  : option float :=
  match iterations result with
  | [] => None
  | first :: _ => JsMap.get (flows first) key
  end.

End Binary64Spec.

(** ** Vocabulary of the further properties *)

Module ZoneSpec.
Import FlowV2.

(** The thresholds that [validateNetwork] accepts. *)
Definition thresholds_ok (node : FlowNode) : Prop :=
  0 <= minThreshold node /\ minThreshold node <= maxThreshold node.

(** The three zones of the comment above [calculateOutflow], one formula
    each, without the branch for an empty building zone. *)
Definition three_zones (node : FlowNode) : number :=
  let totalInflow := or0 (totalInflow node) in
  let capacityThreshold := (15 # 10) * maxThreshold node in
  if Qltb totalInflow (minThreshold node) then 0
  else if Qgeb totalInflow capacityThreshold
       then totalInflow - maxThreshold node
  else ((totalInflow - minThreshold node)
        / (capacityThreshold - minThreshold node))
       * ((5 # 10) * maxThreshold node).

End ZoneSpec.

Module SteadySpec.
Import FlowV2.

(** [n'] is [n] as far as the caller's input goes: the fields that
    [calculateSteadyState] reads and never writes. *)
Definition same_inputs (n n' : FlowNode) : Prop :=
  id n' = id n /\ name n' = name n
  /\ externalInflow n' = externalInflow n
  /\ minThreshold n' = minThreshold n /\ maxThreshold n' = maxThreshold n
  /\ allocations n' = allocations n.

(** The rate that the edges carry into the node [k]. *)
Definition inflow_over (edges : list FlowEdge) (k : string) : number :=
  sum (map flowRate (filter (fun e => String.eqb (target e) k) edges)).

(** What one turn of the convergence loop does to the nodes. *)
Definition turn (nodeMap : JsMap.t nat) (nodes : list FlowNode)
  : list FlowNode :=
  let nodes1 :=
    map (fun node => set_totalOutflow node (calculateOutflow node)) nodes in
  fst (apply_inflows (new_inflows nodeMap nodes1) nodes1 0).

(** A well-formed edge of a network with the node ids [ids]. *)
Definition edge_ok (ids : list string) (e : FlowEdge) : Prop :=
  0 < flowRate e
  /\ In (source e) ids /\ In (target e) ids
  /\ source e <> target e
  /\ 0 <= percentage e <= 100.

(** Every node takes in its external inflow and what the edges bring. *)
Definition balanced (nodes : list FlowNode) : Prop :=
  forall n, In n nodes ->
    or0 (totalInflow n)
    == externalInflow n + inflow_over (flat_map edges_of nodes) (id n).

(** What [validateNetwork] has checked of a node it accepts. *)
Definition node_ok (ids : list string) (n : FlowNode) : Prop :=
  0 <= minThreshold n /\ minThreshold n <= maxThreshold n
  /\ 0 <= externalInflow n
  /\ totalAllocation n <= 100 + (1 # 100)
  /\ forall t p, In (t, p) (allocations n) ->
                 0 <= p <= 100 /\ In t ids /\ t <> id n.

(** The fields that [calculateSteadyState] writes, once it has run. *)
Definition computed (n : FlowNode) : Prop :=
  totalInflow n <> None /\ totalOutflow n <> None /\ balance n = Some 0.

End SteadySpec.

Module TbffFunds.
Import Tbff.

(** What the accounts lack to reach their minimums. *)
Definition shortfall_of (network : FlowFundingNetwork) : number :=
  sum (map calculateShortfall (accounts network)).

(** The computed properties of the account are those of its balance. *)
Definition consistent (acc : FlowFundingAccount) : Prop :=
  status acc = getAccountStatus acc
  /\ shortfall acc = calculateShortfall acc
  /\ capacity acc = calculateCapacity acc
  /\ overflow_ acc = calculateOverflow acc.

(** The totals of the network are those of its accounts. *)
Definition totals_consistent (network : FlowFundingNetwork) : Prop :=
  totalFunds network = sum (map balance (accounts network))
  /\ totalShortfall network = sum (map calculateShortfall (accounts network))
  /\ totalCapacity network = sum (map calculateCapacity (accounts network))
  /\ totalOverflow network = sum (map calculateOverflow (accounts network)).

(** [acc'] is [acc] with another balance and the properties computed from
    it. *)
Definition same_identity (acc acc' : FlowFundingAccount) : Prop :=
  id acc' = id acc /\ name acc' = name acc
  /\ minThreshold acc' = minThreshold acc
  /\ maxThreshold acc' = maxThreshold acc
  /\ x acc' = x acc /\ y acc' = y acc
  /\ width acc' = width acc /\ height acc' = height acc.

(** [updateAccountComputedProperties({ ...acc, balance: b })] *)
Definition rebalanced (acc : FlowFundingAccount) (b : number) :=
  updateAccountComputedProperties (with_balance acc b).

(** What [fillAllMinimums] does to one account. *)
Definition fill (acc : FlowFundingAccount) : FlowFundingAccount :=
  if Qeqb (Qmax 0 (minThreshold acc - balance acc)) 0 then acc
  else rebalanced acc (minThreshold acc).

(** What a proportional distribution of [amount] does to one account whose
    part of [total] is [g acc]. *)
Definition share_by (g : FlowFundingAccount -> number) (total amount : number)
  (acc : FlowFundingAccount) : FlowFundingAccount :=
  if Qeqb (g acc) 0 then acc
  else rebalanced acc (balance acc + g acc / total * amount).

(** An account that a distribution has left alone or given a new balance. *)
Definition touched (acc acc' : FlowFundingAccount) : Prop :=
  acc' = acc \/ exists b, acc' = rebalanced acc b.

(** The balance of [acc'] is at least the one of [acc]. *)
Definition not_lowered (acc acc' : FlowFundingAccount) : Prop :=
  balance acc <= balance acc'.

End TbffFunds.

Module TbffPageSpec.
Import Tbff TbffPage.

(** [a'] is the allocation [a] with some percentage. *)
Definition same_link (a a' : Allocation) : Prop :=
  alloc_id a' = alloc_id a
  /\ sourceAccountId a' = sourceAccountId a
  /\ targetAccountId a' = targetAccountId a.

(** The percentage is a fraction, [0.0 to 1.0] as [tbff/types.ts] has it. *)
Definition fraction (a : Allocation) : Prop :=
  0 <= percentage a <= 1.

Definition total_percentage (allocations : list Allocation) : number :=
  sum (map percentage allocations).

(** The allocations of one source, in their order. *)
Definition from_source (sourceId : string) (allocations : list Allocation)
  : list Allocation :=
  filter (fun a => String.eqb (sourceAccountId a) sourceId) allocations.

(** The allocations of the other sources, in their order. *)
Definition from_others (sourceId : string) (allocations : list Allocation)
  : list Allocation :=
  filter (fun a => negb (String.eqb (sourceAccountId a) sourceId)) allocations.

(** The allocations whose id is not [allocationId]. *)
Definition without (allocationId : string) (allocations : list Allocation)
  : list Allocation :=
  filter (fun a => negb (String.eqb (alloc_id a) allocationId)) allocations.

Definition allocation_ids (st : PageState) : list string :=
  map alloc_id (allocations (network st)).

(** What a row of the summary says about an account of [afterAccounts]. *)
Definition reports (beforeAccounts afterAccounts : list FlowFundingAccount)
  (c : Change) : Prop :=
  exists b a,
    In b beforeAccounts /\ In a afterAccounts /\ id b = id a
    /\ accountId c = id a /\ change_name c = name a
    /\ before c = balance b /\ after c = balance a
    /\ delta c = balance a - balance b.

(** The page showing a network, nothing selected, no distribution yet. *)
Definition showing (network : FlowFundingNetwork) : PageState :=
  {| network := network; selectedAllocationId := None;
     lastDistribution := None |}.

(** Three allocations of a pool at 50% each. *)
Definition halves : list Allocation :=
  [ {| alloc_id := "a4"; sourceAccountId := "pool";
       targetAccountId := "alice"; percentage := 5 # 10 |};
    {| alloc_id := "a5"; sourceAccountId := "pool";
       targetAccountId := "bob"; percentage := 5 # 10 |};
    {| alloc_id := "a6"; sourceAccountId := "pool";
       targetAccountId := "carol"; percentage := 5 # 10 |} ].

End TbffPageSpec.

Module HistorySpec.
Import FlowFunding.

(** The rounds are numbered from 0. *)
Definition numbered (its : list IterationResult) : Prop :=
  map iteration its = seq 0 (List.length its).

(** A round is marked converged exactly when its total is below epsilon. *)
Definition marked (epsilon : number) (it : IterationResult) : Prop :=
  converged it = true <-> totalOverflow it < epsilon.

(** What a [DistributionResult] says about the rounds that produced it. *)
Definition history (config : DistributionConfig) (r : DistributionResult)
  : Prop :=
  iterationCount r = List.length (iterations r)
  /\ (iterationCount r <= cfg_maxIterations config)%nat
  /\ numbered (iterations r)
  /\ Forall (marked (cfg_epsilon config)) (iterations r)
  /\ (forall k it,
        nth_error (iterations r) k = Some it -> converged it = true ->
        S k = iterationCount r /\ result_converged r = true
        /\ finalBalances r = balances it)
  /\ (result_converged r = true ->
      exists it, In it (iterations r) /\ converged it = true)
  /\ (result_converged r = false ->
      iterationCount r = cfg_maxIterations config).

(** What the loop has done when it is entered at index [i] with [left]
    turns to go and an empty history: the array, the rounds it recorded and
    [converged]. *)
Definition run_ok (left i : nat) (epsilon : number)
  (res : list Account * list IterationResult * bool) : Prop :=
  let '(final, new, c) := res in
  map iteration new = seq i (List.length new)
  /\ (List.length new <= left)%nat
  /\ Forall (marked epsilon) new
  /\ (forall k it,
        nth_error new k = Some it -> converged it = true ->
        S k = List.length new /\ c = true
        /\ balance_map final = balances it)
  /\ (c = true -> exists it, In it new /\ converged it = true)
  /\ (c = false -> List.length new = left).

(** No account holds more than its maximum. *)
Definition settled (accounts : list Account) : Prop :=
  Forall (fun a => balance a <= maxThreshold a) accounts.

(** Two accounts within their thresholds, a allocating to b. *)
Definition calm : list Account :=
  [ {| id := "a"; name := "A"; balance := 80;
       minThreshold := 0; maxThreshold := 100;
       allocations := [("b"%string, 100)] |};
    {| id := "b"; name := "B"; balance := 100;
       minThreshold := 0; maxThreshold := 100;
       allocations := [] |} ].

End HistorySpec.

(** * Properties *)

(** ** Comparisons and sums *)

Lemma Qltb_true (x y : number) : Qltb x y = true <-> x < y.
Proof.
  unfold Qltb. rewrite negb_true_iff, <- not_true_iff_false, Qle_bool_iff.
  split; [apply Qnot_le_lt | apply Qlt_not_le].
Qed.

Lemma Qltb_false (x y : number) : Qltb x y = false <-> y <= x.
Proof.
  unfold Qltb. rewrite negb_false_iff. apply Qle_bool_iff.
Qed.

Lemma Qgtb_true (x y : number) : Qgtb x y = true <-> y < x.
Proof. apply Qltb_true. Qed.

Lemma Qgtb_false (x y : number) : Qgtb x y = false <-> x <= y.
Proof. apply Qltb_false. Qed.

Lemma Qgeb_true (x y : number) : Qgeb x y = true <-> y <= x.
Proof. apply Qle_bool_iff. Qed.

Lemma Qgeb_false (x y : number) : Qgeb x y = false <-> x < y.
Proof.
  unfold Qgeb. rewrite <- not_true_iff_false, Qle_bool_iff.
  split; [apply Qnot_le_lt | apply Qlt_not_le].
Qed.

Lemma Qleb_true (x y : number) : Qleb x y = true <-> x <= y.
Proof. apply Qle_bool_iff. Qed.

Lemma Qleb_false (x y : number) : Qleb x y = false <-> y < x.
Proof. apply Qgeb_false. Qed.

Lemma Qeqb_true (x y : number) : Qeqb x y = true <-> x == y.
Proof. apply Qeq_bool_iff. Qed.

Lemma Qeqb_false (x y : number) : Qeqb x y = false <-> ~ x == y.
Proof.
  unfold Qeqb. rewrite <- not_true_iff_false, Qeq_bool_iff. reflexivity.
Qed.

(** Turn the boolean tests in the context into the facts they decide. *)
Ltac cmp_facts :=
  repeat match goal with
    | H : Qltb _ _ = true |- _ => apply Qltb_true in H
    | H : Qltb _ _ = false |- _ => apply Qltb_false in H
    | H : Qgtb _ _ = true |- _ => apply Qgtb_true in H
    | H : Qgtb _ _ = false |- _ => apply Qgtb_false in H
    | H : Qgeb _ _ = true |- _ => apply Qgeb_true in H
    | H : Qgeb _ _ = false |- _ => apply Qgeb_false in H
    | H : Qleb _ _ = true |- _ => apply Qleb_true in H
    | H : Qleb _ _ = false |- _ => apply Qleb_false in H
    | H : Qeqb _ _ = true |- _ => apply Qeqb_true in H
    | H : Qeqb _ _ = false |- _ => apply Qeqb_false in H
    end.

(** Case analysis on the first comparison the goal branches on. *)
Ltac case_cmp :=
  match goal with
  | |- context [if ?c then _ else _] =>
      let H := fresh "Hc" in destruct c eqn:H; cmp_facts
  end.

Lemma Qmax_0_spec (x : number) :
  (x <= 0 /\ Qmax 0 x == 0) \/ (0 < x /\ Qmax 0 x == x).
Proof.
  destruct (Qlt_le_dec 0 x) as [H | H].
  - right. split; [exact H |]. apply Q.max_r. lra.
  - left. split; [exact H |]. apply Q.max_l. exact H.
Qed.

Lemma Qmax_0_nonneg (x : number) : 0 <= Qmax 0 x.
Proof. apply Q.le_max_l. Qed.

Lemma fold_left_Qplus_init (xs : list number) (a : number) :
  fold_left Qplus xs a == a + fold_left Qplus xs 0.
Proof.
  revert a. induction xs as [| x xs IH]; intro a; simpl.
  - lra.
  - rewrite (IH (a + x)), (IH (0 + x)). lra.
Qed.

Lemma fold_left_plus_map {A} (f : A -> number) (l : list A) (a : number) :
  fold_left (fun total x => total + f x) l a = fold_left Qplus (map f l) a.
Proof.
  revert a. induction l as [| x l IH]; intro a; simpl.
  - reflexivity.
  - apply IH.
Qed.

Lemma sum_nil : sum [] == 0.
Proof. reflexivity. Qed.

Lemma sum_cons (x : number) (xs : list number) : sum (x :: xs) == x + sum xs.
Proof.
  unfold sum. simpl. rewrite fold_left_Qplus_init. lra.
Qed.

Lemma sum_app (xs ys : list number) : sum (xs ++ ys) == sum xs + sum ys.
Proof.
  induction xs as [| x xs IH]; cbn [app].
  - rewrite sum_nil. lra.
  - rewrite !sum_cons, IH. lra.
Qed.

Lemma sum_nonneg (xs : list number) :
  Forall (fun x => 0 <= x) xs -> 0 <= sum xs.
Proof.
  induction 1 as [| x xs Hx _ IH].
  - apply Qle_refl.
  - rewrite sum_cons. lra.
Qed.

(** ** C8: status classification *)

Module TbffProps.
Import Tbff TbffSpec.

Lemma getAccountStatus_classified (a : FlowFundingAccount) :
  classified a (getAccountStatus a).
Proof.
  unfold getAccountStatus.
  case_cmp; [now constructor |].
  case_cmp; [now constructor |].
  case_cmp; now constructor.
Qed.

Lemma classified_functional (a : FlowFundingAccount) (s1 s2 : AccountStatus) :
  classified a s1 -> classified a s2 -> s1 = s2.
Proof.
  intros H1 H2. inversion H1; inversion H2; subst; try reflexivity; lra.
Qed.

(** C8.  [getAccountStatus] returns [deficit] when the balance is below the
    minimum; otherwise [overflow] when it has reached the maximum; otherwise
    [minimum] when it is within 0.01 of the minimum; otherwise [healthy].
    The overflow test comes before the near-minimum test: an account at or
    above its maximum and within 0.01 of its minimum is [overflow]. *)
Theorem getAccountStatus_priority (a : FlowFundingAccount) :
  (forall s, getAccountStatus a = s <-> classified a s)
  /\ (minThreshold a <= balance a /\ maxThreshold a <= balance a
      /\ Qabs (balance a - minThreshold a) < 1 # 100
      -> getAccountStatus a = overflow).
Proof.
  split.
  - intro s. split.
    + intros <-. apply getAccountStatus_classified.
    + intro H. eapply classified_functional; [| exact H].
      apply getAccountStatus_classified.
  - intros (Hmin & Hmax & _).
    eapply classified_functional; [apply getAccountStatus_classified |].
    now constructor.
Qed.

End TbffProps.

(** ** C5: zone continuity of the outflow function *)

Module FlowV2Props.
Import FlowV2 ContinuousSpec.

(** C5.  For a node with [0 <= minThreshold <= maxThreshold],
    [calculateOutflow] at [totalInflow = minThreshold] is 0, and at
    [totalInflow = 1.5 * maxThreshold] it is
    [1.5 * maxThreshold - maxThreshold], which is [0.5 * maxThreshold]. *)
Theorem calculateOutflow_zone_continuity (node : FlowNode) :
  0 <= minThreshold node ->
  minThreshold node <= maxThreshold node ->
  let capacityThreshold := (15 # 10) * maxThreshold node in
  calculateOutflow (set_totalInflow node (minThreshold node)) == 0
  /\ calculateOutflow (set_totalInflow node capacityThreshold)
     == capacityThreshold - maxThreshold node
  /\ capacityThreshold - maxThreshold node == (5 # 10) * maxThreshold node.
Proof.
  intros Hmin Hle capacityThreshold. subst capacityThreshold.
  unfold calculateOutflow. simpl.
  repeat split.
  - case_cmp; [reflexivity |].
    case_cmp; [lra |].
    case_cmp; [lra |].
    field. lra.
  - case_cmp; [lra |].
    case_cmp; [reflexivity | lra].
  - lra.
Qed.

Lemma calculateOutflow_zone_continuity_witness :
  calculateOutflow (set_totalInflow sample_node 100) == 0
  /\ calculateOutflow (set_totalInflow sample_node ((15 # 10) * 200))
     == (15 # 10) * 200 - 200
  /\ (15 # 10) * 200 - 200 == (5 # 10) * 200.
Proof.
  apply (calculateOutflow_zone_continuity sample_node); simpl; lra.
Defined.

End FlowV2Props.

(** ** Lists of pushed errors *)

Lemma push_if_not_nil {E} (c : bool) (e : E) : push_if c e <> [] <-> c = true.
Proof. destruct c; simpl; split; congruence. Qed.

Lemma app_not_nil {A} (l1 l2 : list A) :
  l1 ++ l2 <> [] <-> l1 <> [] \/ l2 <> [].
Proof.
  destruct l1 as [| a l1]; simpl.
  - split; [intro H; right; exact H | intros [H | H]; congruence].
  - split; [intros _; left; discriminate | intros _; discriminate].
Qed.

Lemma flat_map_not_nil {A B} (f : A -> list B) (l : list A) :
  flat_map f l <> [] <-> exists x, In x l /\ f x <> [].
Proof.
  induction l as [| a l IH]; simpl.
  - split; [congruence | intros (x & [] & _)].
  - rewrite app_not_nil, IH. split.
    + intros [H | (x & Hin & Hx)]; [exists a | exists x]; auto.
    + intros (x & [<- | Hin] & Hx); [left | right; exists x]; auto.
Qed.

Lemma length_eqb_0 {A} (l : list A) :
  (List.length l =? 0)%nat = false <-> l <> [].
Proof.
  destruct l; simpl; split; congruence.
Qed.

Lemma existsb_eqb_In (t : string) (ids : list string) :
  existsb (String.eqb t) ids = true <-> In t ids.
Proof.
  rewrite existsb_exists. split.
  - intros (x & Hin & Heq). apply String.eqb_eq in Heq. now subst.
  - intro Hin. exists t. split; [exact Hin | apply String.eqb_refl].
Qed.

(** ** C4: what makes a network invalid *)

Module ValidatorProps.

Section Discrete.
Import FlowFunding DiscreteSpec.

Lemma allocation_errors_spec (ids : list string) (a : Account)
  (t : string) (p : number) :
  allocation_errors ids a (t, p) <> []
  <-> (p < 0 \/ 100 < p) \/ ~ In t ids \/ t = id a.
Proof.
  unfold allocation_errors.
  rewrite !app_not_nil, !push_if_not_nil, orb_true_iff, negb_true_iff,
    Qltb_true, Qgtb_true, String.eqb_eq, <- not_true_iff_false,
    existsb_eqb_In.
  tauto.
Qed.

Lemma account_errors_spec (ids : list string) (a : Account) :
  account_errors ids a <> []
  <-> listed_fatal ids a \/ weight_out_of_range a.
Proof.
  unfold account_errors, listed_fatal, self_allocation, missing_target,
    weight_out_of_range, JsMap.entries.
  rewrite !app_not_nil, !push_if_not_nil, flat_map_not_nil,
    !Qltb_true, !Qgtb_true.
  split.
  - intros [H | [H | [H | [H | [H | H]]]]];
      try tauto; try (left; do 6 right; lra).
    destruct H as ([t p] & Hin & Herr).
    apply allocation_errors_spec in Herr.
    destruct Herr as [Hr | [Hm | He]].
    + right. exists t, p. tauto.
    + left. do 5 right. left. exists t, p. tauto.
    + subst t. left. do 4 right. left. exists p. exact Hin.
  - intros [[H | [H | [H | [H | [H | [H | H]]]]]] | H];
      try tauto; try (do 5 right; lra);
      do 4 right; left;
      first [ destruct H as (p & Hin); exists (id a, p)
            | destruct H as (t & p & Hin & Hx); exists (t, p) ];
      (split; [exact Hin | apply allocation_errors_spec; tauto]).
Qed.

Lemma validateNetwork_invalid_iff (accounts : list Account) :
  valid (validateNetwork accounts) = false
  <-> accounts = []
      \/ exists a, In a accounts
                   /\ (listed_fatal (map id accounts) a
                       \/ weight_out_of_range a).
Proof.
  unfold validateNetwork.
  destruct accounts as [| a0 accounts']; [simpl; tauto |].
  set (accounts := a0 :: accounts').
  change ((List.length accounts =? 0)%nat) with false. cbv iota.
  cbn [valid]. rewrite length_eqb_0, flat_map_not_nil.
  split.
  - intros (a & Hin & Herr). right. exists a.
    split; [exact Hin |]. now apply account_errors_spec.
  - intros [Hnil | (a & Hin & Hc)]; [discriminate |].
    exists a. split; [exact Hin |]. now apply account_errors_spec.
Qed.

Lemma validateNetwork_errors_not_nil (accounts : list Account) :
  valid (validateNetwork accounts) = false ->
  errors (validateNetwork accounts) <> [].
Proof.
  unfold validateNetwork.
  destruct (List.length accounts =? 0)%nat; cbn [valid errors].
  - discriminate.
  - now rewrite length_eqb_0.
Qed.

End Discrete.

Section Continuous.
Import FlowV2 ContinuousSpec.

Lemma node_allocation_errors_spec (ids : list string) (n : FlowNode)
  (t : string) (p : number) :
  allocation_errors ids n (t, p) <> []
  <-> (p < 0 \/ 100 < p) \/ ~ In t ids \/ t = id n.
Proof.
  unfold allocation_errors.
  rewrite !app_not_nil, !push_if_not_nil, orb_true_iff, negb_true_iff,
    Qltb_true, Qgtb_true, String.eqb_eq, <- not_true_iff_false,
    existsb_eqb_In.
  tauto.
Qed.

Lemma node_errors_spec (ids : list string) (n : FlowNode) :
  node_errors ids n <> []
  <-> node_listed_fatal ids n \/ node_weight_out_of_range n.
Proof.
  unfold node_errors, node_listed_fatal, node_self_allocation,
    node_missing_target, node_weight_out_of_range, JsMap.entries.
  rewrite !app_not_nil, !push_if_not_nil, flat_map_not_nil,
    !Qltb_true, !Qgtb_true.
  split.
  - intros [H | [H | [H | [H | [H | H]]]]];
      try tauto; try (left; do 6 right; lra).
    destruct H as ([t p] & Hin & Herr).
    apply node_allocation_errors_spec in Herr.
    destruct Herr as [Hr | [Hm | He]].
    + right. exists t, p. tauto.
    + left. do 5 right. left. exists t, p. tauto.
    + subst t. left. do 4 right. left. exists p. exact Hin.
  - intros [[H | [H | [H | [H | [H | [H | H]]]]]] | H];
      try tauto; try (do 5 right; lra);
      do 4 right; left;
      first [ destruct H as (p & Hin); exists (id n, p)
            | destruct H as (t & p & Hin & Hx); exists (t, p) ];
      (split; [exact Hin | apply node_allocation_errors_spec; tauto]).
Qed.

Lemma node_validateNetwork_invalid_iff (nodes : list FlowNode) :
  valid (validateNetwork nodes) = false
  <-> nodes = []
      \/ exists n, In n nodes
                   /\ (node_listed_fatal (map id nodes) n
                       \/ node_weight_out_of_range n).
Proof.
  unfold validateNetwork.
  destruct nodes as [| n0 nodes']; [simpl; tauto |].
  set (nodes := n0 :: nodes').
  change ((List.length nodes =? 0)%nat) with false. cbv iota.
  cbn [valid]. rewrite length_eqb_0, flat_map_not_nil.
  split.
  - intros (n & Hin & Herr). right. exists n.
    split; [exact Hin |]. now apply node_errors_spec.
  - intros [Hnil | (n & Hin & Hc)]; [discriminate |].
    exists n. split; [exact Hin |]. now apply node_errors_spec.
Qed.

Lemma node_validateNetwork_errors_not_nil (nodes : list FlowNode) :
  valid (validateNetwork nodes) = false ->
  errors (validateNetwork nodes) <> [].
Proof.
  unfold validateNetwork.
  destruct (List.length nodes =? 0)%nat; cbn [valid errors].
  - discriminate.
  - now rewrite length_eqb_0.
Qed.

End Continuous.

(** The empty network is invalid although it has no account at all. *)
Lemma empty_network_invalid_without_listed_condition :
  ~ DiscreteSpec.invalid_exactly_when_listed.
Proof.
  intro H. destruct (proj1 (H []) eq_refl) as (a & [] & _).
Qed.

(** C4, amended.  [validateNetwork] is a total function (it always returns
    a result) and, in both engines, its result has [valid = false] exactly
    when the network is empty, or some account meets one of the listed
    conditions, or some single allocation weight is below 0 or above 100. *)
Theorem validateNetwork_invalid_exactly_when :
  (forall accounts : list FlowFunding.Account,
      FlowFunding.valid (FlowFunding.validateNetwork accounts) = false
      <-> accounts = []
          \/ exists a, In a accounts
               /\ (DiscreteSpec.listed_fatal (map FlowFunding.id accounts) a
                   \/ DiscreteSpec.weight_out_of_range a))
  /\ (forall nodes : list FlowV2.FlowNode,
         FlowV2.valid (FlowV2.validateNetwork nodes) = false
         <-> nodes = []
             \/ exists n, In n nodes
                  /\ (ContinuousSpec.node_listed_fatal (map FlowV2.id nodes) n
                      \/ ContinuousSpec.node_weight_out_of_range n)).
Proof.
  split.
  - exact validateNetwork_invalid_iff.
  - exact node_validateNetwork_invalid_iff.
Qed.

End ValidatorProps.

(** ** C3: validation failures are raised before anything is mutated *)

Module FailFast.

(** C3.  In both engines the only failure is the validation failure raised
    at entry.  A call that throws was given a network that
    [validateNetwork] rejects, throws the (non-empty) error list of the
    validator, and leaves every account or node of the caller's array as it
    was; a call that returns was given a network the validator accepts.
    Every call does one or the other, so an invalid network always throws
    and a valid one never does. *)
Theorem engines_fail_fast :
  (forall accounts funding config,
      match FlowFunding.runDistribution accounts funding config with
      | (accounts', Thrown e) =>
          FlowFunding.valid (FlowFunding.validateNetwork accounts) = false
          /\ e = FlowFunding.errors (FlowFunding.validateNetwork accounts)
          /\ e <> []
          /\ accounts' = accounts
      | (_, Returned _) =>
          FlowFunding.valid (FlowFunding.validateNetwork accounts) = true
      end)
  /\ (forall nodes config,
         match FlowV2.calculateSteadyState nodes config with
         | (nodes', Thrown e) =>
             FlowV2.valid (FlowV2.validateNetwork nodes) = false
             /\ e = FlowV2.errors (FlowV2.validateNetwork nodes)
             /\ e <> []
             /\ nodes' = nodes
         | (_, Returned _) =>
             FlowV2.valid (FlowV2.validateNetwork nodes) = true
         end).
Proof.
  split.
  - intros accounts funding config. unfold FlowFunding.runDistribution.
    destruct (FlowFunding.valid (FlowFunding.validateNetwork accounts)) eqn:Hv;
      cbn [negb].
    + destruct (FlowFunding.rounds _ _ _ _ _) as [[accounts2 its] conv].
      reflexivity.
    + repeat split.
      now apply ValidatorProps.validateNetwork_errors_not_nil.
  - intros nodes config. unfold FlowV2.calculateSteadyState.
    destruct (FlowV2.valid (FlowV2.validateNetwork nodes)) eqn:Hv;
      cbn [negb].
    + destruct (FlowV2.iterate _ _ _ _ _) as [[nodes1 conv] its].
      reflexivity.
    + repeat split.
      now apply ValidatorProps.node_validateNetwork_errors_not_nil.
Qed.

End FailFast.

(** ** C9: the overflow sink *)

Module OverflowSink.
Import FlowV2 ContinuousSpec.

Lemma totalUnallocatedOverflow_sum (nodes : list FlowNode) :
  totalUnallocatedOverflow nodes = uncovered_outflow nodes.
Proof.
  unfold totalUnallocatedOverflow, uncovered_outflow, sum.
  apply fold_left_plus_map.
Qed.

(** C9.  When [calculateSteadyState] returns, the result has an overflow
    node exactly when the uncovered outflow of the final nodes exceeds
    epsilon; the [totalInflow] of that node is that sum; and when the sum
    is at most epsilon, [overflowNode] is [null]. *)
Theorem overflow_node_iff (nodes nodes' : list FlowNode) (config : FlowConfig)
  (network : FlowNetwork) :
  calculateSteadyState nodes config = (nodes', Returned network) ->
  let total := uncovered_outflow nodes' in
  (overflowNode network <> None <-> cfg_epsilon config < total)
  /\ (forall o, overflowNode network = Some o ->
                overflow_totalInflow o = total /\ overflow_id o = "overflow"%string)
  /\ (total <= cfg_epsilon config -> overflowNode network = None).
Proof.
  unfold calculateSteadyState.
  destruct (valid (validateNetwork nodes)); cbn [negb]; [| discriminate].
  destruct (iterate _ _ _ _ _) as [[nodes1 conv] its].
  intros [= <- <-]. cbn [overflowNode].
  rewrite totalUnallocatedOverflow_sum.
  set (total := uncovered_outflow nodes1).
  cbv zeta.
  destruct (Qgtb total (cfg_epsilon config)) eqn:Hgt; cmp_facts.
  - split; [| split].
    + split; [intros _; exact Hgt | discriminate].
    + intros o [= <-]. split; reflexivity.
    + intro Hle. lra.
  - split; [| split].
    + split; [congruence | intro; lra].
    + discriminate.
    + reflexivity.
Qed.

Lemma overflow_node_iff_witness :
  exists nodes' network,
    calculateSteadyState leaky two_rounds = (nodes', Returned network)
    /\ (overflowNode network <> None
        <-> cfg_epsilon two_rounds < uncovered_outflow nodes').
Proof.
  eexists. eexists. split.
  - vm_compute. reflexivity.
  - eapply (overflow_node_iff leaky _ two_rounds _).
    vm_compute. reflexivity.
Defined.

End OverflowSink.

(** ** The discrete rounds: what one round does to the balances *)

Module Rounds.
Import FlowFunding DiscreteSpec.

Lemma calculateOverflow_from_accounts (accounts : list Account)
  (overflows : JsMap.t number) :
  fst (calculateOverflow_from accounts overflows) = map clamp accounts.
Proof.
  revert overflows.
  induction accounts as [| a accounts IH]; intro overflows; simpl.
  - reflexivity.
  - unfold clamp at 1.
    destruct (Qgtb (Qmax 0 (balance a - maxThreshold a)) 0);
      simpl; now rewrite IH.
Qed.

(** The rounds only append to [iterations]. *)
Lemma rounds_iterations_app (left i : nat) (epsilon : number)
  (accounts : list Account) (iterations : list IterationResult) :
  rounds left i epsilon accounts iterations
  = let '(accounts', new, conv) := rounds left i epsilon accounts [] in
    (accounts', iterations ++ new, conv).
Proof.
  revert i accounts iterations.
  induction left as [| left IH]; intros i accounts iterations; simpl.
  - now rewrite app_nil_r.
  - destruct (calculateOverflow accounts) as [accounts1 ovs].
    destruct (Qltb (sum (JsMap.values ovs)) epsilon); [reflexivity |].
    destruct (redistributeOverflow accounts1 ovs) as [accounts2 fl].
    rewrite (IH _ _ (iterations ++ _)), (IH _ _ [_]).
    destruct (rounds left (S i) epsilon accounts2 []) as [[a new] c].
    now rewrite <- app_assoc.
Qed.

(** *** Accounts that keep their static fields *)

Lemma same_account_trans (a b c : Account) :
  same_account a b -> same_account b c -> same_account a c.
Proof.
  unfold same_account. intros (? & ? & ? & ?) (? & ? & ? & ?).
  repeat split; congruence.
Qed.

Lemma Forall2_same_map (f : Account -> Account) (l : list Account) :
  (forall a, same_account a (f a)) -> Forall2 same_account l (map f l).
Proof. intro Hf. induction l; simpl; constructor; auto. Qed.

Lemma same_account_set_balance (a : Account) (b : number) :
  same_account a (set_balance a b).
Proof. now repeat split. Qed.

Lemma same_account_refl (a : Account) : same_account a a.
Proof. now repeat split. Qed.

Lemma distributeInitial_same (accounts : list Account) (funding : number) :
  Forall2 same_account accounts (distributeInitial accounts funding).
Proof.
  unfold distributeInitial.
  destruct (min_shortfalls accounts) as [totalMinRequired minShortfalls].
  assert (Hcond : forall (c : Account -> bool) (g : Account -> number) l,
             Forall2 same_account l
               (map (fun a => if c a then set_balance a (g a) else a) l)).
  { intros c g l. apply Forall2_same_map. intro a.
    destruct (c a); auto using same_account_set_balance, same_account_refl. }
  destruct (Qltb funding totalMinRequired).
  - apply (Hcond (fun a => Qgtb (get_or_0 minShortfalls (id a)) 0)
                 (fun a => balance a
                           + get_or_0 minShortfalls (id a) / totalMinRequired
                             * funding)).
  - set (accounts1 := map _ accounts).
    assert (H1 : Forall2 same_account accounts accounts1)
      by apply (Hcond (fun a => Qgtb (get_or_0 minShortfalls (id a)) 0)
                      minThreshold).
    destruct (Qleb (funding - totalMinRequired) 0); [exact H1 |].
    destruct (capacities accounts1) as [totalCapacity caps].
    destruct (Qeqb totalCapacity 0); [exact H1 |].
    assert (H2 : Forall2 same_account accounts1
                   (map (fun a => if Qgtb (get_or_0 caps (id a)) 0
                                  then set_balance a
                                         (balance a
                                          + get_or_0 caps (id a) / totalCapacity
                                            * (funding - totalMinRequired))
                                  else a) accounts1))
      by apply (Hcond (fun a => Qgtb (get_or_0 caps (id a)) 0)).
    clear - H1 H2. revert H2. generalize (map
      (fun a => if Qgtb (get_or_0 caps (id a)) 0
                then set_balance a
                       (balance a
                        + get_or_0 caps (id a) / totalCapacity
                          * (funding - totalMinRequired))
                else a) accounts1).
    induction H1; intros l3 H3; inversion H3; subst; constructor;
      eauto using same_account_trans.
Qed.







Lemma total_balance_cons (a : Account) (l : list Account) :
  total_balance (a :: l) == balance a + total_balance l.
Proof. unfold total_balance. simpl. apply sum_cons. Qed.

Lemma excess_cons (a : Account) (l : list Account) :
  excess (a :: l) == Qmax 0 (balance a - maxThreshold a) + excess l.
Proof. unfold excess. simpl. apply sum_cons. Qed.

(** *** Maps of overflows *)

Lemma set_values_nonneg (m : JsMap.t number) (k : string) (v : number) :
  values_nonneg m -> 0 <= v -> values_nonneg (JsMap.set m k v).
Proof.
  unfold values_nonneg. intros Hm Hv.
  induction m as [| [k' v'] m IH]; simpl.
  - constructor; [exact Hv | constructor].
  - simpl in Hm. inversion Hm; subst.
    destruct (String.eqb k k'); simpl; constructor; auto.
Qed.

Lemma set_sum_le (m : JsMap.t number) (k : string) (v : number) :
  values_nonneg m ->
  sum (JsMap.values (JsMap.set m k v)) <= sum (JsMap.values m) + v.
Proof.
  unfold values_nonneg. intro Hm.
  induction m as [| [k' v'] m IH]; simpl.
  - rewrite sum_cons, !sum_nil. lra.
  - simpl in Hm. inversion Hm; subst.
    destruct (String.eqb k k'); simpl; rewrite !sum_cons.
    + lra.
    + specialize (IH H2). lra.
Qed.

(** *** Phase 2 *)

Lemma calculateOverflow_from_spec (accounts : list Account)
  (overflows : JsMap.t number) :
  values_nonneg overflows ->
  let r := calculateOverflow_from accounts overflows in
  values_nonneg (snd r)
  /\ sum (JsMap.values (snd r)) <= sum (JsMap.values overflows) + excess accounts
  /\ Forall2 same_account accounts (fst r)
  /\ Forall (fun a => balance a <= maxThreshold a) (fst r).
Proof.
  revert overflows.
  induction accounts as [| a accounts IH]; intros overflows Hov; simpl.
  - repeat split; auto. unfold excess. simpl. rewrite sum_nil. lra.
  - destruct (Qmax_0_spec (balance a - maxThreshold a)) as [[Hle Hmax] | [Hlt Hmax]].
    + destruct (Qgtb _ 0) eqn:Hc; cmp_facts; [lra |].
      destruct (IH overflows Hov) as (H1 & H2 & H3 & H4). simpl.
      repeat split; auto.
      * rewrite excess_cons. lra.
      * constructor; [now repeat split | exact H3].
      * constructor; [lra | exact H4].
    + destruct (Qgtb _ 0) eqn:Hc; cmp_facts; [| lra].
      assert (Hov' : values_nonneg
                       (JsMap.set overflows (id a)
                          (Qmax 0 (balance a - maxThreshold a))))
        by (apply set_values_nonneg; [exact Hov | apply Qmax_0_nonneg]).
      destruct (IH _ Hov') as (H1 & H2 & H3 & H4). simpl.
      repeat split; auto.
      * rewrite excess_cons.
        pose proof (set_sum_le overflows (id a)
                      (Qmax 0 (balance a - maxThreshold a)) Hov).
        lra.
      * constructor; [now repeat split | exact H3].
      * constructor; [simpl; lra | exact H4].
Qed.

Lemma calculateOverflow_spec (accounts : list Account) :
  let r := calculateOverflow accounts in
  values_nonneg (snd r)
  /\ sum (JsMap.values (snd r)) <= excess accounts
  /\ Forall2 same_account accounts (fst r)
  /\ Forall (fun a => balance a <= maxThreshold a) (fst r).
Proof.
  pose proof (calculateOverflow_from_spec accounts JsMap.empty) as H.
  unfold calculateOverflow. simpl in *.
  destruct H as (H1 & H2 & H3 & H4); [constructor |].
  repeat split; auto.
  change (sum []) with 0 in H2. lra.
Qed.

(** *** Phase 3 *)



Lemma add_balance_total (t : nat) (amount : number) (accounts : list Account) :
  (t < List.length accounts)%nat ->
  total_balance (add_balance t amount accounts) == total_balance accounts + amount.
Proof.
  unfold add_balance. revert t.
  induction accounts as [| a accounts IH]; intros t Ht; simpl in *.
  - lia.
  - destruct t as [| t]; simpl; repeat rewrite total_balance_cons; simpl.
    + lra.
    + rewrite (IH t) by lia. lra.
Qed.













End Rounds.

(** ** C10: the targeted entry point does not validate *)

Module TargetedProps.
Import FlowFunding DiscreteSpec Rounds.

Lemma targeted_overflow_from_accounts (accounts : list Account)
  (overflows : JsMap.t number) (total : number) :
  fst (fst (targeted_overflow_from accounts overflows total))
  = map clamp accounts.
Proof.
  revert overflows total.
  induction accounts as [| a accounts IH]; intros overflows total; simpl.
  - reflexivity.
  - unfold clamp at 1.
    destruct (Qgtb (Qmax 0 (balance a - maxThreshold a)) 0);
      simpl; now rewrite IH.
Qed.

(** The rounds only append to [iterations]. *)
Lemma targeted_rounds_iterations_app (left i : nat) (epsilon : number)
  (accounts : list Account) (iterations : list IterationResult) :
  targeted_rounds left i epsilon accounts iterations
  = let '(accounts', new, conv) :=
      targeted_rounds left i epsilon accounts [] in
    (accounts', iterations ++ new, conv).
Proof.
  revert i accounts iterations.
  induction left as [| left IH]; intros i accounts iterations; simpl.
  - now rewrite app_nil_r.
  - destruct (targeted_overflow_from accounts JsMap.empty 0)
      as [[accounts1 ovs] total].
    destruct (Qltb total epsilon); [reflexivity |].
    destruct (fold_left _ _ _) as [accounts2 fl].
    rewrite (IH _ _ (iterations ++ _)), (IH _ _ [_]).
    destruct (targeted_rounds left (S i) epsilon accounts2 [])
      as [[a new] c].
    now rewrite <- app_assoc.
Qed.

(** With distinct ids the running total of a round is the sum of the
    overflows it has recorded, as in [runDistribution]; an id that occurs
    twice is counted twice.  On [repeated_id] one round records a total of
    1.5 for the single entry of 0.75, does not converge at an epsilon of 1,
    and moves 0.75 to b. *)
Lemma runTargetedDistribution_counts_repeated_ids :
  let (accounts', result) := runTargetedDistribution repeated_id one_round in
  map (fun r => Qred (totalOverflow r)) (iterations result) = [3 # 2]
  /\ map (fun r => map (fun e => (fst e, Qred (snd e))) (overflows r))
         (iterations result)
     = [[("a"%string, 3 # 4)]]
  /\ result_converged result = false
  /\ map (fun a => Qred (balance a)) accounts' = [100; 100; 3 # 4].
Proof. vm_compute. repeat split. Qed.

(** C10.  [runTargetedDistribution] returns a [DistributionResult] for
    every account list: it has no validation step and no failure.  Its
    result starts from the balances it was given and, when at least one
    round is allowed, its first round records the clamped balances.  On
    the network [rejected], which makes [runDistribution] throw and leaves
    the accounts untouched there, it clamps account a to its maximum, moves
    overflow to b and returns a converged result. *)
Theorem runTargetedDistribution_never_validates :
  (forall accounts config,
      let (accounts', result) := runTargetedDistribution accounts config in
      initialBalances result = balance_map accounts
      /\ finalBalances result = balance_map accounts'
      /\ match cfg_maxIterations config with
         | O => iterations result = []
         | S _ => exists first rest,
                    iterations result = first :: rest
                    /\ balances first = balance_map (map clamp accounts)
         end)
  /\ valid (validateNetwork rejected) = false
  /\ snd (runDistribution rejected 0 no_config)
     = Thrown (errors (validateNetwork rejected))
  /\ fst (runDistribution rejected 0 no_config) = rejected
  /\ map (fun a => Qred (balance a))
         (fst (runTargetedDistribution rejected no_config)) = [100; 15]
  /\ result_converged (snd (runTargetedDistribution rejected no_config)) = true.
Proof.
  split; [| now vm_compute].
  intros accounts config. unfold runTargetedDistribution.
  destruct (targeted_rounds _ _ _ _ _) as [[accounts2 its] conv] eqn:Hr.
  cbn [initialBalances finalBalances iterations].
  split; [reflexivity | split; [reflexivity |]].
  destruct (cfg_maxIterations config) as [| left]; simpl in Hr.
  - now inversion Hr.
  - pose proof (targeted_overflow_from_accounts accounts JsMap.empty 0) as Hc.
    destruct (targeted_overflow_from accounts JsMap.empty 0)
      as [[acc1 ovs] total].
    simpl in Hc. subst acc1.
    destruct (Qltb total (cfg_epsilon config)).
    + inversion Hr; subst. eexists. exists []. split; reflexivity.
    + destruct (fold_left _ _ _) as [acc2 fl].
      rewrite targeted_rounds_iterations_app in Hr.
      destruct (targeted_rounds left 1 _ acc2 []) as [[a new] c].
      inversion Hr; subst. eexists. exists new. split; reflexivity.
Qed.

End TargetedProps.

(** ** C6: the recorded overflow never goes up *)

Module OverflowDecay.
Import FlowFunding DiscreteSpec Rounds.




End OverflowDecay.

(** ** C1: the remainder when no capacity is left *)

Module ZeroCapacity.

(** The tbff implementation splits the funds evenly whenever no capacity
    is left. *)
Lemma distributeByCapacity_even_split (network : Tbff.FlowFundingNetwork)
  (funding : number) :
  0 < funding ->
  sum (map (fun acc => Qmax 0 (Tbff.maxThreshold acc - Tbff.balance acc))
           (Tbff.accounts network)) == 0 ->
  map Tbff.balance (Tbff.accounts (Tbff.distributeByCapacity network funding))
  = map (fun acc => Tbff.balance acc
                    + funding / inject_Z (Z.of_nat (List.length (Tbff.accounts network))))
        (Tbff.accounts network).
Proof.
  intros Hf Hcap. unfold Tbff.distributeByCapacity.
  destruct (Qleb funding 0) eqn:Hle; cmp_facts; [lra |].
  rewrite (fold_left_plus_map
             (fun acc => Qmax 0 (Tbff.maxThreshold acc - Tbff.balance acc))).
  fold (sum (map (fun acc => Qmax 0 (Tbff.maxThreshold acc - Tbff.balance acc))
                 (Tbff.accounts network))).
  destruct (Qeqb _ 0) eqn:Hz; cmp_facts; [| contradiction].
  unfold Tbff.distributeEvenly. cbn [Tbff.accounts Tbff.calculateNetworkTotals
                                      Tbff.with_accounts].
  rewrite map_map. reflexivity.
Qed.

(** C1 at the input that separates the two implementations: one account at
    its maximum of 100 and a funding of 50.  Phase A of the discrete engine
    ([distributeInitial]) leaves the account at 100: the remainder of 50 is
    dropped.  The tbff implementation ([initialDistribution]) gives the
    account the whole remainder, 150, as the specification says. *)
Theorem distributeInitial_drops_remainder :
  FlowFunding.distributeInitial [DiscreteSpec.full_account] 50 = [DiscreteSpec.full_account]
  /\ map (fun acc => Qred (Tbff.balance acc))
         (Tbff.accounts (Tbff.initialDistribution TbffSpec.tbff_full_network 50))
     = [150].
Proof. split; vm_compute; reflexivity. Qed.

End ZeroCapacity.

(** ** C2: conservation *)

(** *** Maps with distinct keys *)

Module JsMapFacts.

Lemma get_set {V} (m : JsMap.t V) (k k' : string) (v : V) :
  JsMap.get (JsMap.set m k v) k'
  = if String.eqb k' k then Some v else JsMap.get m k'.
Proof.
  induction m as [| [k1 v1] m IH]; simpl.
  - reflexivity.
  - destruct (String.eqb k k1) eqn:E; simpl.
    + apply String.eqb_eq in E. subst k1.
      destruct (String.eqb k' k); reflexivity.
    + rewrite IH. destruct (String.eqb k' k1) eqn:E1; [| reflexivity].
      apply String.eqb_eq in E1. subst k1.
      destruct (String.eqb k' k) eqn:E2; [| reflexivity].
      apply String.eqb_eq in E2. subst k'.
      rewrite String.eqb_refl in E. discriminate.
Qed.

Lemma get_None_iff {V} (m : JsMap.t V) (k : string) :
  JsMap.get m k = None <-> ~ In k (JsMap.keys m).
Proof.
  unfold JsMap.keys. induction m as [| [k1 v1] m IH]; simpl.
  - tauto.
  - destruct (String.eqb k k1) eqn:E.
    + apply String.eqb_eq in E. subst k1. split; [discriminate | tauto].
    + apply String.eqb_neq in E. rewrite IH. split.
      * intros H [H1 | H1]; [congruence | tauto].
      * tauto.
Qed.

(** A key that is not in the map goes last. *)
Lemma set_fresh {V} (m : JsMap.t V) (k : string) (v : V) :
  ~ In k (JsMap.keys m) -> JsMap.set m k v = m ++ [(k, v)].
Proof.
  unfold JsMap.keys. induction m as [| [k1 v1] m IH]; simpl; intro H.
  - reflexivity.
  - destruct (String.eqb k k1) eqn:E.
    + apply String.eqb_eq in E. subst k1. tauto.
    + rewrite IH by tauto. reflexivity.
Qed.

(** With distinct keys, [new Map(entries)] holds the entries as they are. *)
Lemma of_entries_from {V} (es : list (string * V)) (m : JsMap.t V) :
  NoDup (JsMap.keys m ++ map fst es) ->
  fold_left (fun m e => JsMap.set m (fst e) (snd e)) es m = m ++ es.
Proof.
  revert m. induction es as [| [k v] es IH]; intros m Hnd; simpl.
  - now rewrite app_nil_r.
  - assert (Hk : ~ In k (JsMap.keys m)).
    { apply NoDup_remove_2 in Hnd. intro Hin. apply Hnd.
      apply in_or_app. now left. }
    rewrite (set_fresh m k v Hk), IH.
    + now rewrite <- app_assoc.
    + unfold JsMap.keys in *. rewrite map_app, <- app_assoc. exact Hnd.
Qed.

Lemma of_entries_nodup {V} (es : list (string * V)) :
  NoDup (map fst es) -> JsMap.of_entries es = es.
Proof.
  intro H. unfold JsMap.of_entries. now rewrite of_entries_from.
Qed.

(** What [new Map(entries)] holds at a key was one of the entries. *)
Lemma get_fold_set {V} (es : list (string * V)) (m : JsMap.t V)
  (k : string) (v : V) :
  JsMap.get (fold_left (fun m e => JsMap.set m (fst e) (snd e)) es m) k = Some v ->
  In (k, v) es \/ JsMap.get m k = Some v.
Proof.
  revert m. induction es as [| [k1 v1] es IH]; intros m H; simpl in *.
  - now right.
  - destruct (IH _ H) as [Hin | Hget]; [now left; right |].
    rewrite get_set in Hget.
    destruct (String.eqb k k1) eqn:E; [| now right].
    apply String.eqb_eq in E. subst k1. injection Hget as <-. now left; left.
Qed.

Lemma get_fold_set_Some {V} (es : list (string * V)) (m : JsMap.t V)
  (k : string) :
  In k (map fst es) \/ JsMap.get m k <> None ->
  JsMap.get (fold_left (fun m e => JsMap.set m (fst e) (snd e)) es m) k <> None.
Proof.
  revert m. induction es as [| [k1 v1] es IH]; intros m H; simpl in *.
  - tauto.
  - apply IH. rewrite get_set.
    destruct (String.eqb k k1) eqn:E; [right; discriminate |].
    apply String.eqb_neq in E.
    destruct H as [[H | H] | H]; [congruence | now left | now right].
Qed.

Lemma In_combine_seq {A} (l : list A) (start : nat) (x : A) (n : nat) :
  In (x, n) (combine l (seq start (List.length l))) ->
  (start <= n)%nat /\ nth_error l (n - start) = Some x.
Proof.
  revert start. induction l as [| a l IH]; intros start H; simpl in H.
  - contradiction.
  - destruct H as [[= <- <-] | H].
    + rewrite Nat.sub_diag. auto.
    + apply IH in H. destruct H as [Hle Hn]. split; [lia |].
      replace (n - start)%nat with (S (n - S start)) by lia. exact Hn.
Qed.

Lemma map_fst_combine_seq {A} (l : list A) (start : nat) :
  map fst (combine l (seq start (List.length l))) = l.
Proof.
  revert start. induction l as [| a l IH]; intro start; simpl.
  - reflexivity.
  - now rewrite IH.
Qed.

(** The reference kept for an id is the position of an object with that id. *)
Lemma ref_map_get (ids : list string) (k : string) (t : nat) :
  JsMap.get (ref_map ids) k = Some t -> nth_error ids t = Some k.
Proof.
  unfold ref_map, JsMap.of_entries. intro H.
  apply get_fold_set in H. destruct H as [H | H]; [| discriminate].
  apply In_combine_seq in H. rewrite Nat.sub_0_r in H. tauto.
Qed.

(** Every id of the array has a reference. *)
Lemma ref_map_has (ids : list string) (k : string) :
  In k ids -> exists t, JsMap.get (ref_map ids) k = Some t.
Proof.
  intro H. unfold ref_map, JsMap.of_entries.
  destruct (JsMap.get _ k) as [t |] eqn:E; [now exists t |].
  exfalso. revert E. apply get_fold_set_Some. left.
  now rewrite map_fst_combine_seq.
Qed.

End JsMapFacts.

Module Exact.
Import FlowFunding DiscreteSpec Rounds.

Lemma same_account_ids (l l' : list Account) :
  Forall2 same_account l l' -> map id l' = map id l.
Proof.
  induction 1 as [| a a' l l' (Hid & _) _ IH]; simpl; congruence.
Qed.

Lemma same_account_In_r (l l' : list Account) (a' : Account) :
  Forall2 same_account l l' -> In a' l' ->
  exists a, In a l /\ same_account a a'.
Proof.
  induction 1 as [| a b l l' Hab _ IH]; simpl; [contradiction |].
  intros [<- | Hin]; [exists a; auto |].
  destruct (IH Hin) as (x & Hx & Hs). exists x. auto.
Qed.

Lemma targets_exist_same (l l' : list Account) :
  Forall2 same_account l l' -> targets_exist l -> targets_exist l'.
Proof.
  intros Hs Ht a' e Ha' He.
  destruct (same_account_In_r _ _ _ Hs Ha') as (a & Ha & (_ & _ & _ & Hal)).
  rewrite (same_account_ids _ _ Hs). apply (Ht a e Ha). now rewrite <- Hal.
Qed.

Lemma allocates_same (l l' : list Account) (k : string) :
  Forall2 same_account l l' -> allocates l k -> allocates l' k.
Proof.
  intros Hs Hk a' Ha' Hid.
  destruct (same_account_In_r _ _ _ Hs Ha') as (a & Ha & (Hi & _ & _ & Hal)).
  unfold totalAllocation. rewrite Hal. apply (Hk a Ha). congruence.
Qed.

Lemma Forall2_same_refl (l : list Account) : Forall2 same_account l l.
Proof.
  induction l; constructor; auto using same_account_refl.
Qed.

Lemma Forall2_same_trans (l1 l2 l3 : list Account) :
  Forall2 same_account l1 l2 -> Forall2 same_account l2 l3 ->
  Forall2 same_account l1 l3.
Proof.
  intro H. revert l3. induction H; intros l3 H3; inversion H3; subst;
    constructor; eauto using same_account_trans.
Qed.

Lemma add_balance_same (t : nat) (amount : number) (l : list Account) :
  Forall2 same_account l (add_balance t amount l).
Proof.
  unfold add_balance. revert t.
  induction l as [| a l IH]; intro t; simpl.
  - destruct t; constructor.
  - destruct t as [| t]; constructor;
      auto using Forall2_same_refl, same_account_refl,
        same_account_set_balance.
Qed.

Lemma valid_targets_exist (accounts : list Account) :
  valid (validateNetwork accounts) = true -> targets_exist accounts.
Proof.
  intros Hv a [t p] Ha He. simpl.
  destruct (in_dec string_dec t (map id accounts)) as [Hin | Hout];
    [exact Hin | exfalso].
  assert (Hinv : valid (validateNetwork accounts) = false).
  { apply ValidatorProps.validateNetwork_invalid_iff. right. exists a.
    split; [exact Ha |]. left. do 5 right. left. exists t, p. auto. }
  congruence.
Qed.

(** *** Phase 2 with distinct ids *)

Lemma calculateOverflow_from_exact (l : list Account) (ovs : JsMap.t number) :
  NoDup (JsMap.keys ovs ++ map id l) ->
  let r := calculateOverflow_from l ovs in
  sum (JsMap.values (snd r)) == sum (JsMap.values ovs) + excess l
  /\ total_balance (fst r) + excess l == total_balance l
  /\ (forall k, In k (JsMap.keys (snd r)) ->
                In k (JsMap.keys ovs) \/ In k (map id l)).
Proof.
  revert ovs. induction l as [| a l IH]; intros ovs Hnd; simpl.
  - unfold excess, total_balance. simpl. change (sum []) with 0.
    repeat split; try lra. auto.
  - destruct (Qmax_0_spec (balance a - maxThreshold a)) as [[Hle E] | [Hlt E]].
    + destruct (Qgtb _ 0) eqn:Hc; cmp_facts; [lra |].
      destruct (IH ovs) as (H1 & H2 & H3).
      { simpl in Hnd. now apply NoDup_remove_1 in Hnd. }
      simpl. rewrite excess_cons, !total_balance_cons.
      split; [| split].
      * lra.
      * lra.
      * intros k Hk. destruct (H3 k Hk); auto.
    + destruct (Qgtb _ 0) eqn:Hc; cmp_facts; [| lra].
      assert (Hfresh : ~ In (id a) (JsMap.keys ovs)).
      { simpl in Hnd. apply NoDup_remove_2 in Hnd. intro Hin. apply Hnd.
        apply in_or_app. now left. }
      rewrite (JsMapFacts.set_fresh ovs _ _ Hfresh).
      destruct (IH (ovs ++ [(id a, Qmax 0 (balance a - maxThreshold a) : number)]))
        as (H1 & H2 & H3).
      { unfold JsMap.keys in *. rewrite map_app, <- app_assoc. exact Hnd. }
      simpl. rewrite excess_cons, !total_balance_cons. simpl.
      unfold JsMap.values in H1. rewrite map_app, sum_app in H1. simpl in H1.
      rewrite sum_cons in H1. change (sum []) with 0 in H1.
      split; [| split].
      * unfold JsMap.values. lra.
      * lra.
      * intros k Hk. destruct (H3 k Hk) as [Hin | Hin]; auto.
        unfold JsMap.keys in Hin. rewrite map_app in Hin.
        apply in_app_or in Hin. destruct Hin as [Hin | [<- | []]]; auto.
Qed.

(** *** Phase 3 when every source allocates and every target exists *)

Lemma share_cons_nz (overflow p rest total : number) :
  ~ total == 0 ->
  overflow * ((p + rest) / total)
  == overflow * (p / total) + overflow * (rest / total).
Proof. intro Ht. field. exact Ht. Qed.

Lemma transfers_exact (ids : list string) (sourceId : string)
  (overflow total : number) (entries : list (string * number))
  (st : list Account * JsMap.t number) :
  ~ total == 0 ->
  map id (fst st) = ids ->
  (forall e, In e entries -> In (fst e) ids) ->
  let st' := fold_left (transfer (ref_map ids) sourceId overflow total)
                       entries st in
  Forall2 same_account (fst st) (fst st')
  /\ total_balance (fst st')
     == total_balance (fst st) + overflow * (sum (map snd entries) / total).
Proof.
  intros Ht. revert st.
  induction entries as [| [t p] entries IH]; intros st Hids Hin; simpl.
  - split; [apply Forall2_same_refl |].
    change (sum []) with 0. unfold Qdiv. rewrite Qmult_0_l. lra.
  - rewrite sum_cons, share_cons_nz by exact Ht.
    destruct (JsMapFacts.ref_map_has ids t) as [target Hget];
      [apply (Hin (t, p)); now left |].
    rewrite Hget.
    assert (Hlt : (target < List.length (fst st))%nat).
    { apply JsMapFacts.ref_map_get in Hget.
      rewrite <- (length_map id), Hids. apply nth_error_Some. congruence. }
    pose proof (add_balance_same target (overflow * (p / total)) (fst st)) as Hs.
    destruct (IH (add_balance target (overflow * (p / total)) (fst st),
                  JsMap.set (snd st) (sourceId ++ "->" ++ t)%string
                            (overflow * (p / total)))) as [Hg He].
    { simpl. rewrite (same_account_ids _ _ Hs). exact Hids. }
    { intros e He. apply Hin. now right. }
    simpl in Hg, He. split; [eapply Forall2_same_trans; eauto |].
    rewrite He, (add_balance_total _ _ _ Hlt). lra.
Qed.

Lemma redistribute_from_exact (ids : list string)
  (st : list Account * JsMap.t number) (sourceId : string) (overflow : number) :
  map id (fst st) = ids ->
  targets_exist (fst st) ->
  In sourceId ids ->
  allocates (fst st) sourceId ->
  let st' := redistribute_from (ref_map ids) st (sourceId, overflow) in
  Forall2 same_account (fst st) (fst st')
  /\ total_balance (fst st') == total_balance (fst st) + overflow.
Proof.
  intros Hids Ht Hin Hal. unfold redistribute_from.
  destruct (JsMapFacts.ref_map_has ids sourceId Hin) as [s Hget].
  rewrite Hget. apply JsMapFacts.ref_map_get in Hget.
  rewrite <- Hids, nth_error_map in Hget.
  destruct (nth_error (fst st) s) as [source |] eqn:Hs; [| discriminate].
  simpl in Hget. injection Hget as Hid.
  pose proof (nth_error_In _ _ Hs) as Hsrc.
  pose proof (Hal source Hsrc Hid) as Hnz.
  destruct (Qeqb (totalAllocation source) 0) eqn:E; cmp_facts;
    [contradiction |].
  destruct (transfers_exact ids sourceId overflow (totalAllocation source)
              (JsMap.entries (allocations source)) st Hnz Hids) as [Hg He].
  { intros e He. rewrite <- Hids. now apply (Ht source e). }
  split; [exact Hg |]. rewrite He.
  unfold totalAllocation, JsMap.values, JsMap.entries in *.
  assert (Q : overflow * (sum (map snd (allocations source))
                          / sum (map snd (allocations source))) == overflow)
    by (field; exact Hnz).
  lra.
Qed.

Lemma redistributeOverflow_exact (l : list Account) (ovs : JsMap.t number) :
  targets_exist l ->
  (forall k, In k (JsMap.keys ovs) -> In k (map id l) /\ allocates l k) ->
  let r := redistributeOverflow l ovs in
  Forall2 same_account l (fst r)
  /\ total_balance (fst r) == total_balance l + sum (JsMap.values ovs).
Proof.
  intros Ht Hk. unfold redistributeOverflow.
  set (ids := map id l).
  assert (Hgen : forall entries (st : list Account * JsMap.t number),
             Forall2 same_account l (fst st) ->
             (forall e, In e entries -> In (fst e) ids /\ allocates l (fst e)) ->
             let st' := fold_left (redistribute_from (ref_map ids)) entries st in
             Forall2 same_account l (fst st')
             /\ total_balance (fst st')
                == total_balance (fst st) + sum (map snd entries)).
  { induction entries as [| [sid o] entries IH]; intros st Hs He;
      cbn [fold_left map snd].
    - split; [exact Hs |]. change (sum []) with 0. lra.
    - destruct (He (sid, o) (or_introl eq_refl)) as [Hin Hal]. simpl in Hin, Hal.
      destruct (redistribute_from_exact ids st sid o) as [H1 H2]; auto.
      + now apply same_account_ids.
      + eapply targets_exist_same; eauto.
      + eapply allocates_same; eauto.
      + destruct (IH (redistribute_from (ref_map ids) st (sid, o))) as [H3 H4].
        * eapply Forall2_same_trans; eauto.
        * intros e Hin'. apply He. now right.
        * split; [exact H3 |]. rewrite H4, H2, sum_cons. lra. }
  destruct (Hgen (JsMap.entries ovs) (l, JsMap.empty)) as [H1 H2].
  - apply Forall2_same_refl.
  - intros e He. apply Hk. unfold JsMap.keys, JsMap.entries in *.
    now apply in_map.
  - split; [exact H1 |]. exact H2.
Qed.

End Exact.

Module ExactRounds.
Import FlowFunding DiscreteSpec Rounds Exact.

Lemma overflowing_allocate_same (l l' : list Account)
  (its : list IterationResult) :
  Forall2 same_account l l' ->
  overflowing_allocate l its -> overflowing_allocate l' its.
Proof.
  intros Hs H it k a' Hit Hk Ha' Hid.
  destruct (same_account_In_r _ _ _ Hs Ha') as (a & Ha & (Hi & _ & _ & Hal)).
  unfold totalAllocation. rewrite Hal. apply (H it k a Hit Hk Ha). congruence.
Qed.

Lemma balance_map_total (l : list Account) :
  NoDup (map id l) ->
  sum (JsMap.values (balance_map l)) = total_balance l.
Proof.
  intro Hnd. unfold balance_map, total_balance, JsMap.values.
  rewrite JsMapFacts.of_entries_nodup, map_map; [reflexivity |].
  now rewrite map_map.
Qed.

Lemma rounds_conserve (left i : nat) (epsilon : number) (l : list Account) :
  NoDup (map id l) ->
  targets_exist l ->
  overflowing_allocate l (snd (fst (rounds left i epsilon l []))) ->
  Forall (conserved (total_balance l)) (snd (fst (rounds left i epsilon l []))).
Proof.
  revert i l. induction left as [| left IH]; intros i l Hnd Ht; simpl;
    [constructor |].
  pose proof (calculateOverflow_from_exact l JsMap.empty Hnd) as He.
  pose proof (calculateOverflow_spec l) as Hc.
  unfold calculateOverflow in *.
  destruct (calculateOverflow_from l JsMap.empty) as [l1 ovs].
  simpl in He, Hc. destruct He as (Hsum & Htot & Hkeys).
  destruct Hc as (_ & _ & Hsame & _).
  change (sum []) with 0 in Hsum.
  pose proof (same_account_ids _ _ Hsame) as Hids.
  assert (Hnd1 : NoDup (map id l1)) by now rewrite Hids.
  assert (Hrec : conserved (total_balance l)
                   {| iteration := i; balances := balance_map l1;
                      overflows := ovs;
                      totalOverflow := sum (JsMap.values ovs);
                      flows := JsMap.empty;
                      converged := Qltb (sum (JsMap.values ovs)) epsilon |}).
  { unfold conserved; simpl. rewrite (balance_map_total l1 Hnd1). lra. }
  destruct (Qltb (sum (JsMap.values ovs)) epsilon); simpl.
  - intros _. constructor; [exact Hrec | constructor].
  - pose proof (redistributeOverflow_exact l1 ovs) as Hr.
    destruct (redistributeOverflow l1 ovs) as [l2 fl].
    rewrite rounds_iterations_app.
    specialize (IH (S i) l2).
    destruct (rounds left (S i) epsilon l2 []) as [[a new] c].
    simpl in *. intro Hall.
    assert (Ht1 : targets_exist l1) by (eapply targets_exist_same; eauto).
    destruct Hr as [Hs2 Htot2]; [exact Ht1 | |].
    { intros k Hk. split.
      - rewrite Hids. destruct (Hkeys k Hk) as [[] | Hin]. exact Hin.
      - apply (allocates_same l l1 k Hsame). intros x Hx Hid Hz.
        assert (Hge : 100 <= totalAllocation x).
        { refine (Hall _ k x (or_introl eq_refl) _ Hx Hid). exact Hk. }
        lra. }
    pose proof (Forall2_same_trans _ _ _ Hsame Hs2) as Hs.
    constructor; [exact Hrec |].
    assert (Etot : total_balance l2 == total_balance l) by lra.
    eapply Forall_impl; [| apply IH].
    + intros it Hit. unfold conserved in *. lra.
    + now rewrite (same_account_ids _ _ Hs).
    + eapply targets_exist_same; eauto.
    + apply (overflowing_allocate_same l l2 _ Hs).
      intros it k x Hit. apply (Hall it k x). now right.
Qed.

End ExactRounds.

Module ExactInitial.
Import FlowFunding DiscreteSpec Rounds.

Lemma collect_snd (g : Account -> number) (l : list Account)
  (t0 : number) (m0 : JsMap.t number) :
  NoDup (JsMap.keys m0 ++ map id l) ->
  snd (collect g l (t0, m0)) = m0 ++ entries_of g l.
Proof.
  revert t0 m0. induction l as [| a l IH]; intros t0 m0 Hnd; simpl.
  - now rewrite app_nil_r.
  - simpl in Hnd. destruct (Qgtb (g a) 0); simpl.
    + assert (Hfresh : ~ In (id a) (JsMap.keys m0)).
      { apply NoDup_remove_2 in Hnd. intro Hin. apply Hnd.
        apply in_or_app. now left. }
      rewrite (JsMapFacts.set_fresh m0 _ _ Hfresh).
      rewrite IH.
      * now rewrite <- app_assoc.
      * unfold JsMap.keys in *. rewrite map_app, <- app_assoc. exact Hnd.
    + apply IH. now apply NoDup_remove_1 in Hnd.
Qed.

Lemma collect_fst (g : Account -> number) (l : list Account)
  (t0 : number) (m0 : JsMap.t number) :
  fst (collect g l (t0, m0))
  == t0 + sum (map (fun a => if Qgtb (g a) 0 then g a else 0) l).
Proof.
  revert t0 m0. induction l as [| a l IH]; intros t0 m0; simpl.
  - change (sum []) with 0. lra.
  - rewrite sum_cons.
    destruct (Qgtb (g a) 0); simpl; rewrite IH; lra.
Qed.

Lemma keys_entries_of (g : Account -> number) (l : list Account) (k : string) :
  In k (JsMap.keys (entries_of g l)) -> In k (map id l).
Proof.
  unfold JsMap.keys, entries_of. induction l as [| a l IH]; simpl; [auto |].
  rewrite map_app, in_app_iff. intros [H | H]; [| auto].
  destruct (Qgtb (g a) 0); simpl in H; [| contradiction].
  destruct H as [H | []]. now left.
Qed.

Lemma get_entries_of (g : Account -> number) (l : list Account) (a : Account) :
  NoDup (map id l) -> In a l ->
  JsMap.get (entries_of g l) (id a)
  = if Qgtb (g a) 0 then Some (g a) else None.
Proof.
  induction l as [| a0 l IH]; simpl; [contradiction |].
  intros Hnd Hin. inversion Hnd as [| ? ? Hout Hnd']; subst.
  change (entries_of g (a0 :: l))
    with ((if Qgtb (g a0) 0 then [(id a0, g a0)] else []) ++ entries_of g l).
  destruct Hin as [-> | Hin].
  - destruct (Qgtb (g a) 0); simpl.
    + now rewrite String.eqb_refl.
    + apply JsMapFacts.get_None_iff. intro Hk. apply Hout.
      now apply (keys_entries_of g).
  - assert (Hne : String.eqb (id a) (id a0) = false).
    { apply String.eqb_neq. intro E. apply Hout. rewrite <- E.
      now apply in_map. }
    destruct (Qgtb (g a0) 0); simpl; rewrite ?Hne; now apply IH.
Qed.

(** With distinct ids, what the map holds for an account is its own amount. *)
Lemma get_or_0_collect (g : Account -> number) (l : list Account) (a : Account) :
  NoDup (map id l) -> In a l ->
  let M := snd (collect g l (0, JsMap.empty)) in
  Qgtb (get_or_0 M (id a)) 0 = Qgtb (g a) 0
  /\ (Qgtb (g a) 0 = true -> get_or_0 M (id a) = g a).
Proof.
  intros Hnd Hin. cbv zeta.
  rewrite (collect_snd g l 0 JsMap.empty) by exact Hnd. simpl.
  unfold get_or_0. rewrite (get_entries_of g l a Hnd Hin).
  destruct (Qgtb (g a) 0) eqn:E; split; auto; discriminate.
Qed.

Lemma total_cond_map (c : Account -> bool) (nb : Account -> number)
  (l : list Account) :
  total_balance (map (fun a => if c a then set_balance a (nb a) else a) l)
  == total_balance l
     + sum (map (fun a => if c a then nb a - balance a else 0) l).
Proof.
  induction l as [| a l IH]; simpl.
  - unfold total_balance. simpl. change (sum []) with 0. lra.
  - rewrite !total_balance_cons, sum_cons, IH.
    destruct (c a); simpl; lra.
Qed.

Lemma sum_map_eq {A} (f f' : A -> number) (l : list A) :
  (forall a, In a l -> f a == f' a) -> sum (map f l) == sum (map f' l).
Proof.
  induction l as [| a l IH]; intro H; simpl; [reflexivity |].
  rewrite !sum_cons, (H a) by (simpl; auto).
  rewrite IH; [reflexivity |]. intros x Hx. apply H. simpl. auto.
Qed.

Lemma sum_map_scale {A} (f : A -> number) (k : number) (l : list A) :
  sum (map (fun a => f a * k) l) == sum (map f l) * k.
Proof.
  induction l as [| a l IH]; simpl.
  - change (sum []) with 0. lra.
  - rewrite !sum_cons, IH. lra.
Qed.

(** The map of a proportional distribution, read off the accounts. *)
Lemma proportional_total (g : Account -> number) (l : list Account)
  (total amount : number) :
  NoDup (map id l) ->
  ~ total == 0 ->
  total == sum (map (fun a => if Qgtb (g a) 0 then g a else 0) l) ->
  let M := snd (collect g l (0, JsMap.empty)) in
  total_balance
    (map (fun account =>
            if Qgtb (get_or_0 M (id account)) 0
            then set_balance account
                   (balance account
                    + get_or_0 M (id account) / total * amount)
            else account) l)
  == total_balance l + amount.
Proof.
  intros Hnd Hnz Htot M.
  rewrite (map_ext_in _
             (fun a => if Qgtb (g a) 0
                       then set_balance a (balance a + g a / total * amount)
                       else a)).
  - rewrite total_cond_map.
    rewrite (sum_map_eq _ (fun a => (if Qgtb (g a) 0 then g a else 0)
                                    * (amount / total))).
    + rewrite sum_map_scale, <- Htot. field. exact Hnz.
    + intros a _. destruct (Qgtb (g a) 0); field; exact Hnz.
  - intros a Ha. destruct (get_or_0_collect g l a Hnd Ha) as [E1 E2].
    fold M in E1, E2. rewrite E1.
    destruct (Qgtb (g a) 0); [now rewrite E2 | reflexivity].
Qed.

Lemma positive_part_of_max (x : number) :
  (if Qgtb (Qmax 0 x) 0 then Qmax 0 x else 0) == Qmax 0 x.
Proof.
  destruct (Qgtb (Qmax 0 x) 0) eqn:E; cmp_facts; [reflexivity |].
  pose proof (Qmax_0_nonneg x). lra.
Qed.

(** Phase A places all the funding, except in the dropped case. *)
Lemma distributeInitial_conserves (l : list Account) (funding : number) :
  NoDup (map id l) ->
  0 <= funding ->
  ~ remainder_dropped l funding ->
  total_balance (distributeInitial l funding) == total_balance l + funding.
Proof.
  intros Hnd Hf Hdrop. unfold distributeInitial.
  set (shortfall := fun a => Qmax 0 (minThreshold a - balance a)).
  set (capacity := fun a => Qmax 0 (maxThreshold a - balance a)).
  change (min_shortfalls l)
    with (collect shortfall l (0, JsMap.empty)).
  pose proof (collect_fst shortfall l 0 JsMap.empty) as HT.
  pose proof (proportional_total shortfall l) as Hprop.
  pose proof (get_or_0_collect shortfall l) as Hget.
  destruct (collect shortfall l (0, JsMap.empty)) as [T M].
  simpl in HT, Hprop, Hget.
  assert (HTs : T == total_shortfall l).
  { rewrite HT, Qplus_0_l. unfold total_shortfall. apply sum_map_eq.
    intros a _. apply positive_part_of_max. }
  destruct (Qltb funding T) eqn:E1; cmp_facts.
  - apply Hprop; [exact Hnd | lra | lra].
  - set (fill := fun a => if Qgtb (shortfall a) 0
                          then set_balance a (minThreshold a) else a).
    rewrite (map_ext_in _ fill).
    2:{ intros a Ha. destruct (Hget a Hnd Ha) as [Eb _]. unfold fill.
        now rewrite Eb. }
    assert (Hfill : total_balance (map fill l) == total_balance l + T).
    { unfold fill. rewrite total_cond_map, HT, Qplus_0_l.
      apply Qplus_inj_l. apply sum_map_eq. intros a _.
      destruct (Qgtb (shortfall a) 0) eqn:E; cmp_facts; [| reflexivity].
      unfold shortfall in *.
      destruct (Qmax_0_spec (minThreshold a - balance a)) as [[? Em] | [? Em]];
        rewrite Em in *; lra. }
    destruct (Qleb (funding - T) 0) eqn:E2; cmp_facts; [lra |].
    assert (Hnd1 : NoDup (map id (map fill l))).
    { rewrite map_map. rewrite (map_ext _ id); [exact Hnd |].
      intro a. unfold fill. now destruct (Qgtb (shortfall a) 0). }
    change (capacities (map fill l))
      with (collect capacity (map fill l) (0, JsMap.empty)).
    pose proof (collect_fst capacity (map fill l) 0 JsMap.empty) as HC.
    pose proof (proportional_total capacity (map fill l)) as Hprop2.
    destruct (collect capacity (map fill l) (0, JsMap.empty))
      as [C K].
    simpl in HC, Hprop2.
    destruct (Qeqb C 0) eqn:E3; cmp_facts.
    + exfalso. apply Hdrop. split; [lra |].
      rewrite <- E3, HC, Qplus_0_l, map_map. unfold capacity_after_fill.
      apply sum_map_eq. intros a _.
      unfold capacity, fill, shortfall. cbv beta.
      rewrite positive_part_of_max.
      destruct (Qgtb (Qmax 0 (minThreshold a - balance a)) 0) eqn:E;
        cmp_facts; simpl;
        destruct (Qmax_0_spec (minThreshold a - balance a)) as [[? Em] | [? Em]];
        rewrite Em in E; try lra.
      * rewrite (Q.max_r (balance a) (minThreshold a)) by lra. reflexivity.
      * rewrite (Q.max_l (balance a) (minThreshold a)) by lra. reflexivity.
    + rewrite Hprop2; [lra | exact Hnd1 | exact E3 | lra].
Qed.

End ExactInitial.

(** *** The rounds of [runDistribution] *)

Module Conservation.
Import FlowFunding DiscreteSpec Rounds Exact ExactRounds ExactInitial.

(** Conservation as the specification states it, away from the dropped case:
    for an accepted network with distinct ids and a non-negative funding,
    when Phase A does not drop the remainder and every account that
    overflows in some round has weights summing to 100 or more, every round
    records balances which, with the overflow in transit, add up to the
    initial balances plus the funding. *)
Theorem runDistribution_conserves (accounts accounts' : list Account)
  (funding : number) (config : DistributionConfig) (result : DistributionResult) :
  runDistribution accounts funding config = (accounts', Returned result) ->
  NoDup (map id accounts) ->
  0 <= funding ->
  ~ remainder_dropped accounts funding ->
  overflowing_allocate accounts (iterations result) ->
  sum (JsMap.values (initialBalances result)) == total_balance accounts
  /\ Forall (conserved (total_balance accounts + funding)) (iterations result).
Proof.
  unfold runDistribution.
  destruct (valid (validateNetwork accounts)) eqn:Hv; cbn [negb];
    [| discriminate].
  intros Hrun Hnd Hf Hdrop Hall.
  pose proof (distributeInitial_same accounts funding) as Hsame.
  pose proof (distributeInitial_conserves accounts funding Hnd Hf Hdrop) as Htot.
  pose proof (rounds_conserve (cfg_maxIterations config) 0 (cfg_epsilon config)
                (distributeInitial accounts funding)) as Hr.
  destruct (rounds _ _ _ _ _) as [[accounts2 its] conv].
  injection Hrun as <- <-. simpl in *.
  split; [now rewrite balance_map_total |].
  eapply Forall_impl; [| apply Hr].
  - intros it Hit. unfold conserved in *. lra.
  - now rewrite (same_account_ids _ _ Hsame).
  - eapply targets_exist_same; [exact Hsame |]. now apply valid_targets_exist.
  - eapply overflowing_allocate_same; eauto.
Qed.

Lemma runDistribution_conserves_witness :
  exists accounts' result,
    runDistribution pair_network 40 no_config
    = (accounts', Returned result)
    /\ Forall (conserved (total_balance pair_network + 40))
              (iterations result).
Proof.
  do 2 eexists. split; [vm_compute; reflexivity |].
  eapply (runDistribution_conserves pair_network _ 40 no_config).
  - vm_compute; reflexivity.
  - repeat constructor; simpl; intuition discriminate.
  - discriminate.
  - intros [_ H]. vm_compute in H. discriminate.
  - intros it k a _ _ [<- | [<- | []]] _; apply Qle_bool_iff; vm_compute;
      reflexivity.
Defined.

(** C2 at the same input: a valid network of one account at its maximum of
    100, which never overflows, and a funding of 50.  Every recorded round
    holds balances of 100 and no overflow in transit, while the initial
    balances plus the funding are 150. *)
Theorem runDistribution_loses_remainder :
  exists result,
    runDistribution [full_account] 50 no_config
    = ([full_account], Returned result)
    /\ iterations result <> []
    /\ Forall (fun it => overflows it = []
                         /\ sum (JsMap.values (balances it)) + totalOverflow it
                            == 100)
              (iterations result)
    /\ sum (JsMap.values (initialBalances result)) + totalFunding result == 150.
Proof.
  eexists. split; [vm_compute; reflexivity |].
  cbn [iterations initialBalances totalFunding].
  split; [discriminate |].
  split; [repeat constructor |].
  reflexivity.
Qed.

End Conservation.

(** ** C7: scaling the allocation weights *)

(** *** Numbers that are equal as rationals *)

#[export] Instance Qltb_proper : Proper (Qeq ==> Qeq ==> eq) Qltb.
Proof. intros x x' Hx y y' Hy. unfold Qltb. now rewrite Hx, Hy. Qed.

#[export] Instance Qgtb_proper : Proper (Qeq ==> Qeq ==> eq) Qgtb.
Proof. intros x x' Hx y y' Hy. unfold Qgtb. now rewrite Hx, Hy. Qed.

#[export] Instance Qgeb_proper : Proper (Qeq ==> Qeq ==> eq) Qgeb.
Proof. intros x x' Hx y y' Hy. unfold Qgeb. now rewrite Hx, Hy. Qed.

#[export] Instance Qleb_proper : Proper (Qeq ==> Qeq ==> eq) Qleb.
Proof. intros x x' Hx y y' Hy. unfold Qleb. now rewrite Hx, Hy. Qed.

#[export] Instance Qeqb_proper : Proper (Qeq ==> Qeq ==> eq) Qeqb.
Proof. intros x x' Hx y y' Hy. unfold Qeqb. now rewrite Hx, Hy. Qed.

Module SameNumbersFacts.
Import SameNumbers.







End SameNumbersFacts.

(** *** The discrete engine on scaled weights *)

Module ScalingDiscrete.
Import FlowFunding SameNumbers SameNumbersFacts DiscreteSpec.

Section Scaled.
Variable c : number.
Hypothesis c_pos : 0 < c.





















End Scaled.

End ScalingDiscrete.

(** *** The continuous engine on scaled weights *)

Module ScalingContinuous.
Import FlowV2 SameNumbers SameNumbersFacts ContinuousSpec.

Section Scaled.
Variable c : number.
Hypothesis c_pos : 0 < c.


















End Scaled.

End ScalingContinuous.

(** *** C7 *)

(** ** What rounding does to C6 and C7 *)

Module Binary64Props.
Import Floats.PrimFloat FlowFunding64 Binary64Spec.
#[local] Set Warnings "-inexact-float".
Local Open Scope float_scope.

(** The engine as it computes, on [circle]: the network is accepted, every
    weight sum is exactly 100, and the three rounds record these totals.
    The shares of an overflow are rounded one by one, and so is every
    balance they are added to: the third total is above the second. *)
Lemma circle_totalOverflow :
  valid (validateNetwork circle) = true
  /\ map totalAllocation circle = [100; 100; 100]
  /\ match snd (runDistribution circle 0 three_rounds) with
     | Returned result =>
         map totalOverflow (iterations result)
         = [0.09999999999999432; 0.09999999999999432; 0.10000000000002274]
     | Thrown _ => False
     end.
Proof. vm_compute. repeat split. Qed.


(** The engine as it computes, on [fan] and on [fan] with every weight
    multiplied by 0.7: both networks are accepted, the scaled weights are 7
    and 62.99999999999999 and sum to 70, and the flow from a to c is 45 with
    the original weights and 44.99999999999999 with the scaled ones. *)
Lemma fan_flows :
  let scaled := map (scale_weights 0.7) fan in
  valid (validateNetwork fan) = true
  /\ valid (validateNetwork scaled) = true
  /\ map allocations scaled
     = [[("b"%string, 7); ("c"%string, 62.99999999999999)]; []; []]
  /\ map totalAllocation scaled = [70; 0; 0]
  /\ match snd (runDistribution fan 0 no_config),
           snd (runDistribution scaled 0 no_config) with
     | Returned result, Returned result' =>
         first_flow result "a->c" = Some 45
         /\ first_flow result' "a->c" = Some 44.99999999999999
         /\ finalBalances result
            = [("a"%string, 100); ("b"%string, 5); ("c"%string, 45)]
         /\ finalBalances result'
            = [("a"%string, 100); ("b"%string, 5);
               ("c"%string, 44.99999999999999)]
     | _, _ => False
     end.
Proof. vm_compute. repeat split. Qed.


End Binary64Props.

Module NormalizationInvariance.





End NormalizationInvariance.

(** * Further properties

    What the functions do that the statements above leave open: the zones
    of the continuous engine and the result of its fixed-point iteration,
    tbff's initial distribution, normalization and page handlers, and the
    rounds that the discrete engine records. *)

(** ** The continuous engine: zones *)

Module ZoneProps.
Import FlowV2 ZoneSpec.

Lemma calculateOutflow_nonneg (node : FlowNode) :
  thresholds_ok node -> 0 <= calculateOutflow node.
Proof.
  intros [H0 Hle]. unfold calculateOutflow. cbv zeta.
  case_cmp; [lra |]. case_cmp; [lra |]. case_cmp; [lra |].
  apply Qmult_le_0_compat; [| lra].
  apply Qle_shift_div_l; lra.
Qed.

(** The zone that [getFlowZone] reports is the branch that
    [calculateOutflow] takes.  For thresholds that [validateNetwork]
    accepts the outflow is never negative; it is 0 in the deficit zone, at
    most half the maximum in the building zone, and the inflow less the
    maximum in the capacity zone. *)
Theorem getFlowZone_outflow (node : FlowNode) :
  thresholds_ok node ->
  0 <= calculateOutflow node
  /\ match getFlowZone node with
     | deficit => calculateOutflow node = 0
     | building => calculateOutflow node <= (5 # 10) * maxThreshold node
     | capacity =>
         calculateOutflow node = or0 (totalInflow node) - maxThreshold node
     end.
Proof.
  intros Hok. split; [now apply calculateOutflow_nonneg |].
  destruct Hok as [H0 Hle]. unfold getFlowZone, calculateOutflow. cbv zeta.
  set (t := or0 (totalInflow node)).
  set (mn := minThreshold node) in *. set (mx := maxThreshold node) in *.
  destruct (Qltb t mn) eqn:H1; cmp_facts; [reflexivity |].
  unfold Qgeb. unfold Qltb at 1.
  destruct (Qle_bool ((15 # 10) * mx) t) eqn:H2; cbn [negb]; [reflexivity |].
  assert (Ht : t < (15 # 10) * mx).
  { apply Qnot_le_lt. intro Hc. apply Qle_bool_iff in Hc. congruence. }
  destruct (Qeqb ((15 # 10) * mx - mn) 0) eqn:H3; cmp_facts; [lra |].
  assert (HR : 0 < (15 # 10) * mx - mn) by lra.
  assert (Hk : (t - mn) / ((15 # 10) * mx - mn) <= 1)
    by (apply Qle_shift_div_r; lra).
  assert (Hk0 : 0 <= (t - mn) / ((15 # 10) * mx - mn))
    by (apply Qle_shift_div_l; lra).
  nra.
Qed.

Lemma getFlowZone_outflow_witness :
  0 <= calculateOutflow (set_totalInflow ContinuousSpec.sample_node 250)
  /\ calculateOutflow (set_totalInflow ContinuousSpec.sample_node 250)
     <= (5 # 10) * 200.
Proof.
  destruct (getFlowZone_outflow
              (set_totalInflow ContinuousSpec.sample_node 250)) as [H0 Hz].
  - split; vm_compute; discriminate.
  - split; [exact H0 | exact Hz].
Defined.

(** [calculateOutflow] is the function of the three zones that its comment
    describes: the branch for an empty building zone
    ([buildingRange === 0]) is never taken, because an inflow that is
    neither below the minimum nor at or above 1.5 times the maximum lies in
    a zone that is not empty. *)
Theorem calculateOutflow_three_zones (node : FlowNode) :
  calculateOutflow node = three_zones node.
Proof.
  unfold calculateOutflow, three_zones. cbv zeta.
  case_cmp; [reflexivity |].
  case_cmp; [reflexivity |].
  case_cmp; [lra | reflexivity].
Qed.

End ZoneProps.

(** ** The continuous engine: the result of [calculateSteadyState] *)

Module SteadyFacts.
Import FlowV2 ContinuousSpec ZoneSpec SteadySpec JsMapFacts.

Lemma apply_inflows_fst (m : JsMap.t number) (nodes : list FlowNode)
  (c : number) :
  fst (apply_inflows m nodes c)
  = map (fun node => set_totalInflow node (or0 (JsMap.get m (id node)))) nodes.
Proof.
  revert c. induction nodes as [| n nodes IH]; intro c; cbn.
  - reflexivity.
  - now rewrite IH.
Qed.

Lemma iterate_cases (left : nat) (epsilon : number) (nodeMap : JsMap.t nat)
  (P : list FlowNode -> Prop) :
  (forall l, P l -> P (turn nodeMap l)) ->
  forall nodes its, P nodes ->
    P (fst (fst (iterate left epsilon nodeMap nodes its))).
Proof.
  intro Hturn. induction left as [| left IH]; intros nodes its HP; cbn.
  - exact HP.
  - pose proof (Hturn nodes HP) as HP'. unfold turn in HP'. cbv zeta in HP'.
    destruct (apply_inflows _ _ 0) as [nodes2 maxChange]. cbn [fst] in HP'.
    destruct (Qltb maxChange epsilon); [exact HP' | now apply IH].
Qed.

Lemma iterate_count (left : nat) (epsilon : number) (nodeMap : JsMap.t nat)
  (nodes : list FlowNode) (its : nat) :
  let r := iterate left epsilon nodeMap nodes its in
  (snd r <= its + left)%nat
  /\ (snd (fst r) = false -> snd r = (its + left)%nat)
  /\ (snd (fst r) = true -> (its < snd r)%nat).
Proof.
  revert nodes its. induction left as [| left IH]; intros nodes its; cbn.
  - repeat split; intros; try lia; discriminate.
  - destruct (apply_inflows _ _ 0) as [nodes2 maxChange].
    destruct (Qltb maxChange epsilon); cbn.
    + repeat split; intros; try lia; discriminate.
    + specialize (IH nodes2 (S its)). cbv zeta in IH.
      destruct IH as (H1 & H2 & H3).
      split; [lia |]. split; intro H.
      * rewrite (H2 H). lia.
      * specialize (H3 H). lia.
Qed.

Lemma same_inputs_refl (n : FlowNode) : same_inputs n n.
Proof. unfold same_inputs. tauto. Qed.

Lemma same_inputs_trans (a b c : FlowNode) :
  same_inputs a b -> same_inputs b c -> same_inputs a c.
Proof. unfold same_inputs. intuition congruence. Qed.

Lemma Forall2_same_inputs_map (f : FlowNode -> FlowNode) (l : list FlowNode) :
  (forall n, same_inputs n (f n)) -> Forall2 same_inputs l (map f l).
Proof.
  intro H. induction l; cbn; constructor; auto.
Qed.

Lemma Forall2_same_inputs_refl (l : list FlowNode) :
  Forall2 same_inputs l l.
Proof.
  induction l; constructor; auto using same_inputs_refl.
Qed.

Lemma Forall2_same_inputs_trans (l1 l2 l3 : list FlowNode) :
  Forall2 same_inputs l1 l2 -> Forall2 same_inputs l2 l3 ->
  Forall2 same_inputs l1 l3.
Proof.
  intro H. revert l3. induction H; intros l3 H3; inversion H3; subst;
    constructor; eauto using same_inputs_trans.
Qed.

Lemma turn_same_inputs (nodeMap : JsMap.t nat) (l : list FlowNode) :
  Forall2 same_inputs l (turn nodeMap l).
Proof.
  unfold turn. cbv zeta. rewrite apply_inflows_fst, map_map.
  apply Forall2_same_inputs_map. intro n. unfold same_inputs. cbn. tauto.
Qed.

Lemma iterate_same_inputs (left : nat) (epsilon : number)
  (nodeMap : JsMap.t nat) (nodes : list FlowNode) (its : nat) :
  Forall2 same_inputs nodes (fst (fst (iterate left epsilon nodeMap nodes its))).
Proof.
  apply (iterate_cases left epsilon nodeMap
           (fun l => Forall2 same_inputs nodes l)).
  - intros l Hl. eapply Forall2_same_inputs_trans; [exact Hl |].
    apply turn_same_inputs.
  - apply Forall2_same_inputs_refl.
Qed.

Lemma valid_node_ok (nodes : list FlowNode) :
  valid (validateNetwork nodes) = true ->
  nodes <> [] /\ Forall (node_ok (map id nodes)) nodes.
Proof.
  intro Hv.
  assert (Hn : ~ (nodes = []
                  \/ exists n, In n nodes
                       /\ (node_listed_fatal (map id nodes) n
                           \/ node_weight_out_of_range n))).
  { intro H. apply ValidatorProps.node_validateNetwork_invalid_iff in H.
    congruence. }
  split; [tauto |].
  apply Forall_forall. intros n Hin.
  assert (Hf : ~ node_listed_fatal (map id nodes) n) by
    (intro; apply Hn; right; exists n; tauto).
  assert (Hw : ~ node_weight_out_of_range n) by
    (intro; apply Hn; right; exists n; tauto).
  unfold node_listed_fatal in Hf. unfold node_ok.
  repeat split; try (apply Qnot_lt_le; tauto).
  - apply Qnot_lt_le. intro. apply Hw. exists t, p. tauto.
  - apply Qnot_lt_le. intro. apply Hw. exists t, p. tauto.
  - destruct (in_dec string_dec t (map id nodes)) as [Hi | Hi]; [exact Hi |].
    exfalso. apply Hf. do 5 right. left. exists t, p. tauto.
  - intros ->. apply Hf. do 4 right. left. exists p. assumption.
Qed.

Lemma inflow_over_app (l1 l2 : list FlowEdge) (k : string) :
  inflow_over (l1 ++ l2) k == inflow_over l1 k + inflow_over l2 k.
Proof.
  unfold inflow_over. rewrite filter_app, map_app. apply sum_app.
Qed.

(** The edges pushed for the entries of one source. *)
Lemma edges_of_entries (source : FlowNode) :
  0 < or0 (totalOutflow source) -> 0 < totalAllocation source ->
  edges_of source
  = flat_map
      (fun entry : string * number =>
         if Qgtb (or0 (totalOutflow source)
                  * (snd entry / totalAllocation source)) 0
         then [ {| FlowV2.source := id source; target := fst entry;
                   flowRate := or0 (totalOutflow source)
                               * (snd entry / totalAllocation source);
                   percentage := snd entry |} ]
         else [])
      (allocations source).
Proof.
  intros Ho Ht. unfold edges_of. cbv zeta.
  rewrite (proj2 (Qgtb_true _ _) Ho), (proj2 (Qgtb_true _ _) Ht).
  unfold JsMap.entries. apply flat_map_ext. intros [t p]. reflexivity.
Qed.

Lemma edges_of_nil (source : FlowNode) :
  or0 (totalOutflow source) <= 0 \/ totalAllocation source <= 0 ->
  edges_of source = [].
Proof.
  intro H. unfold edges_of. cbv zeta.
  destruct (Qgtb (or0 (totalOutflow source)) 0) eqn:Ho; cmp_facts;
    [| reflexivity].
  destruct (Qgtb (totalAllocation source) 0) eqn:Ht; cmp_facts;
    [| reflexivity].
  lra.
Qed.

Lemma share_nonneg' (o p t : number) :
  0 < o -> 0 < t -> 0 <= p -> 0 <= o * (p / t).
Proof.
  intros Ho Ht Hp. apply Qmult_le_0_compat; [lra |].
  apply Qle_shift_div_l; [exact Ht | lra].
Qed.

Lemma add_flows_get (nodeMap : JsMap.t nat) (sourceId : string)
  (o t : number) (es : list (string * number)) (m : JsMap.t number)
  (k : string) :
  0 < o -> 0 < t ->
  (forall e, In e es -> 0 <= snd e /\ JsMap.get nodeMap (fst e) <> None) ->
  or0 (JsMap.get (fold_left (add_flow nodeMap o t) es m) k)
  == or0 (JsMap.get m k)
     + inflow_over
         (flat_map
            (fun entry : string * number =>
               if Qgtb (o * (snd entry / t)) 0
               then [ {| source := sourceId; target := fst entry;
                         flowRate := o * (snd entry / t);
                         percentage := snd entry |} ]
               else [])
            es) k.
Proof.
  intros Ho Ht. revert m.
  induction es as [| [tid p] es IH]; intros m Hes; cbn [fold_left flat_map].
  - unfold inflow_over. cbn. change (sum []) with 0. lra.
  - rewrite IH by (intros e He; apply Hes; now right).
    rewrite inflow_over_app.
    destruct (Hes (tid, p) (or_introl eq_refl)) as [Hp Hnm]. cbn [fst snd] in *.
    pose proof (share_nonneg' o p t Ho Ht Hp) as Hs.
    unfold add_flow at 1.
    destruct (JsMap.get nodeMap tid) as [pos |]; [| congruence].
    rewrite get_set.
    assert (Hone :
      inflow_over
        (if Qgtb (o * (p / t)) 0
         then [ {| source := sourceId; target := tid;
                   flowRate := o * (p / t); percentage := p |} ]
         else []) k
      == if String.eqb k tid then o * (p / t) else 0).
    { unfold inflow_over.
      destruct (Qgtb (o * (p / t)) 0) eqn:Hg; cmp_facts; cbn.
      - rewrite String.eqb_sym.
        destruct (String.eqb k tid); cbn; [| reflexivity].
        unfold sum. cbn. lra.
      - change (sum []) with 0. destruct (String.eqb k tid); lra. }
    rewrite Hone.
    destruct (String.eqb k tid) eqn:E; cbn [or0].
    + apply String.eqb_eq in E. subst tid. lra.
    + lra.
Qed.

Lemma add_flows_of_get (nodeMap : JsMap.t nat) (m : JsMap.t number)
  (s : FlowNode) (k : string) :
  (forall e, In e (allocations s) ->
             0 <= snd e /\ JsMap.get nodeMap (fst e) <> None) ->
  or0 (JsMap.get (add_flows_of nodeMap m s) k)
  == or0 (JsMap.get m k) + inflow_over (edges_of s) k.
Proof.
  intro Hs. unfold add_flows_of. cbv zeta.
  destruct (Qgtb (or0 (totalOutflow s)) 0) eqn:Ho; cmp_facts.
  - destruct (Qgtb (totalAllocation s) 0) eqn:Ht; cmp_facts.
    + rewrite (edges_of_entries s Ho Ht). unfold JsMap.entries.
      now apply add_flows_get.
    + rewrite edges_of_nil by (now right).
      unfold inflow_over. cbn. change (sum []) with 0. lra.
  - rewrite edges_of_nil by (now left).
    unfold inflow_over. cbn. change (sum []) with 0. lra.
Qed.

Lemma add_flows_fold_get (nodeMap : JsMap.t nat) (srcs : list FlowNode)
  (m : JsMap.t number) (k : string) :
  (forall s e, In s srcs -> In e (allocations s) ->
               0 <= snd e /\ JsMap.get nodeMap (fst e) <> None) ->
  or0 (JsMap.get (fold_left (add_flows_of nodeMap) srcs m) k)
  == or0 (JsMap.get m k) + inflow_over (flat_map edges_of srcs) k.
Proof.
  revert m. induction srcs as [| s srcs IH]; intros m H; cbn [fold_left flat_map].
  - unfold inflow_over. cbn. change (sum []) with 0. lra.
  - rewrite IH by (intros s' e Hs'; apply H; now right).
    rewrite inflow_over_app, add_flows_of_get; [lra |].
    intros e He. apply (H s e); [now left | exact He].
Qed.

Lemma start_untouched (l : list FlowNode) (m : JsMap.t number) (k : string) :
  ~ In k (map id l) ->
  JsMap.get (fold_left (fun m node => JsMap.set m (id node) (externalInflow node))
                       l m) k
  = JsMap.get m k.
Proof.
  revert m. induction l as [| a l IH]; intros m Hk; cbn in *; [reflexivity |].
  rewrite IH by tauto. rewrite get_set.
  destruct (String.eqb k (id a)) eqn:E; [| reflexivity].
  apply String.eqb_eq in E. subst k. tauto.
Qed.

Lemma start_get (l : list FlowNode) (m : JsMap.t number) (n : FlowNode) :
  NoDup (map id l) -> In n l ->
  JsMap.get (fold_left (fun m node => JsMap.set m (id node) (externalInflow node))
                       l m) (id n)
  = Some (externalInflow n).
Proof.
  revert m. induction l as [| a l IH]; intros m Hnd Hin; cbn in *; [tauto |].
  inversion Hnd as [| ? ? Ha Hnd']; subst.
  destruct Hin as [-> | Hin].
  - rewrite start_untouched by exact Ha.
    now rewrite get_set, String.eqb_refl.
  - now apply IH.
Qed.

Lemma node_ok_same (ids : list string) (n n' : FlowNode) :
  same_inputs n n' -> node_ok ids n -> node_ok ids n'.
Proof.
  unfold same_inputs, node_ok, totalAllocation.
  intros (Hi & _ & He & Hmn & Hmx & Ha). rewrite Hi, He, Hmn, Hmx, Ha. tauto.
Qed.

Lemma same_inputs_ids (l l' : list FlowNode) :
  Forall2 same_inputs l l' -> map id l' = map id l.
Proof.
  induction 1 as [| a b l l' Hab _ IH]; cbn; [reflexivity |].
  destruct Hab as [-> _]. now rewrite IH.
Qed.

Lemma same_inputs_ok (ids : list string) (l l' : list FlowNode) :
  Forall2 same_inputs l l' -> Forall (node_ok ids) l -> Forall (node_ok ids) l'.
Proof.
  induction 1; intro Hl; inversion Hl; subst; constructor;
    eauto using node_ok_same.
Qed.

Lemma flat_map_edges_of_map (f : FlowNode -> FlowNode) (l : list FlowNode) :
  (forall n, edges_of (f n) = edges_of n) ->
  flat_map edges_of (map f l) = flat_map edges_of l.
Proof.
  intro H. induction l as [| a l IH]; cbn; [reflexivity |].
  now rewrite H, IH.
Qed.

Lemma turn_balanced (ids : list string) (l : list FlowNode) :
  map id l = ids -> NoDup ids -> Forall (node_ok ids) l ->
  balanced (turn (ref_map ids) l).
Proof.
  intros Hids Hnd Hok. unfold turn. cbv zeta.
  set (l1 := map (fun node => set_totalOutflow node (calculateOutflow node)) l).
  assert (Hsame : Forall2 same_inputs l l1).
  { apply Forall2_same_inputs_map. intro n. unfold same_inputs. cbn. tauto. }
  assert (Hids1 : map id l1 = ids).
  { rewrite (same_inputs_ids _ _ Hsame). exact Hids. }
  assert (Hok1 : Forall (node_ok ids) l1) by eauto using same_inputs_ok.
  rewrite apply_inflows_fst.
  intros n' Hin'. rewrite flat_map_edges_of_map by reflexivity.
  apply in_map_iff in Hin'. destruct Hin' as (n1 & <- & Hin1).
  cbn [totalInflow set_totalInflow or0 externalInflow id].
  unfold new_inflows. cbv zeta.
  rewrite add_flows_fold_get.
  - rewrite start_get; [reflexivity | now rewrite Hids1 | exact Hin1].
  - intros s e Hs He. rewrite Forall_forall in Hok1.
    destruct e as [t p]. destruct (Hok1 s Hs) as (_ & _ & _ & _ & Ha).
    destruct (Ha t p He) as (Hp & Ht & _). cbn [fst snd]. split; [lra |].
    destruct (ref_map_has ids t Ht) as [pos Hpos]. congruence.
Qed.

Lemma flat_map_nil {A B} (f : A -> list B) (l : list A) :
  (forall x, In x l -> f x = []) -> flat_map f l = [].
Proof.
  induction l as [| a l IH]; cbn; intro H; [reflexivity |].
  rewrite (H a) by now left. apply IH. intros; apply H; now right.
Qed.

Lemma initialize_balanced (nodes : list FlowNode) :
  balanced (map initialize nodes).
Proof.
  intros n Hin. rewrite flat_map_nil.
  - apply in_map_iff in Hin. destruct Hin as (n0 & <- & _). cbn.
    unfold inflow_over. cbn. change (sum []) with 0. lra.
  - intros x Hx. apply in_map_iff in Hx. destruct Hx as (x0 & <- & _).
    apply edges_of_nil. left. cbn. lra.
Qed.

(** What holds of the nodes at every turn of the loop. *)
Lemma iterate_balanced (left : nat) (epsilon : number) (nodes : list FlowNode)
  (its : nat) :
  let ids := map id nodes in
  NoDup ids -> Forall (node_ok ids) nodes ->
  balanced (fst (fst (iterate left epsilon (ref_map ids)
                              (map initialize nodes) its))).
Proof.
  intros ids Hnd Hok.
  apply (iterate_cases left epsilon (ref_map ids)
           (fun l => Forall2 same_inputs nodes l /\ balanced l)).
  - intros l [Hs Hb]. split.
    + eapply Forall2_same_inputs_trans; [exact Hs | apply turn_same_inputs].
    + apply turn_balanced; [| exact Hnd |].
      * apply (same_inputs_ids _ _ Hs).
      * eauto using same_inputs_ok.
  - split; [| apply initialize_balanced].
    apply Forall2_same_inputs_map. intro n. unfold same_inputs. cbn. tauto.
Qed.

Lemma edges_of_ok (ids : list string) (n : FlowNode) :
  node_ok ids n -> In (id n) ids ->
  forall e, In e (edges_of n) -> edge_ok ids e.
Proof.
  intros (_ & _ & _ & _ & Ha) Hid e. unfold edges_of. cbv zeta.
  destruct (Qgtb (or0 (totalOutflow n)) 0); [| intros []].
  destruct (Qgtb (totalAllocation n) 0); [| intros []].
  rewrite in_flat_map. unfold JsMap.entries. intros ([t p] & Hin & He).
  destruct (Qgtb _ 0) eqn:Hr; cmp_facts; [| destruct He].
  destruct He as [<- | []]. destruct (Ha t p Hin) as (Hp & Ht & Hne).
  unfold edge_ok. cbn. repeat split; try tauto; congruence.
Qed.

Lemma iterate_outflows (left : nat) (epsilon : number) (nodeMap : JsMap.t nat)
  (ids : list string) (nodes : list FlowNode) (its : nat) :
  Forall (node_ok ids) nodes ->
  Forall (fun n => 0 <= or0 (totalOutflow n))
         (fst (fst (iterate left epsilon nodeMap (map initialize nodes) its))).
Proof.
  intro Hok.
  apply (iterate_cases left epsilon nodeMap
           (fun l => Forall2 same_inputs nodes l
                     /\ Forall (fun n => 0 <= or0 (totalOutflow n)) l)).
  - intros l [Hs _]. split.
    + eapply Forall2_same_inputs_trans; [exact Hs | apply turn_same_inputs].
    + unfold turn. cbv zeta. rewrite apply_inflows_fst, map_map.
      pose proof (same_inputs_ok ids _ _ Hs Hok) as Hokl.
      rewrite Forall_forall in *. intros n Hn.
      apply in_map_iff in Hn. destruct Hn as (n0 & <- & Hn0). cbn.
      apply ZoneProps.calculateOutflow_nonneg.
      destruct (Hokl n0 Hn0) as (H0 & Hle & _). split; assumption.
  - split.
    + apply Forall2_same_inputs_map. intro n. unfold same_inputs. cbn. tauto.
    + apply Forall_forall. intros n Hn.
      apply in_map_iff in Hn. destruct Hn as (n0 & <- & _). cbn. lra.
Qed.

Lemma edges_of_positive (n : FlowNode) :
  Forall (fun e => 0 < flowRate e) (edges_of n).
Proof.
  apply Forall_forall. intro e. unfold edges_of. cbv zeta.
  destruct (Qgtb (or0 (totalOutflow n)) 0); [| intros []].
  destruct (Qgtb (totalAllocation n) 0); [| intros []].
  rewrite in_flat_map. intros ([t p] & _ & He).
  destruct (Qgtb _ 0) eqn:Hr; cmp_facts; [| destruct He].
  destruct He as [<- | []]. exact Hr.
Qed.

Lemma inflow_over_nonneg (edges : list FlowEdge) (k : string) :
  Forall (fun e => 0 < flowRate e) edges -> 0 <= inflow_over edges k.
Proof.
  intro H. unfold inflow_over. apply sum_nonneg. apply Forall_forall.
  intros v Hv. apply in_map_iff in Hv. destruct Hv as (e & <- & He).
  apply filter_In in He. rewrite Forall_forall in H.
  apply Qlt_le_weak. apply H. tauto.
Qed.

End SteadyFacts.

(** ** The network that [calculateSteadyState] returns *)

Module SteadyProps.
Import FlowV2 ContinuousSpec ZoneSpec SteadySpec JsMapFacts SteadyFacts.

(** The loop of [calculateSteadyState] runs at most [maxIterations] turns;
    it runs all of them when it reports no convergence, and at least one
    when it reports convergence. *)
Theorem calculateSteadyState_iterations (nodes nodes' : list FlowNode)
  (config : FlowConfig) (network : FlowNetwork) :
  calculateSteadyState nodes config = (nodes', Returned network) ->
  (iterations network <= cfg_maxIterations config)%nat
  /\ (converged network = false ->
      iterations network = cfg_maxIterations config)
  /\ (converged network = true -> (1 <= iterations network)%nat).
Proof.
  unfold calculateSteadyState.
  destruct (valid (validateNetwork nodes)); cbn [negb]; [| discriminate].
  pose proof (iterate_count (cfg_maxIterations config) (cfg_epsilon config)
                (ref_map (map id nodes)) (map initialize nodes) 0) as Hc.
  cbv zeta in Hc.
  destruct (iterate _ _ _ _ _) as [[nodes1 conv] its].
  intros [= <- <-]. cbn [iterations converged fst snd] in *.
  destruct Hc as (H1 & H2 & H3).
  split; [lia |]. split; intro H; [rewrite (H2 H) | specialize (H3 H)]; lia.
Qed.

Lemma calculateSteadyState_iterations_witness :
  exists nodes' network,
    calculateSteadyState leaky two_rounds = (nodes', Returned network)
    /\ (iterations network <= 2)%nat.
Proof.
  eexists. eexists. split.
  - vm_compute. reflexivity.
  - eapply (calculateSteadyState_iterations leaky _ two_rounds _).
    vm_compute. reflexivity.
Defined.

(** [calculateSteadyState] writes [totalInflow], [totalOutflow] and
    [balance] and nothing else: ids, names, external inflows, thresholds and
    allocations are the caller's, and the three totals of the result are the
    sums of the caller's external inflows, maximums and minimums. *)
Theorem calculateSteadyState_keeps_inputs (nodes nodes' : list FlowNode)
  (config : FlowConfig) (network : FlowNetwork) :
  calculateSteadyState nodes config = (nodes', Returned network) ->
  Forall2 same_inputs nodes nodes'
  /\ Forall computed nodes'
  /\ totalExternalInflow network = sum (map externalInflow nodes)
  /\ totalNetworkCapacity network = sum (map maxThreshold nodes)
  /\ totalNetworkNeeds network = sum (map minThreshold nodes).
Proof.
  unfold calculateSteadyState.
  destruct (valid (validateNetwork nodes)); cbn [negb]; [| discriminate].
  pose proof (iterate_cases (cfg_maxIterations config) (cfg_epsilon config)
                (ref_map (map id nodes))
                (fun l => Forall2 same_inputs nodes l /\ Forall computed l))
    as Hinv.
  specialize (fun H => Hinv H (map initialize nodes) 0%nat).
  destruct (iterate _ _ _ _ _) as [[nodes1 conv] its]. cbn [fst] in Hinv.
  intros [= <- <-].
  cbn [totalExternalInflow totalNetworkCapacity totalNetworkNeeds].
  destruct Hinv as [Hs Hc].
  - intros l [Hs Hc]. split.
    + eapply Forall2_same_inputs_trans; [exact Hs | apply turn_same_inputs].
    + unfold turn. cbv zeta. rewrite apply_inflows_fst, map_map.
      rewrite Forall_forall in *. intros n Hn.
      apply in_map_iff in Hn. destruct Hn as (n0 & <- & Hn0).
      destruct (Hc n0 Hn0) as (_ & _ & Hb).
      unfold computed. cbn. repeat split; try discriminate. exact Hb.
  - split.
    + apply Forall2_same_inputs_map. intro n. unfold same_inputs. cbn. tauto.
    + apply Forall_forall. intros n Hn.
      apply in_map_iff in Hn. destruct Hn as (n0 & <- & _).
      unfold computed. cbn. repeat split; discriminate.
  - split; [exact Hs |]. split; [exact Hc |].
    unfold sum.
    rewrite (fold_left_plus_map externalInflow),
      (fold_left_plus_map maxThreshold), (fold_left_plus_map minThreshold).
    assert (He : map externalInflow nodes1 = map externalInflow nodes
                 /\ map maxThreshold nodes1 = map maxThreshold nodes
                 /\ map minThreshold nodes1 = map minThreshold nodes).
    { clear Hc. induction Hs as [| a b l l' Hab _ IH]; cbn; [tauto |].
      destruct Hab as (_ & _ & -> & -> & -> & _).
      destruct IH as (-> & -> & ->). tauto. }
    destruct He as (-> & -> & ->). tauto.
Qed.

Lemma calculateSteadyState_keeps_inputs_witness :
  exists nodes' network,
    calculateSteadyState leaky two_rounds = (nodes', Returned network)
    /\ Forall2 same_inputs leaky nodes'.
Proof.
  eexists. eexists. split.
  - vm_compute. reflexivity.
  - eapply (calculateSteadyState_keeps_inputs leaky _ two_rounds _).
    vm_compute. reflexivity.
Defined.

(** Every edge of the result has a positive rate, joins two nodes of the
    network, is no self-loop, and carries a weight between 0 and 100. *)
Theorem calculateSteadyState_edges (nodes nodes' : list FlowNode)
  (config : FlowConfig) (network : FlowNetwork) :
  calculateSteadyState nodes config = (nodes', Returned network) ->
  Forall (edge_ok (map id nodes)) (edges network).
Proof.
  unfold calculateSteadyState.
  destruct (valid (validateNetwork nodes)) eqn:Hv; cbn [negb]; [| discriminate].
  destruct (valid_node_ok nodes Hv) as [_ Hok].
  pose proof (iterate_same_inputs (cfg_maxIterations config)
                (cfg_epsilon config) (ref_map (map id nodes))
                (map initialize nodes) 0%nat) as Hs.
  destruct (iterate _ _ _ _ _) as [[nodes1 conv] its]. cbn [fst] in Hs.
  intros [= <- <-]. cbn [edges].
  assert (Hs' : Forall2 same_inputs nodes nodes1).
  { eapply Forall2_same_inputs_trans; [| exact Hs].
    apply Forall2_same_inputs_map. intro n. unfold same_inputs. cbn. tauto. }
  pose proof (same_inputs_ok _ _ _ Hs' Hok) as Hok1.
  pose proof (same_inputs_ids _ _ Hs') as Hids.
  apply Forall_forall. intros e He. apply in_flat_map in He.
  destruct He as (n & Hn & He). rewrite Forall_forall in Hok1.
  apply (edges_of_ok (map id nodes) n); auto.
  rewrite <- Hids. now apply in_map.
Qed.

Lemma calculateSteadyState_edges_witness :
  exists nodes' network,
    calculateSteadyState leaky two_rounds = (nodes', Returned network)
    /\ Forall (edge_ok (map id leaky)) (edges network).
Proof.
  eexists. eexists. split.
  - vm_compute. reflexivity.
  - eapply (calculateSteadyState_edges leaky _ two_rounds _).
    vm_compute. reflexivity.
Defined.

(** No node of the result gives a negative [totalOutflow], and with
    distinct ids no node takes in less than its external inflow. *)
Theorem calculateSteadyState_flows_nonneg (nodes nodes' : list FlowNode)
  (config : FlowConfig) (network : FlowNetwork) :
  NoDup (map id nodes) ->
  calculateSteadyState nodes config = (nodes', Returned network) ->
  Forall (fun n => 0 <= or0 (totalOutflow n)
                   /\ externalInflow n <= or0 (totalInflow n)) nodes'.
Proof.
  intro Hnd. unfold calculateSteadyState.
  destruct (valid (validateNetwork nodes)) eqn:Hv; cbn [negb]; [| discriminate].
  destruct (valid_node_ok nodes Hv) as [_ Hok].
  pose proof (iterate_balanced (cfg_maxIterations config)
                (cfg_epsilon config) nodes 0%nat Hnd Hok) as Hb.
  pose proof (iterate_outflows (cfg_maxIterations config)
                (cfg_epsilon config) (ref_map (map id nodes))
                (map id nodes) nodes 0%nat Hok) as Ho.
  cbv zeta in Hb.
  destruct (iterate _ _ _ _ _) as [[nodes1 conv] its]. cbn [fst] in Hb, Ho.
  intros [= <- <-]. rewrite Forall_forall in *. intros n Hn.
  split; [now apply Ho |]. rewrite (Hb n Hn).
  assert (0 <= inflow_over (flat_map edges_of nodes1) (id n)); [| lra].
  apply inflow_over_nonneg. apply Forall_forall. intros e He.
  apply in_flat_map in He. destruct He as (m & _ & He).
  pose proof (edges_of_positive m) as Hp. rewrite Forall_forall in Hp. auto.
Qed.

Lemma calculateSteadyState_flows_nonneg_witness :
  exists nodes' network,
    calculateSteadyState leaky two_rounds = (nodes', Returned network)
    /\ Forall (fun n => 0 <= or0 (totalOutflow n)
                        /\ externalInflow n <= or0 (totalInflow n)) nodes'.
Proof.
  eexists. eexists. split.
  - vm_compute. reflexivity.
  - eapply (calculateSteadyState_flows_nonneg leaky _ two_rounds _).
    + repeat constructor; cbn; intuition discriminate.
    + vm_compute. reflexivity.
Defined.

End SteadyProps.

(** ** tbff: the initial distribution *)

Module TbffFacts.
Import Tbff TbffFunds.

Lemma total_shortfall_fold (l : list FlowFundingAccount) :
  fold_left (fun sum acc => sum + Qmax 0 (minThreshold acc - balance acc)) l 0
  = sum (map calculateShortfall l).
Proof. unfold sum. apply fold_left_plus_map. Qed.

Lemma total_capacity_fold (l : list FlowFundingAccount) :
  fold_left (fun sum acc => sum + Qmax 0 (maxThreshold acc - balance acc)) l 0
  = sum (map calculateCapacity l).
Proof. unfold sum. apply fold_left_plus_map. Qed.

Lemma accounts_fill (network : FlowFundingNetwork) :
  accounts (fillAllMinimums network) = map fill (accounts network).
Proof. reflexivity. Qed.

Lemma accounts_by_shortfall (network : FlowFundingNetwork)
  (funding total : number) :
  accounts (distributeProportionallyByShortfall network funding total)
  = map (share_by calculateShortfall total funding) (accounts network).
Proof. reflexivity. Qed.

Lemma accounts_evenly (network : FlowFundingNetwork) (funding : number) :
  accounts (distributeEvenly network funding)
  = map (fun acc =>
           rebalanced acc
             (balance acc
              + funding / inject_Z (Z.of_nat (List.length (accounts network)))))
        (accounts network).
Proof. reflexivity. Qed.

Lemma accounts_by_capacity (network : FlowFundingNetwork) (funding : number) :
  0 < funding ->
  ~ sum (map calculateCapacity (accounts network)) == 0 ->
  accounts (distributeByCapacity network funding)
  = map (share_by calculateCapacity
           (sum (map calculateCapacity (accounts network))) funding)
        (accounts network).
Proof.
  intros Hf Hc. unfold distributeByCapacity.
  destruct (Qleb funding 0) eqn:Hle; cmp_facts; [lra |].
  rewrite total_capacity_fold.
  destruct (Qeqb _ 0) eqn:Hz; cmp_facts; [contradiction | reflexivity].
Qed.

Lemma sum_shortfall_nonneg (l : list FlowFundingAccount) :
  0 <= sum (map calculateShortfall l).
Proof.
  apply sum_nonneg. apply Forall_forall. intros v Hv.
  apply in_map_iff in Hv. destruct Hv as (a & <- & _). apply Qmax_0_nonneg.
Qed.

Lemma sum_capacity_nonneg (l : list FlowFundingAccount) :
  0 <= sum (map calculateCapacity l).
Proof.
  apply sum_nonneg. apply Forall_forall. intros v Hv.
  apply in_map_iff in Hv. destruct Hv as (a & <- & _). apply Qmax_0_nonneg.
Qed.

(** *** Every account is left alone or rebalanced *)

Lemma touched_refl (a : FlowFundingAccount) : touched a a.
Proof. now left. Qed.

Lemma touched_trans (a b c : FlowFundingAccount) :
  touched a b -> touched b c -> touched a c.
Proof.
  intros [-> | [x ->]] [-> | [z ->]]; try (now left); right.
  - now exists z.
  - now exists x.
  - now exists z.
Qed.

Lemma Forall2_touched_map (f : FlowFundingAccount -> FlowFundingAccount)
  (l : list FlowFundingAccount) :
  (forall a, touched a (f a)) -> Forall2 touched l (map f l).
Proof. intro H. induction l; cbn; constructor; auto. Qed.

Lemma Forall2_touched_refl (l : list FlowFundingAccount) :
  Forall2 touched l l.
Proof. induction l; constructor; auto using touched_refl. Qed.

Lemma Forall2_touched_trans (l1 l2 l3 : list FlowFundingAccount) :
  Forall2 touched l1 l2 -> Forall2 touched l2 l3 -> Forall2 touched l1 l3.
Proof.
  intro H. revert l3. induction H; intros l3 H3; inversion H3; subst;
    constructor; eauto using touched_trans.
Qed.

Lemma fill_touched (a : FlowFundingAccount) : touched a (fill a).
Proof.
  unfold fill. destruct (Qeqb _ 0); [now left | right; eauto].
Qed.

Lemma share_by_touched (g : FlowFundingAccount -> number) (t f : number)
  (a : FlowFundingAccount) : touched a (share_by g t f a).
Proof.
  unfold share_by. destruct (Qeqb _ 0); [now left | right; eauto].
Qed.

Lemma distributeByCapacity_touched (network : FlowFundingNetwork)
  (funding : number) :
  Forall2 touched (accounts network)
          (accounts (distributeByCapacity network funding)).
Proof.
  unfold distributeByCapacity.
  destruct (Qleb funding 0).
  - apply Forall2_touched_refl.
  - destruct (Qeqb _ 0).
    + rewrite accounts_evenly. apply Forall2_touched_map.
      intro a. right. eauto.
    + cbn [accounts calculateNetworkTotals with_accounts].
      apply Forall2_touched_map. intro a. cbv zeta.
      destruct (Qeqb _ 0); [now left | right; eexists; reflexivity].
Qed.

Lemma initialDistribution_touched (network : FlowFundingNetwork)
  (funding : number) :
  Forall2 touched (accounts network)
          (accounts (initialDistribution network funding)).
Proof.
  unfold initialDistribution.
  destruct (Qleb funding 0).
  - apply Forall2_touched_refl.
  - destruct (Qltb funding _).
    + rewrite accounts_by_shortfall. apply Forall2_touched_map.
      apply share_by_touched.
    + eapply Forall2_touched_trans; [| apply distributeByCapacity_touched].
      rewrite accounts_fill. apply Forall2_touched_map. apply fill_touched.
Qed.

Lemma initialDistribution_totals (network : FlowFundingNetwork)
  (funding : number) :
  0 < funding ->
  let r := initialDistribution network funding in
  totalFunds r = sum (map balance (accounts r))
  /\ totalShortfall r = sum (map shortfall (accounts r))
  /\ totalCapacity r = sum (map capacity (accounts r))
  /\ totalOverflow r = sum (map overflow_ (accounts r)).
Proof.
  intros Hf r. subst r. unfold initialDistribution.
  destruct (Qleb funding 0) eqn:Hle; cmp_facts; [lra |].
  destruct (Qltb funding _); [repeat split |].
  unfold distributeByCapacity.
  destruct (Qleb _ 0); [repeat split |].
  destruct (Qeqb _ 0); repeat split.
Qed.

(** *** Balances after each step *)

Lemma fill_balance (a : FlowFundingAccount) :
  balance (fill a) == Qmax (balance a) (minThreshold a)
  /\ minThreshold (fill a) = minThreshold a
  /\ maxThreshold (fill a) = maxThreshold a.
Proof.
  unfold fill.
  destruct (Qmax_0_spec (minThreshold a - balance a)) as [[H E] | [H E]];
    destruct (Qeqb _ 0) eqn:Ez; cmp_facts; cbn; try lra.
  - repeat split. rewrite Q.max_l; lra.
  - repeat split. rewrite Q.max_r; lra.
Qed.

Lemma part_share_nonneg (part total amount : number) :
  0 <= part -> 0 < total -> 0 <= amount -> 0 <= part / total * amount.
Proof.
  intros Hp Ht Ha. apply Qmult_le_0_compat; [| exact Ha].
  apply Qle_shift_div_l; [exact Ht | lra].
Qed.

Lemma not_lowered_map (f : FlowFundingAccount -> FlowFundingAccount)
  (l : list FlowFundingAccount) :
  (forall a, In a l -> not_lowered a (f a)) -> Forall2 not_lowered l (map f l).
Proof.
  induction l as [| a l IH]; cbn [map]; intro H; constructor.
  - apply H. now left.
  - apply IH. intros; apply H; now right.
Qed.

Lemma not_lowered_refl (l : list FlowFundingAccount) : Forall2 not_lowered l l.
Proof. induction l; constructor; [apply Qle_refl | assumption]. Qed.

Lemma not_lowered_trans (l1 l2 l3 : list FlowFundingAccount) :
  Forall2 not_lowered l1 l2 -> Forall2 not_lowered l2 l3 ->
  Forall2 not_lowered l1 l3.
Proof.
  intro H. revert l3. induction H; intros l3 H3; inversion H3; subst;
    constructor; [unfold not_lowered in *; lra | auto].
Qed.

Lemma fill_not_lowered (a : FlowFundingAccount) : not_lowered a (fill a).
Proof.
  unfold not_lowered. destruct (fill_balance a) as (Hb & _). rewrite Hb.
  apply Q.le_max_l.
Qed.

Lemma share_by_not_lowered (g : FlowFundingAccount -> number)
  (total amount : number) (a : FlowFundingAccount) :
  0 <= g a -> 0 < total -> 0 <= amount ->
  not_lowered a (share_by g total amount a).
Proof.
  intros Hg Ht Ha. unfold not_lowered, share_by.
  destruct (Qeqb (g a) 0); [apply Qle_refl |].
  unfold rebalanced.
  cbn [balance updateAccountComputedProperties with_balance].
  pose proof (part_share_nonneg (g a) total amount Hg Ht Ha). lra.
Qed.

Lemma distributeByCapacity_not_lowered (network : FlowFundingNetwork)
  (funding : number) :
  Forall2 not_lowered (accounts network)
          (accounts (distributeByCapacity network funding)).
Proof.
  destruct (Qlt_le_dec 0 funding) as [Hf | Hf].
  - pose proof (sum_capacity_nonneg (accounts network)) as Hc.
    destruct (Qeq_dec (sum (map calculateCapacity (accounts network))) 0)
      as [Hz | Hz].
    + unfold distributeByCapacity.
      destruct (Qleb funding 0) eqn:Hle; cmp_facts; [lra |].
      rewrite total_capacity_fold.
      destruct (Qeqb _ 0) eqn:Hq; cmp_facts; [| contradiction].
      rewrite accounts_evenly.
      set (n := inject_Z (Z.of_nat (List.length (accounts network)))).
      apply not_lowered_map. intros a Ha. unfold not_lowered, rebalanced.
      cbn [balance updateAccountComputedProperties with_balance].
      assert (Hn : 0 < n).
      { unfold n. destruct (accounts network); [destruct Ha |].
        cbn [List.length]. unfold Qlt. cbn. lia. }
      assert (0 <= funding / n) by (apply Qle_shift_div_l; lra).
      lra.
    + rewrite (accounts_by_capacity network funding Hf Hz).
      apply not_lowered_map. intros a _.
      apply share_by_not_lowered; [apply Qmax_0_nonneg | lra | lra].
  - unfold distributeByCapacity.
    destruct (Qleb funding 0) eqn:Hle; cmp_facts; [| lra].
    apply not_lowered_refl.
Qed.

End TbffFacts.

(** ** tbff: what the initial distribution does with the funding *)

Module TbffDistribution.
Import Tbff TbffFunds TbffSamples TbffFacts.

(** [initialDistribution] only ever replaces an account by the same account
    with a new balance and the properties computed from it: identity,
    thresholds and position are kept, accounts whose computed properties
    were right have them right afterwards, and after a positive funding the
    totals of the network are those of its accounts. *)
Theorem initialDistribution_keeps_consistent (network : FlowFundingNetwork)
  (funding : number) :
  Forall consistent (accounts network) ->
  let r := initialDistribution network funding in
  Forall2 same_identity (accounts network) (accounts r)
  /\ Forall consistent (accounts r)
  /\ (0 < funding -> totals_consistent r).
Proof.
  intros Hc r.
  pose proof (initialDistribution_touched network funding) as Ht. fold r in Ht.
  assert (H : Forall2 same_identity (accounts network) (accounts r)
              /\ Forall consistent (accounts r)).
  { revert Hc. induction Ht as [| a a' l l' Ha _ IH]; intro Hc.
    - split; constructor.
    - inversion Hc as [| ? ? Hca Hcl]; subst.
      destruct (IH Hcl) as [IH1 IH2].
      split; constructor; try assumption.
      + destruct Ha as [-> | [b ->]]; unfold same_identity; cbn; tauto.
      + destruct Ha as [-> | [b ->]]; [exact Hca |].
        unfold consistent. cbn. tauto. }
  destruct H as [H1 H2]. split; [exact H1 |]. split; [exact H2 |].
  intro Hf. destruct (initialDistribution_totals network funding Hf)
    as (T1 & T2 & T3 & T4). fold r in T1, T2, T3, T4.
  unfold totals_consistent. rewrite T1, T2, T3, T4.
  repeat split; f_equal; apply map_ext_in; intros a Ha;
    rewrite Forall_forall in H2; destruct (H2 a Ha) as (_ & E2 & E3 & E4);
    assumption.
Qed.

Lemma initialDistribution_keeps_consistent_witness :
  Forall consistent (accounts (initialDistribution statesDemo 1000))
  /\ totals_consistent (initialDistribution statesDemo 1000).
Proof.
  destruct (initialDistribution_keeps_consistent statesDemo 1000)
    as (_ & H2 & H3).
  - repeat constructor.
  - split; [exact H2 | apply H3; reflexivity].
Defined.

(** A positive funding that covers the total shortfall leaves no account
    below its minimum: every account ends with [minThreshold <= balance],
    so none has the status [deficit]. *)
Theorem initialDistribution_fills_minimums (network : FlowFundingNetwork)
  (funding : number) :
  0 < funding -> shortfall_of network <= funding ->
  Forall (fun acc => minThreshold acc <= balance acc
                     /\ getAccountStatus acc <> deficit)
         (accounts (initialDistribution network funding)).
Proof.
  intros Hf Hs.
  assert (H : Forall (fun acc => minThreshold acc <= balance acc)
                     (accounts (initialDistribution network funding))).
  { unfold initialDistribution.
    destruct (Qleb funding 0) eqn:Hle; cmp_facts; [lra |].
    rewrite total_shortfall_fold. fold (shortfall_of network).
    destruct (Qltb funding _) eqn:Hlt; cmp_facts; [lra |].
    set (rem := funding - shortfall_of network).
    assert (Hrem : 0 <= rem) by (unfold rem; lra).
    assert (Hfill : Forall (fun acc => minThreshold acc <= balance acc)
                           (accounts (fillAllMinimums network))).
    { rewrite accounts_fill. apply Forall_forall. intros a' Ha'.
      apply in_map_iff in Ha'. destruct Ha' as (a & <- & _).
      destruct (fill_balance a) as (Hb & -> & _). rewrite Hb.
      apply Q.le_max_r. }
    set (net1 := fillAllMinimums network) in *.
    unfold distributeByCapacity.
    destruct (Qleb rem 0) eqn:Hr; cmp_facts; [exact Hfill |].
    rewrite total_capacity_fold.
    pose proof (sum_capacity_nonneg (accounts net1)) as Hcn.
    destruct (Qeqb _ 0) eqn:Hz; cmp_facts.
    - rewrite accounts_evenly. rewrite Forall_forall in *.
      set (n := inject_Z (Z.of_nat (List.length (accounts net1)))).
      intros a' Ha'. apply in_map_iff in Ha'. destruct Ha' as (a & <- & Ha).
      unfold rebalanced.
      cbn [balance minThreshold updateAccountComputedProperties with_balance].
      specialize (Hfill a Ha).
      assert (Hn : 0 < n).
      { unfold n. destruct (accounts net1); [destruct Ha |].
        cbn [List.length]. unfold Qlt. cbn. lia. }
      assert (0 <= rem / n) by (apply Qle_shift_div_l; lra).
      lra.
    - cbn [accounts calculateNetworkTotals with_accounts].
      rewrite Forall_forall in *.
      intros a' Ha'. apply in_map_iff in Ha'. destruct Ha' as (a & <- & Ha).
      cbv zeta. specialize (Hfill a Ha).
      destruct (Qeqb _ 0); [exact Hfill |].
      cbn [balance minThreshold updateAccountComputedProperties with_balance].
      pose proof (part_share_nonneg (Qmax 0 (maxThreshold a - balance a))
                    (sum (map calculateCapacity (accounts net1))) rem
                    (Qmax_0_nonneg _)) as Hsh.
      lra. }
  rewrite Forall_forall in *. intros a Ha. specialize (H a Ha).
  split; [exact H |]. unfold getAccountStatus.
  destruct (Qltb (balance a) (minThreshold a)) eqn:E; cmp_facts; [lra |].
  destruct (Qgeb _ _); [discriminate |].
  destruct (Qltb _ _); discriminate.
Qed.

Lemma initialDistribution_fills_minimums_witness :
  Forall (fun acc => minThreshold acc <= balance acc
                     /\ getAccountStatus acc <> deficit)
         (accounts (initialDistribution statesDemo 1000)).
Proof.
  apply (initialDistribution_fills_minimums statesDemo 1000).
  - reflexivity.
  - vm_compute. discriminate.
Defined.

(** [initialDistribution] never takes funds from an account: whatever the
    network and the funding, every account ends with at least the balance
    it had. *)
Theorem initialDistribution_never_lowers (network : FlowFundingNetwork)
  (funding : number) :
  Forall2 not_lowered (accounts network)
          (accounts (initialDistribution network funding)).
Proof.
  unfold initialDistribution.
  destruct (Qleb funding 0) eqn:Hle; cmp_facts; [apply not_lowered_refl |].
  rewrite total_shortfall_fold.
  destruct (Qltb funding _) eqn:Hlt; cmp_facts.
  - rewrite accounts_by_shortfall. apply not_lowered_map. intros a _.
    apply share_by_not_lowered; [apply Qmax_0_nonneg | lra | lra].
  - eapply not_lowered_trans; [| apply distributeByCapacity_not_lowered].
    rewrite accounts_fill. apply not_lowered_map. intros a _.
    apply fill_not_lowered.
Qed.

End TbffDistribution.

(** ** tbff: normalized allocations *)

Module NormalizeProps.
Import Tbff TbffPage TbffPageSpec.

Lemma same_link_map (f : Allocation -> number) (l : list Allocation) :
  Forall2 same_link l (map (fun a => with_percentage a (f a)) l).
Proof.
  induction l; cbn [map]; constructor; [| assumption].
  unfold same_link. cbn. tauto.
Qed.

Lemma same_link_refl (l : list Allocation) : Forall2 same_link l l.
Proof. induction l; constructor; [unfold same_link; tauto | assumption]. Qed.

Lemma normalizeAllocations_links (l : list Allocation) :
  Forall2 same_link l (normalizeAllocations l).
Proof.
  unfold normalizeAllocations.
  destruct (List.length l =? 1)%nat; [apply (same_link_map (fun _ => 1)) |].
  cbv zeta. destruct (Qeqb _ 0); [apply (same_link_map (fun _ => _)) |].
  destruct (Qltb _ _); [apply same_link_refl |].
  apply (same_link_map (fun a => percentage a / _)).
Qed.

Lemma total_fold (l : list Allocation) :
  fold_left (fun sum a => sum + percentage a) l 0 = total_percentage l.
Proof. unfold total_percentage, sum. apply fold_left_plus_map. Qed.

Lemma fractions_total (l : list Allocation) :
  Forall fraction l ->
  0 <= total_percentage l
  /\ forall a, In a l -> percentage a <= total_percentage l.
Proof.
  unfold total_percentage.
  induction 1 as [| a l [Ha0 Ha1] _ IH]; cbn [map].
  - change (sum []) with 0. split; [lra | intros a []].
  - destruct IH as [IH0 IH]. split; [rewrite sum_cons; lra |].
    intros b [<- | Hb]; rewrite sum_cons; [lra |]. specialize (IH b Hb). lra.
Qed.

Lemma length_positive {A} (l : list A) :
  l <> [] -> 1 <= inject_Z (Z.of_nat (List.length l)).
Proof.
  destruct l as [| a l]; [congruence |]. intros _.
  cbn [List.length]. rewrite Znat.Nat2Z.inj_succ. unfold Z.succ.
  rewrite inject_Z_plus. change (inject_Z 1) with 1.
  assert (0 <= inject_Z (Z.of_nat (List.length l))).
  { unfold Qle. cbn. lia. }
  lra.
Qed.

Lemma total_const (k : number) (l : list Allocation) :
  total_percentage (map (fun a => with_percentage a k) l)
  == inject_Z (Z.of_nat (List.length l)) * k.
Proof.
  unfold total_percentage.
  induction l as [| a l IH]; cbn [map List.length].
  - change (sum []) with 0. change (inject_Z (Z.of_nat 0)) with 0. lra.
  - rewrite sum_cons, IH, Znat.Nat2Z.inj_succ. unfold Z.succ.
    rewrite inject_Z_plus. change (inject_Z 1) with 1.
    cbn [percentage with_percentage]. lra.
Qed.

Lemma total_scaled (t : number) (l : list Allocation) :
  total_percentage (map (fun a => with_percentage a (percentage a / t)) l)
  == total_percentage l / t.
Proof.
  unfold total_percentage.
  induction l as [| a l IH]; cbn [map].
  - change (sum []) with 0. unfold Qdiv. lra.
  - rewrite !sum_cons, IH. cbn [percentage with_percentage].
    unfold Qdiv. lra.
Qed.

(** [normalizeAllocations] changes percentages only: the result has the
    same allocations (id, source and target) in the same order, and a
    single allocation is given 100% whatever it had. *)
Theorem normalizeAllocations_keeps_links :
  (forall allocations,
      Forall2 same_link allocations (normalizeAllocations allocations))
  /\ (forall a, normalizeAllocations [a] = [with_percentage a 1])
  /\ normalizeAllocations [] = [].
Proof.
  split; [exact normalizeAllocations_links |].
  split; [reflexivity |].
  unfold normalizeAllocations. cbn. reflexivity.
Qed.

Lemma normalized_total (allocations : list Allocation) :
  Forall fraction allocations -> allocations <> [] ->
  Qabs (total_percentage (normalizeAllocations allocations) - 1) < 1 # 10000.
Proof.
  intros Hf Hne. destruct (fractions_total allocations Hf) as [Ht0 Hle].
  unfold normalizeAllocations.
  destruct (List.length allocations =? 1)%nat eqn:Hlen.
  - rewrite total_const. apply Nat.eqb_eq in Hlen. rewrite Hlen.
    cbn. reflexivity.
  - cbv zeta. rewrite total_fold.
    destruct (Qeqb (total_percentage allocations) 0) eqn:Hz; cmp_facts.
    + rewrite total_const.
      pose proof (length_positive allocations Hne) as Hn.
      setoid_replace (inject_Z (Z.of_nat (List.length allocations))
                      * (1 / inject_Z (Z.of_nat (List.length allocations))) - 1)
        with 0 by (field; lra).
      reflexivity.
    + destruct (Qltb (Qabs (total_percentage allocations - 1)) (1 # 10000))
        eqn:Hn; cmp_facts; [exact Hn |].
      rewrite total_scaled.
      setoid_replace (total_percentage allocations
                      / total_percentage allocations - 1)
        with 0 by (field; lra).
      reflexivity.
Qed.

Lemma normalizeAllocations_length (l : list Allocation) :
  List.length (normalizeAllocations l) = List.length l.
Proof.
  symmetry. eapply Forall2_length. apply normalizeAllocations_links.
Qed.

(** On percentages that are fractions, the result consists of fractions
    again, and unless the list is empty they sum to 1 within the tolerance
    of 0.0001 that the function allows itself. *)
Theorem normalizeAllocations_fractions (allocations : list Allocation) :
  Forall fraction allocations ->
  Forall fraction (normalizeAllocations allocations)
  /\ (allocations <> [] ->
      Qabs (total_percentage (normalizeAllocations allocations) - 1)
      < 1 # 10000).
Proof.
  intro Hf. split; [| now apply normalized_total].
  destruct (fractions_total allocations Hf) as [Ht0 Hle].
  unfold normalizeAllocations.
  destruct (List.length allocations =? 1)%nat eqn:Hlen.
  - apply Forall_forall. intros a' Ha'. apply in_map_iff in Ha'.
    destruct Ha' as (a & <- & _). unfold fraction. cbn. lra.
  - cbv zeta. rewrite total_fold.
    destruct (Qeqb (total_percentage allocations) 0) eqn:Hz; cmp_facts.
    + apply Forall_forall. intros a' Ha'. apply in_map_iff in Ha'.
      destruct Ha' as (a & <- & Ha). unfold fraction. cbn.
      assert (Hn : 1 <= inject_Z (Z.of_nat (List.length allocations))).
      { apply length_positive. intros ->. destruct Ha. }
      split; [apply Qle_shift_div_l; lra | apply Qle_shift_div_r; lra].
    + destruct (Qltb (Qabs (total_percentage allocations - 1)) (1 # 10000));
        [exact Hf |].
      apply Forall_forall. intros a' Ha'. apply in_map_iff in Ha'.
      destruct Ha' as (a & <- & Ha). unfold fraction. cbn.
      rewrite Forall_forall in Hf. destruct (Hf a Ha) as [Ha0 _].
      specialize (Hle a Ha).
      split; [apply Qle_shift_div_l; lra | apply Qle_shift_div_r; lra].
Qed.

Lemma normalizeAllocations_fractions_witness :
  Forall fraction (normalizeAllocations halves)
  /\ Qabs (total_percentage (normalizeAllocations halves) - 1) < 1 # 10000.
Proof.
  destruct (normalizeAllocations_fractions halves) as [H1 H2].
  - repeat constructor; cbn; discriminate.
  - split; [exact H1 | apply H2; discriminate].
Defined.

(** Normalizing twice is normalizing once, on percentages that are
    fractions: a result of [normalizeAllocations] is returned as it is. *)
Theorem normalizeAllocations_idempotent (allocations : list Allocation) :
  Forall fraction allocations ->
  normalizeAllocations (normalizeAllocations allocations)
  = normalizeAllocations allocations.
Proof.
  intro Hf.
  destruct allocations as [| a0 rest] eqn:El; [reflexivity |].
  rewrite <- El in *.
  assert (Hne : allocations <> []) by (rewrite El; discriminate).
  pose proof (normalized_total allocations Hf Hne) as Ht.
  pose proof (normalizeAllocations_length allocations) as Hlen.
  destruct (List.length allocations =? 1)%nat eqn:H1.
  - unfold normalizeAllocations at 2 3. rewrite H1.
    unfold normalizeAllocations. rewrite length_map, H1, map_map.
    reflexivity.
  - set (N := normalizeAllocations allocations) in *.
    unfold normalizeAllocations. rewrite Hlen, H1. cbv zeta.
    rewrite total_fold.
    destruct (Qeqb (total_percentage N) 0) eqn:Hz; cmp_facts.
    + rewrite Hz in Ht. revert Ht. cbn. discriminate.
    + destruct (Qltb (Qabs (total_percentage N - 1)) (1 # 10000)) eqn:Hn;
        cmp_facts; [reflexivity | lra].
Qed.

Lemma normalizeAllocations_idempotent_witness :
  normalizeAllocations (normalizeAllocations halves)
  = normalizeAllocations halves.
Proof.
  apply (normalizeAllocations_idempotent halves).
  repeat constructor; cbn; discriminate.
Defined.

End NormalizeProps.

(** ** tbff: the distribution summary and the funding handler *)

Module SummaryProps.
Import Tbff TbffPage TbffPageSpec TbffFunds TbffFacts TbffSamples.

Lemma find_id_None (l : list FlowFundingAccount) (k : string) :
  find (fun a => String.eqb (id a) k) l = None <-> ~ In k (map id l).
Proof.
  induction l as [| a l IH]; cbn [find map In]; [tauto |].
  destruct (String.eqb (id a) k) eqn:E.
  - apply String.eqb_eq in E. split; [discriminate | intro H; tauto].
  - apply String.eqb_neq in E. rewrite IH. tauto.
Qed.

Lemma find_id_Some (l : list FlowFundingAccount) (k : string)
  (b : FlowFundingAccount) :
  find (fun a => String.eqb (id a) k) l = Some b -> In b l /\ id b = k.
Proof.
  intro H. apply find_some in H. destruct H as [H1 H2].
  apply String.eqb_eq in H2. tauto.
Qed.

Lemma changes_of_Returned (B A : list FlowFundingAccount) (cs : list Change) :
  changes_of B A = Returned cs ->
  incl (map id A) (map id B) /\ Forall (reports B A) cs.
Proof.
  revert cs. induction A as [| a A IH]; intros cs H; cbn in H.
  - injection H as <-. split; [intros k [] | constructor].
  - destruct (find _ B) as [b |] eqn:Hf; [| discriminate].
    destruct (changes_of B A) as [cs' |]; [| discriminate].
    injection H as <-. destruct (IH cs' eq_refl) as [Hi Hc].
    apply find_id_Some in Hf. destruct Hf as [Hb Hid].
    split.
    + intros k [<- | Hk]; [| now apply Hi].
      rewrite <- Hid. now apply in_map.
    + constructor.
      * exists b, a. cbn. intuition.
      * eapply Forall_impl; [| exact Hc].
        intros c (b' & a' & H1 & H2 & H3). exists b', a'. cbn. tauto.
Qed.

Lemma changes_of_Thrown (B A : list FlowFundingAccount) (e : TypeError) :
  changes_of B A = Thrown e -> ~ incl (map id A) (map id B).
Proof.
  induction A as [| a A IH]; intro H; cbn in H; [discriminate |].
  destruct (find _ B) as [b |] eqn:Hf.
  - destruct (changes_of B A) as [cs' |]; [discriminate |].
    intro Hi. apply IH; [exact H |].
    intros k Hk. apply Hi. now right.
  - apply find_id_None in Hf. intro Hi. apply Hf, Hi. now left.
Qed.

Lemma touched_ids (l l' : list FlowFundingAccount) :
  Forall2 touched l l' -> map id l' = map id l.
Proof.
  induction 1 as [| a a' l l' Ha _ IH]; [reflexivity |].
  cbn [map]. rewrite IH. destruct Ha as [-> | [b ->]]; reflexivity.
Qed.

Lemma touched_same_identity (l l' : list FlowFundingAccount) :
  Forall2 touched l l' -> Forall2 same_identity l l'.
Proof.
  induction 1 as [| a a' l l' Ha _ IH]; constructor; [| assumption].
  destruct Ha as [-> | [b ->]]; unfold same_identity; cbn; tauto.
Qed.

Lemma getDistributionSummary_total (B A : FlowFundingNetwork) :
  incl (map id (accounts A)) (map id (accounts B)) ->
  exists summary, getDistributionSummary B A = Returned summary.
Proof.
  intro Hi. unfold getDistributionSummary.
  destruct (changes_of _ _) as [cs | e] eqn:H; [eexists; reflexivity |].
  apply changes_of_Thrown in H. contradiction.
Qed.

(** [getDistributionSummary] returns exactly when every account of the
    network after has its id among the accounts of the network before;
    otherwise reading [before.balance] throws.  A summary that is returned
    counts its rows, and every row reports an account of the network after
    against an account of that id before, with a delta that is not 0. *)
Theorem getDistributionSummary_returns_iff
  (beforeNetwork afterNetwork : FlowFundingNetwork) :
  let known :=
    incl (map id (accounts afterNetwork)) (map id (accounts beforeNetwork)) in
  match getDistributionSummary beforeNetwork afterNetwork with
  | Returned summary =>
      known
      /\ accountsChanged summary = List.length (changes summary)
      /\ Forall (fun c => reports (accounts beforeNetwork)
                                  (accounts afterNetwork) c
                          /\ ~ delta c == 0)
                (changes summary)
  | Thrown _ => ~ known
  end.
Proof.
  intro known. unfold getDistributionSummary.
  destruct (changes_of _ _) as [cs | e] eqn:H.
  - apply changes_of_Returned in H. destruct H as [Hi Hc].
    split; [exact Hi |]. split; [reflexivity |].
    cbn [changes]. apply Forall_forall. intros c Hin.
    apply filter_In in Hin. destruct Hin as [Hin Hd].
    rewrite Forall_forall in Hc. split; [now apply Hc |].
    apply negb_true_iff in Hd. cmp_facts. exact Hd.
  - eapply changes_of_Thrown, H.
Qed.

(** [handleAddFunding] never throws: [initialDistribution] keeps the ids of
    the accounts, so the summary finds every account.  The state after the
    click shows the same accounts (identity, thresholds and position), and
    the selection is the one before. *)
Theorem handleAddFunding_returns (st : PageState) (fundingAmount : number) :
  exists st',
    handleAddFunding st fundingAmount = Returned st'
    /\ Forall2 same_identity (accounts (network st)) (accounts (network st'))
    /\ selectedAllocationId st' = selectedAllocationId st
    /\ (fundingAmount <= 0 -> st' = st)
    /\ (0 < fundingAmount -> lastDistribution st' <> None).
Proof.
  unfold handleAddFunding.
  destruct (Qleb fundingAmount 0) eqn:Hle; cmp_facts.
  - exists st. repeat split; try reflexivity; [| intro; lra].
    apply touched_same_identity, Forall2_touched_refl.
  - pose proof (initialDistribution_touched (network st) fundingAmount) as Ht.
    pose proof (getDistributionSummary_total (network st)
                  (initialDistribution (network st) fundingAmount)) as Hs.
    destruct Hs as [summary Hs].
    { rewrite (touched_ids _ _ Ht). apply incl_refl. }
    rewrite Hs. eexists. split; [reflexivity |]. cbn.
    split; [now apply touched_same_identity |].
    split; [reflexivity |]. split; [intro; lra | discriminate].
Qed.

End SummaryProps.

(** ** tbff: the allocation handlers of the page *)

Module AllocationFacts.
Import Tbff TbffPage TbffPageSpec NormalizeProps.

Lemma NoDup_id_inj (l : list Allocation) (a b : Allocation) :
  NoDup (map alloc_id l) -> In a l -> In b l -> alloc_id a = alloc_id b ->
  a = b.
Proof.
  induction l as [| c l IH]; intros Hn Ha Hb E; [destruct Ha |].
  cbn [map] in Hn. inversion Hn as [| ? ? Hc Hl]; subst.
  destruct Ha as [-> | Ha], Hb as [-> | Hb]; auto.
  - exfalso. apply Hc. rewrite E. now apply in_map.
  - exfalso. apply Hc. rewrite <- E. now apply in_map.
Qed.

Lemma NoDup_map_filter (p : Allocation -> bool) (l : list Allocation) :
  NoDup (map alloc_id l) -> NoDup (map alloc_id (filter p l)).
Proof.
  induction l as [| a l IH]; intro Hn; [constructor |].
  cbn [map] in Hn. inversion Hn as [| ? ? Ha Hl]; subst.
  cbn [filter]. destruct (p a); [| now apply IH].
  cbn [map]. constructor; [| now apply IH].
  intro Hin. apply Ha. apply in_map_iff in Hin.
  destruct Hin as (b & Hb & Hin). apply filter_In in Hin.
  rewrite <- Hb. apply in_map. tauto.
Qed.

Lemma same_link_ids (l l' : list Allocation) :
  Forall2 same_link l l' -> map alloc_id l' = map alloc_id l.
Proof.
  induction 1 as [| a a' l l' (E & _) _ IH]; [reflexivity |].
  cbn [map]. now rewrite E, IH.
Qed.

Lemma find_alloc_None (l : list Allocation) (k : string) :
  ~ In k (map alloc_id l) ->
  find (fun n => String.eqb (alloc_id n) k) l = None.
Proof.
  induction l as [| a l IH]; cbn [find map In]; [reflexivity |].
  intro H. destruct (String.eqb (alloc_id a) k) eqn:E.
  - apply String.eqb_eq in E. tauto.
  - apply IH. tauto.
Qed.

Lemma find_alloc_first (l : list Allocation) (a : Allocation) :
  NoDup (map alloc_id l) -> In a l ->
  find (fun n => String.eqb (alloc_id n) (alloc_id a)) l = Some a.
Proof.
  intros Hn Ha.
  destruct (find _ l) as [b |] eqn:Hf.
  - apply find_some in Hf. destruct Hf as [Hb E].
    apply String.eqb_eq in E. f_equal.
    now apply (NoDup_id_inj l).
  - exfalso. eapply find_none in Hf; [| exact Ha].
    rewrite String.eqb_refl in Hf. discriminate.
Qed.

(** The normalized version found for [a] is the one at its position. *)
Lemma find_combine (F N : list Allocation) :
  Forall2 same_link F N -> NoDup (map alloc_id F) ->
  forall a n, In (a, n) (combine F N) ->
  find (fun n => String.eqb (alloc_id n) (alloc_id a)) N = Some n.
Proof.
  induction 1 as [| a0 n0 F N (E & _) HF IH]; intros Hn a n Hin;
    [destruct Hin |].
  cbn [map] in Hn. inversion Hn as [| ? ? Ha0 HnF]; subst.
  cbn [combine In] in Hin. cbn [find].
  destruct Hin as [Heq | Hin].
  - injection Heq as <- <-. rewrite E, String.eqb_refl. reflexivity.
  - destruct (String.eqb (alloc_id n0) (alloc_id a)) eqn:E'.
    + exfalso. apply String.eqb_eq in E'. apply Ha0.
      rewrite <- E, E'. apply in_map. eapply in_combine_l, Hin.
    + now apply IH.
Qed.

Lemma Forall2_In_combine {A B} (R : A -> B -> Prop) (l : list A) (l' : list B)
  (a : A) :
  Forall2 R l l' -> In a l -> exists b, In (a, b) (combine l l') /\ R a b.
Proof.
  induction 1 as [| x y l l' Hxy _ IH]; intros Hin; [destruct Hin |].
  destruct Hin as [-> | Hin].
  - exists y. split; [now left | assumption].
  - destruct (IH Hin) as (b & Hb & HR). exists b. split; [now right | assumption].
Qed.

Lemma map_combine {A} (g : A -> A) (l l' : list A) :
  List.length l = List.length l' ->
  (forall a b, In (a, b) (combine l l') -> g a = b) ->
  map g l = l'.
Proof.
  revert l'. induction l as [| a l IH]; intros [| b l'] Hlen Hg;
    try discriminate; [reflexivity |].
  cbn [map]. f_equal.
  - apply Hg. now left.
  - apply IH; [now injection Hlen |]. intros x y Hxy. apply Hg. now right.
Qed.

Lemma filter_map_comm {A} (p : A -> bool) (g : A -> A) (l : list A) :
  (forall a, In a l -> p (g a) = p a) ->
  filter p (map g l) = map g (filter p l).
Proof.
  induction l as [| a l IH]; intro H; [reflexivity |].
  cbn [map filter]. rewrite (H a (or_introl eq_refl)).
  rewrite IH by (intros; apply H; now right).
  destruct (p a); reflexivity.
Qed.

Lemma map_fixed {A} (g : A -> A) (l : list A) :
  (forall a, In a l -> g a = a) -> map g l = l.
Proof.
  intro H. rewrite <- (map_id l) at 2. now apply map_ext_in.
Qed.

Lemma Forall2_map_r {A} (R : A -> A -> Prop) (g : A -> A) (l : list A) :
  (forall a, In a l -> R a (g a)) -> Forall2 R l (map g l).
Proof.
  induction l as [| a l IH]; intro H; cbn [map]; constructor.
  - apply H. now left.
  - apply IH. intros; apply H; now right.
Qed.

(** What the three handlers do after their change: the allocations of the
    source are replaced by their normalized versions, in place, and the
    others are kept, provided the ids tell the allocations apart. *)
Lemma renormalize_spec (sourceId : string) (l : list Allocation) :
  NoDup (map alloc_id l) ->
  from_source sourceId (renormalize sourceId l)
  = normalizeAllocations (from_source sourceId l)
  /\ from_others sourceId (renormalize sourceId l) = from_others sourceId l
  /\ Forall2 same_link l (renormalize sourceId l).
Proof.
  intro Hn. unfold renormalize, replace_normalized.
  fold (from_source sourceId l).
  set (F := from_source sourceId l).
  set (N := normalizeAllocations F).
  set (g := fun a : Allocation =>
              match find (fun n => String.eqb (alloc_id n) (alloc_id a)) N with
              | Some normalizedVersion => normalizedVersion
              | None => a
              end).
  pose proof (normalizeAllocations_links F) as HFN. fold N in HFN.
  assert (HnF : NoDup (map alloc_id F)) by now apply NoDup_map_filter.
  assert (Hsrc : forall a, In a l ->
                   String.eqb (sourceAccountId a) sourceId = true ->
                   exists n, In (a, n) (combine F N) /\ same_link a n
                             /\ g a = n).
  { intros a Ha E.
    assert (HaF : In a F) by (apply filter_In; tauto).
    destruct (Forall2_In_combine _ _ _ a HFN HaF) as (n & Hin & Hl).
    exists n. split; [exact Hin |]. split; [exact Hl |].
    unfold g. now rewrite (find_combine F N HFN HnF a n Hin). }
  assert (Hoth : forall a, In a l ->
                   String.eqb (sourceAccountId a) sourceId = false ->
                   g a = a).
  { intros a Ha E. unfold g. rewrite find_alloc_None; [reflexivity |].
    rewrite (same_link_ids _ _ HFN). intro Hin.
    apply in_map_iff in Hin. destruct Hin as (f & Hid & Hf).
    apply filter_In in Hf. destruct Hf as [Hfl Hfs].
    assert (f = a) by now apply (NoDup_id_inj l).
    subst f. congruence. }
  assert (Hkeep : forall a, In a l ->
                    String.eqb (sourceAccountId (g a)) sourceId
                    = String.eqb (sourceAccountId a) sourceId).
  { intros a Ha.
    destruct (String.eqb (sourceAccountId a) sourceId) eqn:E.
    - destruct (Hsrc a Ha E) as (n & _ & (_ & Hs & _) & ->).
      now rewrite Hs.
    - now rewrite (Hoth a Ha E). }
  split; [| split].
  - unfold from_source at 1. rewrite filter_map_comm by exact Hkeep.
    fold (from_source sourceId l). fold F.
    apply map_combine; [eapply Forall2_length, HFN |].
    intros a n Hin. unfold g. now rewrite (find_combine F N HFN HnF a n Hin).
  - unfold from_others.
    rewrite (filter_map_comm (fun a => negb _) g l)
      by (intros a Ha; now rewrite (Hkeep a Ha)).
    apply map_fixed. intros a Ha. apply filter_In in Ha.
    destruct Ha as [Ha E]. apply negb_true_iff in E. now apply Hoth.
  - apply Forall2_map_r. intros a Ha.
    destruct (String.eqb (sourceAccountId a) sourceId) eqn:E.
    + destruct (Hsrc a Ha E) as (n & _ & Hl & ->). exact Hl.
    + rewrite (Hoth a Ha E). unfold same_link. tauto.
Qed.

Lemma filter_absorb {A} (p q : A -> bool) (l : list A) :
  (forall a, In a l -> p a = true -> q a = true) ->
  filter p (filter q l) = filter p l.
Proof.
  induction l as [| a l IH]; intro H; [reflexivity |].
  cbn [filter]. rewrite <- IH by (intros; apply H; auto; now right).
  destruct (q a) eqn:Eq; cbn [filter]; [reflexivity |].
  destruct (p a) eqn:Ep; [| reflexivity].
  rewrite (H a (or_introl eq_refl) Ep) in Eq. discriminate.
Qed.



Lemma same_link_trans (l1 l2 l3 : list Allocation) :
  Forall2 same_link l1 l2 -> Forall2 same_link l2 l3 ->
  Forall2 same_link l1 l3.
Proof.
  intro H. revert l3. induction H as [| a b l1 l2 Hab _ IH]; intros l3 H3;
    inversion H3 as [| ? c ? l3' Hbc H3']; subst; constructor.
  - unfold same_link in *. intuition congruence.
  - now apply IH.
Qed.

End AllocationFacts.

Module AllocationProps.
Import Tbff TbffPage TbffPageSpec NormalizeProps AllocationFacts TbffSamples.



(** An id that no allocation has is ignored by [deleteAllocation] and by
    [updateAllocationPercentage]: the state stays as it is, selection
    included. *)
Theorem handlers_ignore_unknown_id (st : PageState) (allocationId : string) :
  ~ In allocationId (allocation_ids st) ->
  deleteAllocation st allocationId = st
  /\ forall newPercentage,
       updateAllocationPercentage st allocationId newPercentage = st.
Proof.
  intro H. unfold deleteAllocation, updateAllocationPercentage.
  rewrite (find_alloc_None _ _ H). split; reflexivity.
Qed.

Lemma handlers_ignore_unknown_id_witness :
  deleteAllocation (showing statesDemo) "a2" = showing statesDemo.
Proof.
  apply (handlers_ignore_unknown_id (showing statesDemo) "a2").
  cbn. intuition discriminate.
Defined.

(** [deleteAllocation] of an allocation [a], ids telling the allocations
    apart: no allocation has its id afterwards, nothing is selected, the
    remaining allocations of its source are the normalized ones, and the
    allocations of the other sources are kept. *)
Theorem deleteAllocation_renormalizes (st : PageState) (a : Allocation) :
  NoDup (allocation_ids st) -> In a (allocations (network st)) ->
  let before := allocations (network st) in
  let st' := deleteAllocation st (alloc_id a) in
  let after := allocations (network st') in
  ~ In (alloc_id a) (map alloc_id after)
  /\ selectedAllocationId st' = None
  /\ from_source (sourceAccountId a) after
     = normalizeAllocations
         (from_source (sourceAccountId a) (without (alloc_id a) before))
  /\ from_others (sourceAccountId a) after
     = from_others (sourceAccountId a) before.
Proof.
  intros Hn Ha before st' after.
  assert (Hst : st' = {| network :=
                           calculateNetworkTotals
                             (with_allocations (network st)
                                (renormalize (sourceAccountId a)
                                   (without (alloc_id a) before)));
                         selectedAllocationId := None;
                         lastDistribution := lastDistribution st |}).
  { unfold st', deleteAllocation. fold before.
    now rewrite (find_alloc_first before a Hn Ha). }
  assert (Hafter : after = renormalize (sourceAccountId a)
                             (without (alloc_id a) before)).
  { unfold after. now rewrite Hst. }
  assert (Hn' : NoDup (map alloc_id (without (alloc_id a) before))).
  { now apply NoDup_map_filter. }
  destruct (renormalize_spec (sourceAccountId a) _ Hn') as (H1 & H2 & H3).
  split; [| split; [now rewrite Hst | split]].
  - rewrite Hafter, (same_link_ids _ _ H3). intro Hin.
    apply in_map_iff in Hin. destruct Hin as (b & Hb & Hin).
    apply filter_In in Hin. destruct Hin as [_ Hin].
    rewrite Hb, String.eqb_refl in Hin. discriminate.
  - now rewrite Hafter.
  - rewrite Hafter, H2. unfold from_others, without.
    apply filter_absorb. intros b Hb Hs.
    apply negb_true_iff in Hs. apply negb_true_iff.
    apply String.eqb_neq. intro E.
    assert (b = a) by now apply (NoDup_id_inj before).
    subst b. rewrite String.eqb_refl in Hs. discriminate.
Qed.

Lemma deleteAllocation_renormalizes_witness :
  let st' := deleteAllocation (showing statesDemo) "a1" in
  allocations (network st') = [] /\ selectedAllocationId st' = None.
Proof.
  destruct (deleteAllocation_renormalizes (showing statesDemo)
              {| alloc_id := "a1"; sourceAccountId := "overflow";
                 targetAccountId := "deficit"; percentage := 1 |})
    as (_ & H2 & _).
  - repeat constructor. cbn. tauto.
  - now left.
  - split; [reflexivity | exact H2].
Defined.

(** [updateAllocationPercentage] of an allocation [a], ids telling the
    allocations apart and percentages being fractions: the network has the
    same allocations with new percentages and the selection is kept; the
    allocations of the other sources keep their percentages; those of the
    source of [a] sum to 1 within 0.0001; and an allocation that is the only
    one of its source ends at 100% whatever the new percentage. *)
Theorem updateAllocationPercentage_renormalizes (st : PageState)
  (a : Allocation) (newPercentage : number) :
  NoDup (allocation_ids st) -> In a (allocations (network st)) ->
  Forall fraction (allocations (network st)) ->
  let before := allocations (network st) in
  let st' := updateAllocationPercentage st (alloc_id a) newPercentage in
  let after := allocations (network st') in
  Forall2 same_link before after
  /\ selectedAllocationId st' = selectedAllocationId st
  /\ from_others (sourceAccountId a) after
     = from_others (sourceAccountId a) before
  /\ Qabs (total_percentage (from_source (sourceAccountId a) after) - 1)
     < 1 # 10000
  /\ (from_source (sourceAccountId a) before = [a] ->
      from_source (sourceAccountId a) after = [with_percentage a 1]).
Proof.
  intros Hn Ha Hf before st' after.
  set (upd := fun x : Allocation =>
                if String.eqb (alloc_id x) (alloc_id a)
                then with_percentage x (Qmax 0 (Qmin 1 newPercentage))
                else x).
  assert (Hst : st' = {| network :=
                           calculateNetworkTotals
                             (with_allocations (network st)
                                (renormalize (sourceAccountId a)
                                   (map upd before)));
                         selectedAllocationId := selectedAllocationId st;
                         lastDistribution := lastDistribution st |}).
  { unfold st', updateAllocationPercentage. fold before.
    now rewrite (find_alloc_first before a Hn Ha). }
  assert (Hafter : after = renormalize (sourceAccountId a) (map upd before)).
  { unfold after. now rewrite Hst. }
  assert (Hupd : Forall2 same_link before (map upd before)).
  { apply Forall2_map_r. intros x _. unfold upd, same_link.
    destruct (String.eqb _ _); cbn; tauto. }
  assert (Hn' : NoDup (map alloc_id (map upd before))).
  { now rewrite (same_link_ids _ _ Hupd). }
  destruct (renormalize_spec (sourceAccountId a) _ Hn') as (H1 & H2 & H3).
  assert (Hsame : forall x, In x before -> alloc_id x = alloc_id a -> x = a).
  { intros x Hx E. now apply (NoDup_id_inj before). }
  assert (Hsrc : from_source (sourceAccountId a) (map upd before)
                 = map upd (from_source (sourceAccountId a) before)).
  { unfold from_source. apply filter_map_comm. intros x _. unfold upd.
    destruct (String.eqb (alloc_id x) (alloc_id a)); reflexivity. }
  split; [rewrite Hafter; eapply same_link_trans; eassumption |].
  split; [now rewrite Hst |]. split; [| split].
  - rewrite Hafter, H2. unfold from_others.
    rewrite filter_map_comm
      by (intros x _; unfold upd;
          destruct (String.eqb (alloc_id x) (alloc_id a)); reflexivity).
    apply map_fixed. intros x Hx. apply filter_In in Hx.
    destruct Hx as [Hx Hs]. unfold upd.
    destruct (String.eqb (alloc_id x) (alloc_id a)) eqn:E; [| reflexivity].
    apply String.eqb_eq in E. rewrite (Hsame x Hx E) in Hs.
    rewrite String.eqb_refl in Hs. discriminate.
  - rewrite Hafter, H1, Hsrc. apply normalized_total.
    + apply Forall_forall. intros x' Hx'. apply in_map_iff in Hx'.
      destruct Hx' as (x & <- & Hx). apply filter_In in Hx.
      destruct Hx as [Hx _].
      rewrite Forall_forall in Hf. unfold upd.
      destruct (String.eqb _ _); [| exact (Hf x Hx)].
      unfold fraction. cbn [percentage with_percentage].
      split; [apply Q.le_max_l |].
      apply Q.max_lub; [lra | apply Q.le_min_l].
    + assert (Hin : In a (from_source (sourceAccountId a) before)).
      { apply filter_In. split; [exact Ha | apply String.eqb_refl]. }
      intro He. apply (in_map upd) in Hin. rewrite He in Hin. destruct Hin.
  - intro Honly. rewrite Hafter, H1, Hsrc, Honly. cbn [map].
    unfold upd. rewrite String.eqb_refl. reflexivity.
Qed.

Lemma updateAllocationPercentage_renormalizes_witness :
  let st' := updateAllocationPercentage (showing statesDemo) "a1" (3 # 10) in
  from_source "overflow" (allocations (network st'))
  = [ {| alloc_id := "a1"; sourceAccountId := "overflow";
         targetAccountId := "deficit"; percentage := 1 |} ].
Proof.
  destruct (updateAllocationPercentage_renormalizes (showing statesDemo)
              {| alloc_id := "a1"; sourceAccountId := "overflow";
                 targetAccountId := "deficit"; percentage := 1 |} (3 # 10))
    as (_ & _ & _ & _ & H).
  - repeat constructor. cbn. tauto.
  - now left.
  - repeat constructor; cbn; discriminate.
  - apply H. reflexivity.
Defined.

End AllocationProps.

(** ** The discrete engine: the recorded rounds *)

Module HistoryFacts.
Import FlowFunding DiscreteSpec HistorySpec Rounds TargetedProps.

Lemma run_ok_none (i : nat) (epsilon : number) (accounts : list Account) :
  run_ok 0 i epsilon (accounts, [], false).
Proof.
  cbn [run_ok]. split; [reflexivity |]. split; [reflexivity |].
  split; [constructor |]. split; [| split; [discriminate | reflexivity]].
  intros [| k] it Hk; discriminate.
Qed.

Lemma run_ok_stop (left i : nat) (epsilon : number) (final : list Account)
  (it : IterationResult) :
  iteration it = i -> converged it = true -> marked epsilon it ->
  balances it = balance_map final ->
  run_ok (S left) i epsilon (final, [it], true).
Proof.
  intros Hi Hc Hm Hb. cbn. rewrite Hi.
  split; [reflexivity |]. split; [lia |].
  split; [constructor; [exact Hm | constructor] |].
  split; [| split; [| discriminate]].
  - intros [| k] it' Hk _; cbn in Hk.
    + injection Hk as <-. now rewrite Hb.
    + destruct k; discriminate.
  - intros _. exists it. split; [now left | assumption].
Qed.

Lemma run_ok_step (left i : nat) (epsilon : number) (final : list Account)
  (it : IterationResult) (new : list IterationResult) (c : bool) :
  iteration it = i -> converged it = false -> marked epsilon it ->
  run_ok left (S i) epsilon (final, new, c) ->
  run_ok (S left) i epsilon (final, it :: new, c).
Proof.
  intros Hi Hc Hm (H1 & H2 & H3 & H4 & H5 & H6). cbn [run_ok].
  split; [cbn; now rewrite Hi, H1 |]. split; [cbn; lia |].
  split; [now constructor |].
  split; [| split].
  - intros [| k] it' Hk Hc'; cbn in Hk.
    + injection Hk as <-. congruence.
    + destruct (H4 k it' Hk Hc') as (E & ? & ?). cbn [List.length].
      rewrite <- E. auto.
  - intro Hct. destruct (H5 Hct) as (it' & Hin & Hc').
    exists it'. split; [now right | assumption].
  - intro Hcf. cbn. now rewrite (H6 Hcf).
Qed.

Lemma marked_by (epsilon : number) (it : IterationResult) :
  converged it = Qltb (totalOverflow it) epsilon -> marked epsilon it.
Proof. unfold marked. intros ->. apply Qltb_true. Qed.

Lemma rounds_ok (left i : nat) (epsilon : number) (accounts : list Account) :
  run_ok left i epsilon (rounds left i epsilon accounts []).
Proof.
  revert i accounts. induction left as [| left IH]; intros i accounts.
  - apply run_ok_none.
  - cbn [rounds].
    destruct (calculateOverflow accounts) as [accounts1 ovs].
    destruct (Qltb (sum (JsMap.values ovs)) epsilon) eqn:Hlt.
    + apply run_ok_stop; try reflexivity.
      apply marked_by. cbn. now rewrite Hlt.
    + destruct (redistributeOverflow accounts1 ovs) as [accounts2 fl].
      rewrite rounds_iterations_app.
      specialize (IH (S i) accounts2).
      destruct (rounds left (S i) epsilon accounts2 []) as [[a new] c].
      apply run_ok_step; try reflexivity; [| exact IH].
      apply marked_by. cbn. now rewrite Hlt.
Qed.

Lemma targeted_rounds_ok (left i : nat) (epsilon : number)
  (accounts : list Account) :
  run_ok left i epsilon (targeted_rounds left i epsilon accounts []).
Proof.
  revert i accounts. induction left as [| left IH]; intros i accounts.
  - apply run_ok_none.
  - cbn [targeted_rounds].
    destruct (targeted_overflow_from accounts JsMap.empty 0)
      as [[accounts1 ovs] total].
    destruct (Qltb total epsilon) eqn:Hlt.
    + apply run_ok_stop; try reflexivity.
      apply marked_by. cbn. now rewrite Hlt.
    + destruct (fold_left _ _ _) as [accounts2 fl].
      rewrite targeted_rounds_iterations_app.
      specialize (IH (S i) accounts2).
      destruct (targeted_rounds left (S i) epsilon accounts2 [])
        as [[a new] c].
      apply run_ok_step; try reflexivity; [| exact IH].
      apply marked_by. cbn. now rewrite Hlt.
Qed.

Lemma run_ok_history (config : DistributionConfig)
  (final : list Account) (its : list IterationResult) (c : bool)
  (initial : JsMap.t number) (funding : number) :
  run_ok (cfg_maxIterations config) 0 (cfg_epsilon config) (final, its, c) ->
  history config
    {| initialBalances := initial;
       finalBalances := balance_map final;
       iterations := its;
       result_converged := c;
       totalFunding := funding;
       iterationCount := List.length its |}.
Proof.
  intros (H1 & H2 & H3 & H4 & H5 & H6). unfold history. cbn.
  repeat split; auto; now destruct (H4 k it).
Qed.

Lemma settled_overflow_from (accounts : list Account)
  (overflows : JsMap.t number) (total : number) :
  settled accounts ->
  targeted_overflow_from accounts overflows total
  = (accounts, overflows, total).
Proof.
  induction 1 as [| a l Ha _ IH]; [reflexivity |].
  cbn [targeted_overflow_from].
  destruct (Qgtb (Qmax 0 (balance a - maxThreshold a)) 0) eqn:E; cmp_facts.
  - pose proof (Qmax_0_spec (balance a - maxThreshold a)). lra.
  - now rewrite IH.
Qed.

End HistoryFacts.

Module HistoryProps.
Import FlowFunding DiscreteSpec HistorySpec HistoryFacts.

(** The result that [runDistribution] returns tells the rounds as they
    ran: [iterationCount] is the number of recorded rounds and at most
    [maxIterations]; the rounds are numbered from 0; a round is marked
    converged exactly when its [totalOverflow] is below epsilon; a round
    marked converged is the last one, makes the result converged and has the
    final balances; a converged result has such a round, and a result that
    is not converged used all [maxIterations] rounds. *)
Theorem runDistribution_history (accounts final : list Account)
  (funding : number) (config : DistributionConfig) (r : DistributionResult) :
  runDistribution accounts funding config = (final, Returned r) ->
  history config r.
Proof.
  unfold runDistribution.
  destruct (negb _); [discriminate |].
  pose proof (rounds_ok (cfg_maxIterations config) 0 (cfg_epsilon config)
                (distributeInitial accounts funding)) as Hok.
  destruct (rounds _ _ _ _ _) as [[accounts2 its] c].
  intro H. injection H as _ <-. now apply run_ok_history.
Qed.

Lemma runDistribution_history_witness :
  exists final r,
    runDistribution pair_network 0 no_config = (final, Returned r)
    /\ history no_config r.
Proof.
  do 2 eexists. split; [vm_compute; reflexivity |].
  eapply (runDistribution_history pair_network _ 0 no_config).
  vm_compute; reflexivity.
Defined.

(** The same holds of [runTargetedDistribution], for every account list
    and configuration. *)
Theorem runTargetedDistribution_history (accounts : list Account)
  (config : DistributionConfig) :
  history config (snd (runTargetedDistribution accounts config)).
Proof.
  unfold runTargetedDistribution.
  pose proof (targeted_rounds_ok (cfg_maxIterations config) 0
                (cfg_epsilon config) accounts) as Hok.
  destruct (targeted_rounds _ _ _ _ _) as [[accounts2 its] c].
  cbn [snd]. now apply run_ok_history.
Qed.

(** When no account holds more than its maximum, epsilon is positive and
    at least one round is allowed, [runTargetedDistribution] changes
    nothing: the accounts are as they were, and the result is converged
    after a single round without overflows or flows. *)
Theorem runTargetedDistribution_settled (accounts : list Account)
  (config : DistributionConfig) :
  settled accounts -> 0 < cfg_epsilon config ->
  (0 < cfg_maxIterations config)%nat ->
  let (final, r) := runTargetedDistribution accounts config in
  final = accounts
  /\ result_converged r = true
  /\ iterationCount r = 1%nat
  /\ finalBalances r = initialBalances r
  /\ exists it, iterations r = [it]
                /\ overflows it = JsMap.empty /\ flows it = JsMap.empty
                /\ balances it = initialBalances r.
Proof.
  intros Hs He Hm. unfold runTargetedDistribution.
  destruct (cfg_maxIterations config) as [| left]; [lia |].
  cbn [targeted_rounds]. rewrite (settled_overflow_from _ _ _ Hs).
  assert (Hlt : Qltb 0 (cfg_epsilon config) = true) by now apply Qltb_true.
  rewrite Hlt. cbn. repeat split. eexists. repeat split.
Qed.

Lemma runTargetedDistribution_settled_witness :
  fst (runTargetedDistribution calm no_config) = calm
  /\ result_converged (snd (runTargetedDistribution calm no_config)) = true.
Proof.
  pose proof (runTargetedDistribution_settled calm no_config) as H.
  destruct (runTargetedDistribution calm no_config) as [final r].
  destruct H as (H1 & H2 & _).
  - repeat constructor; cbn; discriminate.
  - reflexivity.
  - cbn. lia.
  - split; assumption.
Defined.

End HistoryProps.
